(** * grouper: a generic errgroup

    A shallow embedding of the three Go files of the package:
    - [Grouper]  : src/grouper.go, the fixed group whose context is derived
                   in [New];
    - [Part000]  : src/unnamed/part_000, the fixed group whose context is
                   derived in [Wait];
    - [Dynamic]  : src/dynamic.go, the group fed by [Go].

    The goroutines a group starts are modelled as small state machines
    over the shared fields of the group, and a run is driven by a
    schedule: the list of goroutine indices in the order in which the Go
    scheduler lets them take their next step.  A blocking call evaluated
    under a schedule returns, panics, or is still blocked when the
    schedule ends; the theorems quantify over all schedules.

    The file has the three models first, then the functions and
    invariants the statements are written with, then the proofs. *)

From Stdlib Require Import ZArith String.
From stdpp Require Import base numbers list.

Local Open Scope Z_scope.

(** ** What the three files share *)

(** How a call ends: it returns, it panics, or (for a blocking call) the
    schedule ran out while it was still blocked. *)
Inductive outcome (A : Type) : Type :=
| Ret (a : A)
| Panic (msg : string)
| Blocked.
Arguments Ret {A} a.
Arguments Panic {A} msg.
Arguments Blocked {A}.

(** A non-nil [context.Context] of the standard library, by identity:
    [context.Background()], which is never done; a context of the
    caller's that is done when it is handed over (cancelled before, or
    past its deadline); and the children that [context.WithCancel]
    derives, by a group or by the caller before the hand-over.  Whether
    a context derived by a group is done is a field of the state that
    owns its cancel function. *)
Inductive Context : Type :=
| Background
| Cancelled
| WithCancel (parent : Context).

(** Whether a context is done the moment it is handed over or derived: a
    child of a done parent is done at once.  (A live context of the
    caller's may be cancelled later by whoever holds its cancel function;
    only [Background] has none, so only of a child of [Background] is
    anything said about not being done.) *)
Fixpoint done_already (c : Context) : bool :=
  match c with
  | Background => false
  | Cancelled => true
  | WithCancel parent => done_already parent
  end.

(** A value of the interface type [context.Context] as a caller passes
    it: nil, or a context. *)
Inductive Interface : Type :=
| Nil
| NonNil (c : Context).
Coercion NonNil : Context >-> Interface.

(** [context.WithCancel(parent)]: panics on a nil parent, else derives
    the child, done at once if the parent is. *)
Definition context_WithCancel (parent : Interface) : outcome (Context * bool) :=
  match parent with
  | Nil => Panic "cannot create context from nil parent"
  | NonNil p => Ret (WithCancel p, done_already p)
  end.

(** The zero value every Go type has ([make([]V, n)] fills with it). *)
Class Zero (V : Type) := zero : V.
#[export] Instance nat_Zero : Zero nat := 0%nat.

(** [error]: nil is [None], a non-nil error is [Some e]; [E] is the type
    of error values, compared by identity. *)
Abbreviation error E := (option E) (only parsing).

(** [func(context.Context) (V, error)].  A task is not code of the
    package: a goroutine of the group calls it once, with the derived
    context, and looks at the pair it returns.  The model keeps of a task
    that pair, as a function of the context it is handed; whatever else
    the task does meanwhile (watching [ctx.Done()] included) is its own
    affair, and the theorems hold for every such function. *)
Abbreviation func V E := (Context → V * error E) (only parsing).

(** [uint] on a 64-bit platform: [g.count++] wraps at this modulus. *)
Definition uint_modulus : Z := 2 ^ 64.

(** The counter of a [sync.WaitGroup] has 32 bits: this is the length of
    the shortest list of functions it cannot count. *)
Definition WaitGroup_limit : Z := 2 ^ 31.

(** ** src/grouper.go *)
Module Grouper.
Section Group.
Context {V E : Type} `{!Zero V}.

Record Group : Type := mkGroup {
  ctx : Context;
  cancel : bool;        (* g.cancel != nil *)
  ctx_done : bool;      (* g.ctx.Done() is closed *)
  wg : Z;               (* counter of the sync.WaitGroup *)
  errOnce : bool;       (* the sync.Once has fired *)
  err : error E;
  funcs : list (func V E)
}.

(** [g.cancel()] on a non-nil cancel function; calling it again changes
    nothing. *)
Definition do_cancel (g : Group) : Group :=
  mkGroup (ctx g) (cancel g) true (wg g) (errOnce g) (err g) (funcs g).

Definition New (c : Interface) (fs : list (func V E)) : outcome (Group * Context) :=
  if decide (length fs = 0%nat) then
    Panic "grouper.New cannot be created without funcs to call!"
  else
    match context_WithCancel c with
    | Ret (c', d) =>
        let g := mkGroup c' true d (Z.of_nat (length fs)) false None fs in
        Ret (g, ctx g)
    | Panic msg => Panic msg
    | Blocked => Blocked
    end.

(** Where a goroutine of [Wait] stands. *)
Inductive goroutine : Type :=
| Spawned (f : func V E)          (* started, f not yet called *)
| Returned (v : V) (e : error E)  (* v, err := f(g.ctx) *)
| Deferred                        (* body over, g.wg.Done() pending *)
| Exited.

(** A running [Wait]: the group, the local slice and the goroutines. *)
Record frame : Type := mkFrame {
  grp : Group;
  values : list V;
  gos : list goroutine
}.

(** [g.errOnce.Do(func() { g.err = err; if g.cancel != nil { g.cancel() } })] *)
Definition errOnce_Do (e : E) (g : Group) : Group :=
  if errOnce g then g
  else mkGroup (ctx g) (cancel g) (if cancel g then true else ctx_done g)
               (wg g) true (Some e) (funcs g).

(** [g.wg.Done()] *)
Definition wg_Done (g : Group) : outcome Group :=
  if decide (wg g - 1 < 0) then Panic "sync: negative WaitGroup counter"
  else Ret (mkGroup (ctx g) (cancel g) (ctx_done g) (wg g - 1) (errOnce g) (err g) (funcs g)).

(** Goroutine [i] takes its next step. *)
Definition step (i : nat) (st : frame) : outcome frame :=
  match gos st !! i with
  | Some (Spawned f) =>
      let '(v, e) := f (ctx (grp st)) in
      Ret (mkFrame (grp st) (values st) (<[i := Returned v e]> (gos st)))
  | Some (Returned v (Some e)) =>
      Ret (mkFrame (errOnce_Do e (grp st)) (values st) (<[i := Deferred]> (gos st)))
  | Some (Returned v None) =>
      Ret (mkFrame (grp st) (<[i := v]> (values st)) (<[i := Deferred]> (gos st)))
  | Some Deferred =>
      match wg_Done (grp st) with
      | Ret g' => Ret (mkFrame g' (values st) (<[i := Exited]> (gos st)))
      | Panic m => Panic m
      | Blocked => Blocked
      end
  | Some Exited | None => Ret st
  end.

(** The steps of a schedule, in order. *)
Fixpoint run (sched : list nat) (st : frame) : outcome frame :=
  match sched with
  | [] => Ret st
  | i :: sched' =>
      match step i st with
      | Ret st' => run sched' st'
      | Panic m => Panic m
      | Blocked => Blocked
      end
  end.

(** [Wait]: one goroutine per function, then [g.wg.Wait()], which lets the
    caller through once the counter is zero, then [g.cancel()]. *)
Definition Wait (sched : list nat) (g : Group) : outcome (list V * error E * Group) :=
  let st := mkFrame g (replicate (length (funcs g)) zero) (Spawned <$> funcs g) in
  match run sched st with
  | Ret st' =>
      if decide (wg (grp st') = 0) then
        if cancel (grp st') then Ret (values st', err (grp st'), do_cancel (grp st'))
        else Panic "invalid memory address or nil pointer dereference"
      else Blocked
  | Panic m => Panic m
  | Blocked => Blocked
  end.

End Group.
Arguments Group : clear implicits.
Arguments goroutine : clear implicits.
Arguments frame : clear implicits.
End Grouper.

(** ** src/unnamed/part_000 *)
Module Part000.
Section Group.
Context {V E : Type} `{!Zero V}.

Record Group : Type := mkGroup {
  wg : Z;
  errOnce : bool;
  err : error E;
  funcs : list (func V E)
}.

Definition New (fs : list (func V E)) : outcome Group :=
  if decide (length fs = 0%nat) then
    Panic "grouper.New cannot be created without funcs to call!"
  else Ret (mkGroup 0 false None fs).

Inductive goroutine : Type :=
| Spawned (f : func V E)          (* started, f not yet called *)
| Returned (v : V) (e : error E)  (* v, err := f(ctx) *)
| Storing (v : V)                 (* past the if, values[i] = v pending *)
| Deferred                        (* body over, g.wg.Done() pending *)
| Exited.

(** A running [Wait]: the group, the derived context of this call with
    its done flag, the local slice and the goroutines. *)
Record frame : Type := mkFrame {
  grp : Group;
  ctx : Context;
  ctx_done : bool;
  values : list V;
  gos : list goroutine
}.

(** [g.wg.Add(n)] *)
Definition wg_Add (n : Z) (g : Group) : Group :=
  mkGroup (wg g + n) (errOnce g) (err g) (funcs g).

(** [g.wg.Done()] *)
Definition wg_Done (g : Group) : outcome Group :=
  if decide (wg g - 1 < 0) then Panic "sync: negative WaitGroup counter"
  else Ret (mkGroup (wg g - 1) (errOnce g) (err g) (funcs g)).

(** [g.errOnce.Do(func() { g.err = err; cancel() })] *)
Definition errOnce_Do (e : E) (st : frame) : frame :=
  if errOnce (grp st) then st
  else mkFrame (mkGroup (wg (grp st)) true (Some e) (funcs (grp st)))
               (ctx st) true (values st) (gos st).

Definition set_go (i : nat) (x : goroutine) (st : frame) : frame :=
  mkFrame (grp st) (ctx st) (ctx_done st) (values st) (<[i := x]> (gos st)).

(** Goroutine [i] takes its next step. *)
Definition step (i : nat) (st : frame) : outcome frame :=
  match gos st !! i with
  | Some (Spawned f) =>
      let '(v, e) := f (ctx st) in Ret (set_go i (Returned v e) st)
  | Some (Returned v (Some e)) => Ret (set_go i (Storing v) (errOnce_Do e st))
  | Some (Returned v None) => Ret (set_go i (Storing v) st)
  | Some (Storing v) =>
      Ret (mkFrame (grp st) (ctx st) (ctx_done st) (<[i := v]> (values st))
                   (<[i := Deferred]> (gos st)))
  | Some Deferred =>
      match wg_Done (grp st) with
      | Ret g' => Ret (mkFrame g' (ctx st) (ctx_done st) (values st) (<[i := Exited]> (gos st)))
      | Panic m => Panic m
      | Blocked => Blocked
      end
  | Some Exited | None => Ret st
  end.

(** The steps of a schedule, in order. *)
Fixpoint run (sched : list nat) (st : frame) : outcome frame :=
  match sched with
  | [] => Ret st
  | i :: sched' =>
      match step i st with
      | Ret st' => run sched' st'
      | Panic m => Panic m
      | Blocked => Blocked
      end
  end.

(** What a returned [Wait] leaves behind: the two results, the group, and
    the done flag of the context it derived (set by the deferred
    [cancel()]). *)
Record waited : Type := mkWaited {
  w_values : list V;
  w_err : error E;
  w_group : Group;
  w_ctx : Context;
  w_ctx_done : bool
}.

(** [cancel()] of the context derived by this call. *)
Definition do_cancel (st : frame) : frame :=
  mkFrame (grp st) (ctx st) true (values st) (gos st).

(** [Wait]: derive the context, [g.wg.Add], one goroutine per function,
    [g.wg.Wait()], and the deferred [cancel()] on the way out. *)
Definition Wait (c : Interface) (sched : list nat) (g : Group) : outcome waited :=
  match context_WithCancel c with
  | Ret (c', d) =>
      let g1 := wg_Add (Z.of_nat (length (funcs g))) g in
      let st := mkFrame g1 c' d
                        (replicate (length (funcs g)) zero) (Spawned <$> funcs g) in
      match run sched st with
      | Ret st' =>
          if decide (wg (grp st') = 0) then
            let st'' := do_cancel st' in
            Ret (mkWaited (values st'') (err (grp st'')) (grp st'') (ctx st'') (ctx_done st''))
          else Blocked
      | Panic m => Panic m
      | Blocked => Blocked
      end
  | Panic m => Panic m
  | Blocked => Blocked
  end.

(** Successive calls of [Wait] on one group, each with its own context
    and schedule; the results are listed in call order. *)
Fixpoint Waits (calls : list (Context * list nat)) (g : Group) : outcome (list waited) :=
  match calls with
  | [] => Ret []
  | (c, sched) :: calls' =>
      match Wait c sched g with
      | Ret w =>
          match Waits calls' (w_group w) with
          | Ret ws => Ret (w :: ws)
          | Panic m => Panic m
          | Blocked => Blocked
          end
      | Panic m => Panic m
      | Blocked => Blocked
      end
  end.

End Group.
Arguments Group : clear implicits.
Arguments goroutine : clear implicits.
Arguments frame : clear implicits.
Arguments waited : clear implicits.
End Part000.

(** ** src/dynamic.go *)
Module Dynamic.
Section DynamicGroup.
Context {V E : Type} `{!Zero V}.

(** The channel is unbuffered and so has no content of its own: a value
    passes when a goroutine blocked in [g.valueChan <- v] meets the
    receive of [Wait]; on a nil channel neither side ever gets through. *)
Record DynamicGroup : Type := mkGroup {
  ctx : Context;
  cancel : bool;        (* g.cancel != nil *)
  ctx_done : bool;      (* g.ctx.Done() is closed *)
  errOnce : bool;       (* the sync.Once has fired *)
  err : error E;
  count : Z;            (* uint *)
  valueChan : bool      (* g.valueChan != nil *)
}.

Inductive goroutine : Type :=
| Spawned (f : func V E)          (* started, f not yet called *)
| Returned (v : V) (e : error E)  (* v, err := f(g.ctx) *)
| Sending (v : V)                 (* blocked in g.valueChan <- v *)
| Exited.

(** The group together with the goroutines [Go] has started for it. *)
Record machine : Type := mkMachine {
  grp : DynamicGroup;
  gos : list goroutine
}.

(** [NewDynamic] on a non-nil context: the group with its channel, and
    the derived context, done at once if the parent is. *)
Definition NewDynamic (c : Context) : machine * Context :=
  let g := mkGroup (WithCancel c) true (done_already c) false None 0 true in
  (mkMachine g [], ctx g).

(** [NewDynamic] on any value of the interface type: on nil
    [context.WithCancel] panics and no group comes to be. *)
Definition NewDynamic_call (c : Interface) : outcome (machine * Context) :=
  match c with
  | Nil => Panic "cannot create context from nil parent"
  | NonNil p => Ret (NewDynamic p)
  end.

(** [g.cancel()] *)
Definition do_cancel (g : DynamicGroup) : DynamicGroup :=
  mkGroup (ctx g) (cancel g) true (errOnce g) (err g) (count g) (valueChan g).

(** [g.errOnce.Do(func() { g.err = err; if g.cancel != nil { g.cancel() } })] *)
Definition errOnce_Do (e : E) (g : DynamicGroup) : DynamicGroup :=
  if errOnce g then g
  else mkGroup (ctx g) (cancel g) (if cancel g then true else ctx_done g)
               true (Some e) (count g) (valueChan g).

(** [Go]: [g.count++], then the new goroutine. *)
Definition Go (f : func V E) (m : machine) : machine :=
  let g := grp m in
  mkMachine (mkGroup (ctx g) (cancel g) (ctx_done g) (errOnce g) (err g)
                     ((count g + 1) mod uint_modulus) (valueChan g))
            (gos m ++ [Spawned f]).

(** Goroutine [j] takes its next step on its own; in [Sending] it stays
    blocked until [Wait] receives from it. *)
Definition step (j : nat) (m : machine) : machine :=
  match gos m !! j with
  | Some (Spawned f) =>
      let '(v, e) := f (ctx (grp m)) in
      mkMachine (grp m) (<[j := Returned v e]> (gos m))
  | Some (Returned v (Some e)) =>
      mkMachine (errOnce_Do e (grp m)) (<[j := Sending v]> (gos m))
  | Some (Returned v None) =>
      mkMachine (grp m) (<[j := Sending v]> (gos m))
  | Some (Sending _) | Some Exited | None => m
  end.

(** What the caller and the scheduler do before [Wait] is called. *)
Inductive action : Type :=
| DoGo (f : func V E)
| Sched (j : nat).

Definition act (a : action) (m : machine) : machine :=
  match a with
  | DoGo f => Go f m
  | Sched j => step j m
  end.

Definition exec (acts : list action) (m : machine) : machine :=
  foldl (λ m a, act a m) m acts.

(** The functions submitted by a list of actions, in submission order. *)
Definition submitted (acts : list action) : list (func V E) :=
  omap (λ a, match a with DoGo f => Some f | Sched _ => None end) acts.

(** [for i := range values { values[i] = <-g.valueChan }] from index [i]
    on, under the schedule: a scheduled goroutine that is blocked in its
    send hands its value to the receive, any other takes its own step. *)
Fixpoint drain (sched : list nat) (i : nat) (vals : list V) (m : machine)
  : outcome (list V * machine) :=
  if decide (i < length vals)%nat then
    match sched with
    | [] => Blocked
    | j :: sched' =>
        match gos m !! j with
        | Some (Sending v) =>
            if valueChan (grp m) then
              drain sched' (S i) (<[i := v]> vals)
                    (mkMachine (grp m) (<[j := Exited]> (gos m)))
            else drain sched' i vals m
        | _ => drain sched' i vals (step j m)
        end
    end
  else Ret (vals, m).

(** [Wait]: [make([]V, g.count)], the receive loop, [g.count = 0],
    [g.cancel()]. *)
Definition Wait (sched : list nat) (m : machine) : outcome (list V * error E * machine) :=
  let vals := replicate (Z.to_nat (count (grp m))) zero in
  match drain sched 0 vals m with
  | Ret (vals', m') =>
      let g := grp m' in
      let g0 := mkGroup (ctx g) (cancel g) (ctx_done g) (errOnce g) (err g) 0 (valueChan g) in
      if cancel g0 then Ret (vals', err g0, mkMachine (do_cancel g0) (gos m'))
      else Panic "invalid memory address or nil pointer dereference"
  | Panic msg => Panic msg
  | Blocked => Blocked
  end.

End DynamicGroup.
Arguments DynamicGroup : clear implicits.
Arguments goroutine : clear implicits.
Arguments machine : clear implicits.
Arguments action : clear implicits.
End Dynamic.

(** * Schedules and what the tasks return *)

(** The turns goroutine [i] gets in a schedule. *)
Definition turns (i : nat) (sched : list nat) : nat := count_occ Nat.eq_dec sched i.

(** Each of the goroutines [0 .. n-1] gets at least [k] turns. *)
Definition fair (k n : nat) (sched : list nat) : bool :=
  forallb (λ i, k <=? turns i sched)%nat (seq 0 n).

Definition is_some {A} (o : option A) : bool :=
  match o with Some _ => true | None => false end.

Section Tasks.
Context {V E : Type}.
Implicit Types (fs : list (func V E)) (sched : list nat) (c : Context).

(** The error task [j] returns, nil also when there is no task [j]. *)
Definition task_error c fs (j : nat) : option E := fs !! j ≫= λ f, (f c).2.

(** [e] is the non-nil error one of the tasks returns. *)
Definition returned_by c fs (e : E) : Prop :=
  ∃ i f, fs !! i = Some f ∧ (f c).2 = Some e.

(** The error the single-fire guard lets through under a schedule: that
    of the failing task whose goroutine is the first to take its second
    turn (the turn that runs [errOnce.Do]). *)
Definition record c fs (acc : list nat * option E) (j : nat) : list nat * option E :=
  (acc.1 ++ [j],
   match acc.2 with
   | Some e => Some e
   | None => if decide (turns j acc.1 = 1%nat) then task_error c fs j else None
   end).

Definition first_error c fs sched : option E :=
  (foldl (record c fs) ([], None) sched).2.

(** What slot [i] of the fixed group of src/grouper.go holds once its
    goroutine has run: the value of a task that returned a nil error,
    else the zero value the slice was made with. *)
Definition slot `{!Zero V} c (f : func V E) : V :=
  match (f c).2 with None => (f c).1 | Some _ => zero end.

(** The value the goroutine of submission [j] sends on the channel. *)
Definition sent `{!Zero V} c fs (j : nat) : V :=
  match fs !! j with Some f => (f c).1 | None => zero end.
End Tasks.

(** * Invariants of the three state machines *)

Module GrouperInv.
Import Grouper.
Section Inv.
Context {V E : Type} `{!Zero V}.
Implicit Types (fs : list (func V E)) (sched : list nat) (st : frame V E) (c : Context).

(** Where a goroutine running [f] stands after [k] turns. *)
Definition stage c (f : func V E) (k : nat) : goroutine V E :=
  match k with
  | 0%nat => Spawned f
  | 1%nat => Returned (f c).1 (f c).2
  | 2%nat => Deferred
  | _ => Exited
  end.

Definition alive (x : goroutine V E) : Z :=
  match x with Exited => 0 | _ => 1 end.

Fixpoint live (gs : list (goroutine V E)) : Z :=
  match gs with [] => 0 | x :: gs' => alive x + live gs' end.

Record Inv c fs sched st : Prop := {
  I_ctx : ctx (grp st) = c;
  I_cancel : cancel (grp st) = true;
  I_funcs : funcs (grp st) = fs;
  I_len_gos : length (gos st) = length fs;
  I_len_values : length (values st) = length fs;
  I_gos : ∀ i f, fs !! i = Some f → gos st !! i = Some (stage c f (turns i sched));
  I_values : ∀ i f, fs !! i = Some f →
      values st !! i = Some (if decide (2 ≤ turns i sched)%nat then slot c f else zero);
  I_wg : wg (grp st) = live (gos st);
  I_err : err (grp st) = first_error c fs sched;
  I_errOnce : errOnce (grp st) = is_some (first_error c fs sched);
  I_ctx_done : ctx_done (grp st) = done_already c || is_some (first_error c fs sched)
}.

(** The group [New] returns for the context [c] already derived, and the
    state in which [Wait] starts on it. *)
Definition init c fs : Group V E :=
  mkGroup c true (done_already c) (Z.of_nat (length fs)) false None fs.

Definition init_frame c fs : frame V E :=
  mkFrame (init c fs) (replicate (length fs) zero) (Spawned <$> fs).
End Inv.
End GrouperInv.

Module Part000Inv.
Import Part000.
Section Inv.
Context {V E : Type} `{!Zero V}.
Implicit Types (fs : list (func V E)) (sched : list nat) (st : frame V E) (c : Context).

(** Where a goroutine running [f] stands after [k] turns. *)
Definition stage c (f : func V E) (k : nat) : goroutine V E :=
  match k with
  | 0%nat => Spawned f
  | 1%nat => Returned (f c).1 (f c).2
  | 2%nat => Storing (f c).1
  | 3%nat => Deferred
  | _ => Exited
  end.

Definition alive (x : goroutine V E) : Z :=
  match x with Exited => 0 | _ => 1 end.

Fixpoint live (gs : list (goroutine V E)) : Z :=
  match gs with [] => 0 | x :: gs' => alive x + live gs' end.

(** The error slot of a group [g0] after a further [Wait] in which the
    guard let [fe] through. *)
Definition err_after (g0 : Group V E) (fe : option E) : option E :=
  if errOnce g0 then err g0 else match fe with Some e => Some e | None => err g0 end.

Record Inv c (g0 : Group V E) sched st : Prop := {
  I_ctx : ctx st = c;
  I_funcs : funcs (grp st) = funcs g0;
  I_len_gos : length (gos st) = length (funcs g0);
  I_len_values : length (values st) = length (funcs g0);
  I_gos : ∀ i f, funcs g0 !! i = Some f → gos st !! i = Some (stage c f (turns i sched));
  I_values : ∀ i f, funcs g0 !! i = Some f →
      values st !! i = Some (if decide (3 ≤ turns i sched)%nat then (f c).1 else zero);
  I_wg : wg (grp st) = wg g0 + live (gos st);
  I_err : err (grp st) = err_after g0 (first_error c (funcs g0) sched);
  I_errOnce : errOnce (grp st) = errOnce g0 || is_some (first_error c (funcs g0) sched);
  I_ctx_done : ctx_done st
               = done_already c || (negb (errOnce g0) && is_some (first_error c (funcs g0) sched))
}.

Definition init_frame c (g0 : Group V E) : frame V E :=
  mkFrame (wg_Add (Z.of_nat (length (funcs g0))) g0) c (done_already c)
          (replicate (length (funcs g0)) zero) (Spawned <$> funcs g0).

(** A group between two calls of [Wait]: nobody is waited for, and the
    error slot is filled exactly when the guard has fired. *)
Definition quiet (g : Group V E) : Prop :=
  wg g = 0 ∧ is_some (err g) = errOnce g.

(** The group as the calls that returned [ws] leave it. *)
Definition last_group (g : Group V E) (ws : list (waited V E)) : Group V E :=
  match last ws with Some w => w_group w | None => g end.
End Inv.
End Part000Inv.

Module DynamicInv.
Import Dynamic.
Section Inv.
Context {V E : Type} `{!Zero V}.
Implicit Types (fs : list (func V E)) (sched : list nat) (m : machine V E) (c : Context).

Definition rank (x : goroutine V E) : nat :=
  match x with Spawned _ => 0 | Returned _ _ => 1 | Sending _ => 2 | Exited => 3 end.

(** The goroutine running [f] at rank [k]. *)
Definition stage c (f : func V E) (k : nat) : goroutine V E :=
  match k with
  | 0%nat => Spawned f
  | 1%nat => Returned (f c).1 (f c).2
  | 2%nat => Sending (f c).1
  | _ => Exited
  end.

(** The error slot against the goroutines: empty while every failing
    task is still before its [errOnce.Do], else the error of one of the
    failing tasks. *)
Definition err_inv c fs m : Prop :=
  (errOnce (grp m) = false ∧ err (grp m) = None ∧ ctx_done (grp m) = done_already c ∧
   ∀ j f e x, fs !! j = Some f → (f c).2 = Some e → gos m !! j = Some x → (rank x < 2)%nat)
  ∨ (errOnce (grp m) = true ∧ ctx_done (grp m) = true ∧
     ∃ j f e, fs !! j = Some f ∧ (f c).2 = Some e ∧ err (grp m) = Some e).

Record Inv c fs m : Prop := {
  D_ctx : ctx (grp m) = c;
  D_cancel : cancel (grp m) = true;
  D_chan : valueChan (grp m) = true;
  D_len : length (gos m) = length fs;
  D_gos : ∀ j f, fs !! j = Some f → ∃ x, gos m !! j = Some x ∧ x = stage c f (rank x);
  D_err : err_inv c fs m
}.

(** The receive loop of [Wait] at index [i]: [order] lists the goroutines
    it has received from so far, first to last. *)
Record DrainInv c fs m (i : nat) (vals : list V) (order : list nat) : Prop := {
  R_inv : Inv c fs m;
  R_nodup : NoDup order;
  R_exited : ∀ j, j ∈ order ↔ gos m !! j = Some Exited;
  R_index : i = length order;
  R_bound : (i ≤ length vals)%nat;
  R_vals : ∀ p j, order !! p = Some j → ∃ f, fs !! j = Some f ∧ vals !! p = Some (f c).1
}.


(** What [Wait] can report as error, given what the tasks return. *)
Definition err_result c fs (e : option E) : Prop :=
  (e = None ∧ ∀ j f, fs !! j = Some f → (f c).2 = None)
  ∨ (∃ e', e = Some e' ∧ returned_by c fs e').
End Inv.
End DynamicInv.

(** The slices of the two fixed groups side by side: one slot per task;
    where the task returned a nil error both hold its value; where it
    returned a non-nil error [vals] (src/grouper.go) holds the zero value
    and [vals'] (src/unnamed/part_000) the value the task returned. *)
Definition values_agree {V E : Type} `{!Zero V} (c : Context) (fs : list (func V E))
    (vals vals' : list V) : Prop :=
  length vals = length fs ∧ length vals' = length fs ∧
  ∀ i f, fs !! i = Some f →
    vals' !! i = Some (f c).1 ∧
    vals !! i = Some (match (f c).2 with None => (f c).1 | Some _ => zero end).

(** * A call of [Wait] on a group already waited on *)

Module GrouperAgain.
Import Grouper.
Section Again.
Context {V E : Type} `{!Zero V}.
Implicit Types (fs : list (func V E)) (sched : list nat) (st : frame V E) (c : Context).

(** The state in which [Wait] starts on any group [g]. *)
Definition start (g : Group V E) : frame V E :=
  mkFrame g (replicate (length (funcs g)) zero) (Spawned <$> funcs g).

(** A run of [Wait] on a group whose counter is already at zero, as long
    as no goroutine has reached [g.wg.Done()]: the counter stays at zero
    and every goroutine is where its turns have taken it. *)
Record Rerun (g : Group V E) sched st : Prop := {
  A_wg : wg (grp st) = 0;
  A_ctx : ctx (grp st) = ctx g;
  A_cancel : cancel (grp st) = cancel g;
  A_len : length (gos st) = length (funcs g);
  A_gos : ∀ i f, funcs g !! i = Some f →
      gos st !! i = Some (GrouperInv.stage (ctx g) f (turns i sched)) ∧
      (turns i sched < 3)%nat
}.
End Again.
End GrouperAgain.

(** * src/dynamic.go: rounds of [Go] and [Wait] on one group *)

Module DynamicRounds.
Import Dynamic.
Section Rounds.
Context {V E : Type} `{!Zero V}.
Implicit Types (fs : list (func V E)) (sched : list nat) (m : machine V E) (c : Context).

(** The group used again and again, as its test does: in each round the
    caller and the scheduler act, then [Wait] is called under a schedule;
    the results of the calls are listed in order. *)
Fixpoint rounds (rs : list (list (action V E) * list nat)) (m : machine V E)
  : outcome (list (list V * error E) * machine V E) :=
  match rs with
  | [] => Ret ([], m)
  | (acts, sched) :: rs' =>
      match Wait sched (exec acts m) with
      | Ret (vals, e, m') =>
          match rounds rs' m' with
          | Ret (res, m'') => Ret ((vals, e) :: res, m'')
          | Panic msg => Panic msg
          | Blocked => Blocked
          end
      | Panic msg => Panic msg
      | Blocked => Blocked
      end
  end.

(** The functions submitted over some rounds, in submission order. *)
Definition submitted_all (rs : list (list (action V E) * list nat)) : list (func V E) :=
  concat ((λ r, submitted r.1) <$> rs).

(** The schedule of each round gives three turns to every goroutine
    started in that round, [n0] being the number of those started before
    the first of these rounds. *)
Fixpoint rounds_fair (n0 : nat) (rs : list (list (action V E) * list nat)) : bool :=
  match rs with
  | [] => true
  | (acts, sched) :: rs' =>
      let k := length (submitted acts) in
      forallb (λ i, 3 <=? turns i sched)%nat (seq n0 k) && rounds_fair (n0 + k) rs'
  end.

(** No round submits more than a [uint] counts. *)
Definition rounds_counted (rs : list (list (action V E) * list nat)) : Prop :=
  Forall (λ r, Z.of_nat (length (submitted r.1)) < uint_modulus) rs.

(** Every task of [fs] returns a nil error. *)
Definition all_succeed c fs : Prop := ∀ f, f ∈ fs → (f c).2 = None.

(** The error [e] is in the error slot, put there by the guard. *)
Definition recorded (e : E) m : Prop :=
  errOnce (grp m) = true ∧ err (grp m) = Some e.

(** The error slot over the life of the group: empty while every failing
    task is still before its [errOnce.Do], else the error of one of the
    failing tasks.  (The done flag is left out: [Wait] sets it too.) *)
Definition err_life c fs m : Prop :=
  (errOnce (grp m) = false ∧ err (grp m) = None ∧
   ∀ j f e x, fs !! j = Some f → (f c).2 = Some e → gos m !! j = Some x →
              (DynamicInv.rank x < 2)%nat)
  ∨ (errOnce (grp m) = true ∧
     ∃ j f e, fs !! j = Some f ∧ (f c).2 = Some e ∧ err (grp m) = Some e).

(** What holds of the group and its goroutines whatever the round, [fs]
    being all the functions submitted so far. *)
Record Life c fs m : Prop := {
  L_ctx : ctx (grp m) = c;
  L_cancel : cancel (grp m) = true;
  L_chan : valueChan (grp m) = true;
  L_len : length (gos m) = length fs;
  L_gos : ∀ j f, fs !! j = Some f →
      ∃ x, gos m !! j = Some x ∧ x = DynamicInv.stage c f (DynamicInv.rank x);
  L_err : err_life c fs m
}.

(** A group between two rounds: nothing is counted and every goroutine
    started so far has exited. *)
Record Quiet c fs m : Prop := {
  Q_inv : Life c fs m;
  Q_count : count (grp m) = 0;
  Q_exited : ∀ j x, gos m !! j = Some x → x = Exited
}.

(** The receive loop of [Wait] at index [i] in a later round: the first
    [n0] goroutines exited in earlier rounds, [order] lists those
    received from in this one. *)
Record DrainFrom c fs (n0 : nat) m (i : nat) (vals : list V) (order : list nat) : Prop := {
  F_inv : Life c fs m;
  F_nodup : NoDup order;
  F_old : ∀ j, (j < n0)%nat → gos m !! j = Some Exited;
  F_new : ∀ j, j ∈ order ↔ (n0 ≤ j)%nat ∧ gos m !! j = Some Exited;
  F_index : i = length order;
  F_bound : (i ≤ length vals)%nat;
  F_vals : ∀ p j, order !! p = Some j → ∃ f, fs !! j = Some f ∧ vals !! p = Some (f c).1
}.
End Rounds.
End DynamicRounds.

(** * Example tasks *)

Definition succeeding (v : nat) : func nat nat := λ _, (v, None).
Definition failing (v e : nat) : func nat nat := λ _, (v, Some e).

(** A task whose outcome depends on the context it is called with. *)
Definition moody : func nat nat :=
  λ c, match c with
       | WithCancel Background => (5%nat, Some 7%nat)
       | _ => (6%nat, Some 8%nat)
       end.

(** Two rounds on a dynamic group, each with its schedule: the first
    submits a succeeding and a failing task, the second a task failing
    with another error and a succeeding one. *)
Definition two_rounds : list (list (Dynamic.action nat nat) * list nat) :=
  [([Dynamic.DoGo (succeeding 1); Dynamic.Sched 0%nat; Dynamic.DoGo (failing 5 7)],
    [0; 1; 0; 1; 0; 1]%nat);
   ([Dynamic.DoGo (failing 2 9); Dynamic.DoGo (succeeding 4)],
    [2; 3; 2; 3; 2; 3]%nat)].

(** * Facts about schedules *)

Lemma turns_app i s1 s2 : turns i (s1 ++ s2) = (turns i s1 + turns i s2)%nat.
Proof. apply count_occ_app. Qed.

Lemma turns_snoc_eq i s : turns i (s ++ [i]) = S (turns i s).
Proof. rewrite turns_app. unfold turns at 2. simpl. destruct (Nat.eq_dec i i); [lia|done]. Qed.

Lemma turns_snoc_ne i j s : i ≠ j → turns i (s ++ [j]) = turns i s.
Proof. intros. rewrite turns_app. unfold turns at 2. simpl. destruct (Nat.eq_dec j i); [congruence|lia]. Qed.

Lemma fair_spec k n sched :
  fair k n sched = true ↔ ∀ i, (i < n)%nat → (k ≤ turns i sched)%nat.
Proof.
  unfold fair. rewrite forallb_forall. split.
  - intros H i Hi. apply Nat.leb_le, H, in_seq. lia.
  - intros H i Hi%in_seq. apply Nat.leb_le, H. lia.
Qed.

Lemma fair_false k n sched :
  fair k n sched = false ↔ ∃ i, (i < n)%nat ∧ (turns i sched < k)%nat.
Proof.
  split.
  - intros H. apply not_true_iff_false in H. rewrite fair_spec in H.
    induction n as [|n IH].
    + exfalso. apply H. intros i Hi. lia.
    + destruct (decide (turns n sched < k)%nat) as [Hn|Hn]; [exists n; lia|].
      destruct IH as (i & Hi & Hlt).
      * intros Hall. apply H. intros i Hi.
        destruct (decide (i = n)) as [->|]; [lia|]. apply Hall. lia.
      * exists i. lia.
  - intros (i & Hi & Hlt). apply not_true_iff_false. rewrite fair_spec.
    intros H. specialize (H i Hi). lia.
Qed.

Lemma turns_cons_eq j sched : turns j (j :: sched) = S (turns j sched).
Proof. unfold turns. by rewrite count_occ_cons_eq. Qed.

Lemma turns_cons_ne i j sched : i ≠ j → turns i (j :: sched) = turns i sched.
Proof. intros. unfold turns. by rewrite count_occ_cons_neq. Qed.

Lemma fair_mono k k' n sched :
  (k ≤ k')%nat → fair k' n sched = true → fair k n sched = true.
Proof.
  rewrite !fair_spec. intros Hk H i Hi. specialize (H i Hi). lia.
Qed.

Lemma turns_seq i a n :
  turns i (seq a n) = if decide (a ≤ i < a + n)%nat then 1%nat else 0%nat.
Proof.
  revert a. induction n as [|n IH]; intros a.
  - simpl. case_decide; [lia|done].
  - change (seq a (S n)) with (a :: seq (S a) n).
    destruct (decide (i = a)) as [->|Hne].
    + rewrite turns_cons_eq, IH. repeat case_decide; lia.
    + rewrite turns_cons_ne, IH by done. repeat case_decide; lia.
Qed.

(** One more turn for everyone. *)
Lemma fair_one_more k n sched :
  fair k n sched = true → fair (S k) n (sched ++ seq 0 n) = true.
Proof.
  rewrite !fair_spec. intros H i Hi. specialize (H i Hi).
  rewrite turns_app, turns_seq. case_decide; lia.
Qed.

Section FirstErrorFacts.
Context {V E : Type}.
Implicit Types (fs : list (func V E)) (sched : list nat) (c : Context).

Lemma record_seen c fs sched : (foldl (record c fs) ([], None) sched).1 = sched.
Proof.
  induction sched as [|j sched IH] using rev_ind; [done|].
  rewrite foldl_snoc. simpl. by rewrite IH.
Qed.

Lemma first_error_snoc c fs sched j :
  first_error c fs (sched ++ [j]) =
  match first_error c fs sched with
  | Some e => Some e
  | None => if decide (turns j sched = 1%nat) then task_error c fs j else None
  end.
Proof. unfold first_error. rewrite foldl_snoc. simpl. by rewrite record_seen. Qed.

Lemma first_error_snoc_other c fs sched j :
  turns j sched ≠ 1%nat ∨ task_error c fs j = None →
  first_error c fs (sched ++ [j]) = first_error c fs sched.
Proof.
  intros H. rewrite first_error_snoc. destruct (first_error c fs sched); [done|].
  case_decide; [|done]. by destruct H.
Qed.

Lemma first_error_Some c fs sched e :
  first_error c fs sched = Some e →
  ∃ i f, fs !! i = Some f ∧ (f c).2 = Some e ∧ (2 ≤ turns i sched)%nat.
Proof.
  induction sched as [|j sched IH] using rev_ind; [done|].
  rewrite first_error_snoc. destruct (first_error c fs sched) as [e'|].
  - intros [= ->]. destruct IH as (i & f & ? & ? & ?); [done|].
    exists i, f. rewrite turns_app. repeat split; [done..|lia].
  - case_decide as Ht; [|done]. unfold task_error. intros Hj.
    destruct (fs !! j) as [f|] eqn:Hf; [|done]. simpl in Hj.
    exists j, f. rewrite turns_snoc_eq. repeat split; [done..|lia].
Qed.

Lemma first_error_None c fs sched i f e :
  first_error c fs sched = None → fs !! i = Some f → (f c).2 = Some e →
  (turns i sched < 2)%nat.
Proof.
  intros Hn Hi Hf. induction sched as [|j sched IH] using rev_ind; [simpl; lia|].
  rewrite first_error_snoc in Hn. destruct (first_error c fs sched) as [e'|]; [done|].
  specialize (IH eq_refl). destruct (decide (i = j)) as [->|Hne].
  - rewrite turns_snoc_eq. case_decide as Ht.
    + unfold task_error in Hn. rewrite Hi in Hn. simpl in Hn. congruence.
    + lia.
  - by rewrite turns_snoc_ne.
Qed.

Lemma first_error_fair c fs sched e :
  fair 2 (length fs) sched = true → returned_by c fs e →
  ∃ e', first_error c fs sched = Some e' ∧ returned_by c fs e'.
Proof.
  intros Hfair (i & f & Hi & Hf). rewrite fair_spec in Hfair.
  destruct (first_error c fs sched) as [e'|] eqn:Hfe.
  - exists e'. split; [done|]. apply first_error_Some in Hfe as (i' & f' & ? & ? & ?).
    by exists i', f'.
  - pose proof (first_error_None _ _ _ _ _ _ Hfe Hi Hf).
    apply lookup_lt_Some in Hi. specialize (Hfair _ Hi). lia.
Qed.

Lemma first_error_no_failure c fs sched :
  (∀ i f, fs !! i = Some f → (f c).2 = None) → first_error c fs sched = None.
Proof.
  intros Hok. destruct (first_error c fs sched) as [e|] eqn:Hfe; [|done].
  apply first_error_Some in Hfe as (i & f & Hi & Hf & _).
  rewrite (Hok _ _ Hi) in Hf. done.
Qed.

(** Once every goroutine has had its second turn the guard is settled. *)
Lemma first_error_settled c fs sched more :
  fair 2 (length fs) sched = true →
  first_error c fs (sched ++ more) = first_error c fs sched.
Proof.
  intros Hfair. rewrite fair_spec in Hfair.
  induction more as [|j more IH] using rev_ind; [by rewrite app_nil_r|].
  rewrite app_assoc, first_error_snoc_other; [done|].
  destruct (decide (j < length fs)%nat) as [Hj|Hj].
  - left. specialize (Hfair _ Hj). rewrite turns_app. lia.
  - right. unfold task_error. rewrite lookup_ge_None_2; [done|lia].
Qed.
End FirstErrorFacts.

(** * src/grouper.go: the run of [Wait] *)

Module GrouperFacts.
Import Grouper GrouperInv.
Section Facts.
Context {V E : Type} `{!Zero V}.
Implicit Types (fs : list (func V E)) (sched : list nat) (st : frame V E) (c : Context).

Lemma grouper_run_app sched1 sched2 st :
  run (sched1 ++ sched2) st =
  match run sched1 st with Ret st' => run sched2 st' | Panic m => Panic m | Blocked => Blocked end.
Proof.
  revert st. induction sched1 as [|i s IH]; intros st; simpl; [done|].
  destruct (step i st); auto.
Qed.

Lemma grouper_live_nonneg (gs : list (goroutine V E)) : 0 ≤ live gs.
Proof. induction gs as [|[] gs IH]; simpl; lia. Qed.

Lemma grouper_live_insert (gs : list (goroutine V E)) i x y :
  gs !! i = Some y → live (<[i := x]> gs) = live gs - alive y + alive x.
Proof.
  revert i. induction gs as [|z gs IH]; intros [|i] Hi; simplify_eq/=; [lia|].
  rewrite (IH _ Hi). lia.
Qed.

Lemma grouper_live_pos (gs : list (goroutine V E)) i y :
  gs !! i = Some y → alive y = 1 → 0 < live gs.
Proof.
  revert i. induction gs as [|z gs IH]; intros [|i] Hi Hy; simplify_eq/=.
  - pose proof (grouper_live_nonneg gs). lia.
  - specialize (IH _ Hi Hy). destruct z; simpl; lia.
Qed.

Lemma grouper_live_zero (gs : list (goroutine V E)) :
  (∀ i y, gs !! i = Some y → y = Exited) → live gs = 0.
Proof.
  induction gs as [|z gs IH]; intros H; simpl; [done|].
  rewrite (H 0%nat z eq_refl). simpl. apply IH. intros i y Hi. apply (H (S i) y Hi).
Qed.

Lemma grouper_live_spawned fs : live (Spawned <$> fs) = Z.of_nat (length fs).
Proof. induction fs as [|f fs IH]; csimpl; [done|]. rewrite IH. lia. Qed.

Lemma grouper_Inv_init c fs : Inv c fs [] (init_frame c fs).
Proof.
  split; simpl; try done.
  - by rewrite length_fmap.
  - by rewrite length_replicate.
  - intros i f Hi. by rewrite list_lookup_fmap, Hi.
  - intros i f Hi. rewrite lookup_replicate_2; [done|]. by eapply lookup_lt_Some.
  - by rewrite grouper_live_spawned.
  - by rewrite orb_false_r.
Qed.

Lemma grouper_step_Inv c fs sched st j :
  Inv c fs sched st → ∃ st', step j st = Ret st' ∧ Inv c fs (sched ++ [j]) st'.
Proof.
  intros HI. destruct (fs !! j) as [f|] eqn:Hj.
  2:{ (* no such goroutine *)
    assert (gos st !! j = None) as Hg.
    { apply lookup_ge_None. rewrite (I_len_gos _ _ _ _ HI). by apply lookup_ge_None. }
    exists st. unfold step. rewrite Hg. split; [done|].
    assert (∀ i f, fs !! i = Some f → turns i (sched ++ [j]) = turns i sched) as Ht.
    { intros i f Hi. apply turns_snoc_ne. intros ->. congruence. }
    assert (task_error c fs j = None) as Hte by (unfold task_error; by rewrite Hj).
    destruct HI. split; try done.
    - intros i f Hi. rewrite (Ht _ _ Hi). auto.
    - intros i f Hi. rewrite (Ht _ _ Hi). auto.
    - rewrite first_error_snoc_other; auto.
    - rewrite first_error_snoc_other; auto.
    - rewrite first_error_snoc_other; auto. }
  pose proof (I_gos _ _ _ _ HI j f Hj) as Hg.
  pose proof (I_values _ _ _ _ HI j f Hj) as Hv.
  assert (j < length (gos st))%nat as Hlt by (by eapply lookup_lt_Some).
  assert (j < length (values st))%nat as Hltv by (by eapply lookup_lt_Some).
  assert (task_error c fs j = (f c).2) as Hte by (unfold task_error; by rewrite Hj).
  unfold step. rewrite Hg.
  assert (∀ x, ∀ i f', fs !! i = Some f' →
            x = stage c f (S (turns j sched)) →
            <[j := x]> (gos st) !! i = Some (stage c f' (turns i (sched ++ [j])))) as Hgos.
  { intros x i f' Hi ->. destruct (decide (i = j)) as [->|Hne].
    - simplify_eq. rewrite turns_snoc_eq. by apply list_lookup_insert_eq.
    - rewrite list_lookup_insert_ne by done. rewrite turns_snoc_ne by done.
      by apply (I_gos _ _ _ _ HI). }
  assert (turns j sched ≠ 1%nat → ∀ i f', fs !! i = Some f' →
            values st !! i =
            Some (if decide (2 ≤ turns i (sched ++ [j]))%nat then slot c f' else zero)) as Hvals.
  { intros Hk i f' Hi. rewrite (I_values _ _ _ _ HI _ _ Hi).
    destruct (decide (i = j)) as [->|Hne].
    - rewrite turns_snoc_eq. by repeat case_decide; try lia.
    - by rewrite turns_snoc_ne. }
  destruct (turns j sched) as [|[|[|k]]] eqn:Hk; simpl.
  - (* the call of f *)
    rewrite (I_ctx _ _ _ _ HI). destruct (f c) as [v e] eqn:Hf.
    eexists. split; [done|]. destruct HI. split; simpl; try done.
    + by rewrite length_insert.
    + intros i f' Hi. apply Hgos; [done|]. simpl. by rewrite Hf.
    + by apply Hvals.
    + erewrite grouper_live_insert by done. simpl. lia.
    + rewrite first_error_snoc_other; [done|left; lia].
    + rewrite first_error_snoc_other; [done|left; lia].
    + rewrite first_error_snoc_other; [done|left; lia].
  - (* the branch on err *)
    destruct (f c).2 as [e|] eqn:Hf.
    + (* errOnce.Do *)
      assert (first_error c fs (sched ++ [j]) = err (errOnce_Do e (grp st)) ∧
              is_some (first_error c fs (sched ++ [j])) = errOnce (errOnce_Do e (grp st)) ∧
              done_already c || is_some (first_error c fs (sched ++ [j]))
              = ctx_done (errOnce_Do e (grp st))) as (He1 & He2 & He3).
      { unfold is_some, errOnce_Do. rewrite first_error_snoc, Hk, Hte.
        pose proof (I_errOnce _ _ _ _ HI) as Ho. pose proof (I_err _ _ _ _ HI) as He.
        pose proof (I_ctx_done _ _ _ _ HI) as Hd. rewrite (I_cancel _ _ _ _ HI).
        unfold is_some in *. rewrite decide_True by done.
        destruct (first_error c fs sched); rewrite Ho; simpl;
          rewrite ?orb_true_r in *; repeat split; congruence. }
      eexists. split; [done|]. destruct HI. split; simpl; try done.
      * unfold errOnce_Do. by destruct (errOnce (grp st)).
      * unfold errOnce_Do. by destruct (errOnce (grp st)).
      * unfold errOnce_Do. by destruct (errOnce (grp st)).
      * by rewrite length_insert.
      * intros i f' Hi. by apply Hgos.
      * intros i f' Hi. rewrite (I_values0 _ _ Hi). destruct (decide (i = j)) as [->|Hne].
        -- simplify_eq. rewrite turns_snoc_eq, Hk.
           repeat case_decide; try lia. unfold slot. by rewrite Hf.
        -- by rewrite turns_snoc_ne.
      * erewrite grouper_live_insert by done. unfold errOnce_Do.
        destruct (errOnce (grp st)); simpl; lia.
    + (* values[i] = v *)
      eexists. split; [done|]. destruct HI. split; simpl; try done.
      * by rewrite length_insert.
      * by rewrite length_insert.
      * intros i f' Hi. by apply Hgos.
      * intros i f' Hi. destruct (decide (i = j)) as [->|Hne].
        -- simplify_eq. rewrite turns_snoc_eq, Hk. rewrite list_lookup_insert_eq by done.
           repeat case_decide; try lia. unfold slot. by rewrite Hf.
        -- rewrite list_lookup_insert_ne by done. rewrite turns_snoc_ne by done. auto.
      * erewrite grouper_live_insert by done. simpl. lia.
      * rewrite first_error_snoc_other; [done|right; congruence].
      * rewrite first_error_snoc_other; [done|right; congruence].
      * rewrite first_error_snoc_other; [done|right; congruence].
  - (* wg.Done *)
    unfold wg_Done. pose proof (grouper_live_pos _ _ _ Hg eq_refl) as Hpos.
    rewrite <- (I_wg _ _ _ _ HI) in Hpos.
    destruct (decide (wg (grp st) - 1 < 0)) as [|_]; [lia|].
    eexists. split; [done|]. destruct HI. split; simpl; try done.
    + by rewrite length_insert.
    + intros i f' Hi. by apply Hgos.
    + by apply Hvals.
    + erewrite grouper_live_insert by done. simpl. lia.
    + rewrite first_error_snoc_other; [done|left; lia].
    + rewrite first_error_snoc_other; [done|left; lia].
    + rewrite first_error_snoc_other; [done|left; lia].
  - (* already exited *)
    exists st. split; [done|]. destruct HI. split; try done.
    + intros i f' Hi. rewrite <- (list_insert_id (gos st) j Exited) by done. by apply Hgos.
    + by apply Hvals.
    + rewrite first_error_snoc_other; [done|left; lia].
    + rewrite first_error_snoc_other; [done|left; lia].
    + rewrite first_error_snoc_other; [done|left; lia].
Qed.

Lemma grouper_run_Inv c fs sched :
  ∃ st, run sched (init_frame c fs) = Ret st ∧ Inv c fs sched st.
Proof.
  induction sched as [|j sched IH] using rev_ind.
  - exists (init_frame c fs). split; [done|]. apply grouper_Inv_init.
  - destruct IH as (st & Hrun & HI). rewrite grouper_run_app, Hrun. simpl.
    destruct (grouper_step_Inv _ _ _ _ j HI) as (st' & Hstep & HI'). rewrite Hstep. eauto.
Qed.

Lemma grouper_New_init c fs :
  fs ≠ [] → New c fs = Ret (init (WithCancel c) fs, WithCancel c).
Proof.
  intros Hne. unfold New. case_decide as Hl; [|done].
  by apply nil_length_inv in Hl.
Qed.

(** [Wait] as a function of the schedule, on the group [New] returns. *)
Lemma grouper_Wait_exact c fs sched :
  Wait sched (init c fs) =
  if fair 3 (length fs) sched then
    let fe := first_error c fs sched in
    Ret (slot c <$> fs, fe, mkGroup c true true 0 (is_some fe) fe fs)
  else Blocked.
Proof.
  destruct (grouper_run_Inv c fs sched) as (st & Hrun & HI).
  unfold Wait. simpl. fold (init_frame c fs). rewrite Hrun.
  destruct (fair 3 (length fs) sched) eqn:Hfair.
  - rewrite fair_spec in Hfair.
    assert (∀ i f, fs !! i = Some f → (3 ≤ turns i sched)%nat) as Ht.
    { intros i f Hi%lookup_lt_Some. auto. }
    assert (wg (grp st) = 0) as Hwg.
    { rewrite (I_wg _ _ _ _ HI). apply grouper_live_zero. intros i y Hy.
      destruct (lookup_lt_is_Some_2 fs i) as [f Hf].
      { rewrite <- (I_len_gos _ _ _ _ HI). by eapply lookup_lt_Some. }
      rewrite (I_gos _ _ _ _ HI _ _ Hf) in Hy. specialize (Ht _ _ Hf).
      destruct (turns i sched) as [|[|[|k]]]; simplify_eq/=; try lia. done. }
    case_decide; [|done]. rewrite (I_cancel _ _ _ _ HI).
    assert (values st = slot c <$> fs) as ->.
    { apply list_eq. intros i. rewrite list_lookup_fmap.
      destruct (fs !! i) as [f|] eqn:Hf; simpl.
      - rewrite (I_values _ _ _ _ HI _ _ Hf). specialize (Ht _ _ Hf). case_decide; [done|lia].
      - apply lookup_ge_None. rewrite (I_len_values _ _ _ _ HI). by apply lookup_ge_None. }
    rewrite (I_err _ _ _ _ HI). do 2 f_equal. unfold do_cancel.
    destruct HI. destruct (grp st); simpl in *. congruence.
  - apply fair_false in Hfair as (i & Hi & Hlt).
    destruct (lookup_lt_is_Some_2 fs i Hi) as [f Hf].
    pose proof (I_gos _ _ _ _ HI _ _ Hf) as Hg.
    assert (0 < wg (grp st)).
    { rewrite (I_wg _ _ _ _ HI). eapply grouper_live_pos; [done|].
      destruct (turns i sched) as [|[|[|k]]]; simpl; try done. lia. }
    case_decide; [lia|done].
Qed.

End Facts.
End GrouperFacts.

(** * src/unnamed/part_000: the run of [Wait] *)

Module Part000Facts.
Import Part000 Part000Inv.
Section Facts.
Context {V E : Type} `{!Zero V}.
Implicit Types (fs : list (func V E)) (sched : list nat) (st : frame V E) (c : Context).

Lemma part000_run_app sched1 sched2 st :
  run (sched1 ++ sched2) st =
  match run sched1 st with Ret st' => run sched2 st' | Panic m => Panic m | Blocked => Blocked end.
Proof.
  revert st. induction sched1 as [|i s IH]; intros st; simpl; [done|].
  destruct (step i st); auto.
Qed.

Lemma part000_live_nonneg (gs : list (goroutine V E)) : 0 ≤ live gs.
Proof. induction gs as [|[] gs IH]; simpl; lia. Qed.

Lemma part000_live_insert (gs : list (goroutine V E)) i x y :
  gs !! i = Some y → live (<[i := x]> gs) = live gs - alive y + alive x.
Proof.
  revert i. induction gs as [|z gs IH]; intros [|i] Hi; simplify_eq/=; [lia|].
  rewrite (IH _ Hi). lia.
Qed.

Lemma part000_live_pos (gs : list (goroutine V E)) i y :
  gs !! i = Some y → alive y = 1 → 0 < live gs.
Proof.
  revert i. induction gs as [|z gs IH]; intros [|i] Hi Hy; simplify_eq/=.
  - pose proof (part000_live_nonneg gs). lia.
  - specialize (IH _ Hi Hy). destruct z; simpl; lia.
Qed.

Lemma part000_live_zero (gs : list (goroutine V E)) :
  (∀ i y, gs !! i = Some y → y = Exited) → live gs = 0.
Proof.
  induction gs as [|z gs IH]; intros H; simpl; [done|].
  rewrite (H 0%nat z eq_refl). simpl. apply IH. intros i y Hi. apply (H (S i) y Hi).
Qed.

Lemma part000_live_spawned fs : live (Spawned <$> fs) = Z.of_nat (length fs).
Proof. induction fs as [|f fs IH]; csimpl; [done|]. rewrite IH. lia. Qed.

Lemma part000_Inv_init c (g0 : Group V E) : Inv c g0 [] (init_frame c g0).
Proof.
  split; simpl; try done.
  - by rewrite length_fmap.
  - by rewrite length_replicate.
  - intros i f Hi. by rewrite list_lookup_fmap, Hi.
  - intros i f Hi. rewrite lookup_replicate_2; [done|]. by eapply lookup_lt_Some.
  - by rewrite part000_live_spawned.
  - unfold err_after. simpl. by destruct (errOnce g0).
  - by rewrite orb_false_r.
  - by rewrite andb_false_r, orb_false_r.
Qed.

Lemma part000_step_Inv c (g0 : Group V E) sched st j :
  0 ≤ wg g0 →
  Inv c g0 sched st → ∃ st', step j st = Ret st' ∧ Inv c g0 (sched ++ [j]) st'.
Proof.
  intros Hwg0 HI. set (fs := funcs g0) in *. destruct (fs !! j) as [f|] eqn:Hj.
  2:{ (* no such goroutine *)
    assert (gos st !! j = None) as Hg.
    { apply lookup_ge_None. rewrite (I_len_gos _ _ _ _ HI). by apply lookup_ge_None. }
    exists st. unfold step. rewrite Hg. split; [done|].
    assert (∀ i f, fs !! i = Some f → turns i (sched ++ [j]) = turns i sched) as Ht.
    { intros i f Hi. apply turns_snoc_ne. intros ->. congruence. }
    assert (task_error c fs j = None) as Hte by (unfold task_error; by rewrite Hj).
    destruct HI. split; try done.
    - intros i f Hi. rewrite (Ht _ _ Hi). auto.
    - intros i f Hi. rewrite (Ht _ _ Hi). auto.
    - fold fs. rewrite first_error_snoc_other; auto.
    - fold fs. rewrite first_error_snoc_other; auto.
    - fold fs. rewrite first_error_snoc_other; auto. }
  pose proof (I_gos _ _ _ _ HI j f Hj) as Hg.
  pose proof (I_values _ _ _ _ HI j f Hj) as Hv.
  assert (j < length (gos st))%nat as Hlt by (by eapply lookup_lt_Some).
  assert (j < length (values st))%nat as Hltv by (by eapply lookup_lt_Some).
  assert (task_error c fs j = (f c).2) as Hte by (unfold task_error; by rewrite Hj).
  unfold step. rewrite Hg.
  assert (∀ x, ∀ i f', fs !! i = Some f' →
            x = stage c f (S (turns j sched)) →
            <[j := x]> (gos st) !! i = Some (stage c f' (turns i (sched ++ [j])))) as Hgos.
  { intros x i f' Hi ->. destruct (decide (i = j)) as [->|Hne].
    - simplify_eq. rewrite turns_snoc_eq. by apply list_lookup_insert_eq.
    - rewrite list_lookup_insert_ne by done. rewrite turns_snoc_ne by done.
      by apply (I_gos _ _ _ _ HI). }
  assert (turns j sched ≠ 2%nat → ∀ i f', fs !! i = Some f' →
            values st !! i =
            Some (if decide (3 ≤ turns i (sched ++ [j]))%nat then (f' c).1 else zero)) as Hvals.
  { intros Hk i f' Hi. rewrite (I_values _ _ _ _ HI _ _ Hi).
    destruct (decide (i = j)) as [->|Hne].
    - rewrite turns_snoc_eq. by repeat case_decide; try lia.
    - by rewrite turns_snoc_ne. }
  assert (turns j sched ≠ 1%nat ∨ (f c).2 = None →
          first_error c fs (sched ++ [j]) = first_error c fs sched) as Hsame.
  { intros H. apply first_error_snoc_other. by rewrite Hte. }
  destruct (turns j sched) as [|[|[|[|k]]]] eqn:Hk; simpl.
  - (* the call of f *)
    rewrite (I_ctx _ _ _ _ HI). destruct (f c) as [v e] eqn:Hf.
    eexists. split; [done|]. destruct HI. split; simpl; try done.
    + by rewrite length_insert.
    + intros i f' Hi. apply Hgos; [done|]. simpl. by rewrite Hf.
    + by apply Hvals.
    + erewrite part000_live_insert by done. simpl. lia.
    + fold fs. rewrite Hsame; [done|left; lia].
    + fold fs. rewrite Hsame; [done|left; lia].
    + fold fs. rewrite Hsame; [done|left; lia].
  - (* the branch on err *)
    destruct (f c).2 as [e|] eqn:Hf.
    + (* errOnce.Do *)
      assert (first_error c fs (sched ++ [j]) =
              match first_error c fs sched with Some e' => Some e' | None => Some e end) as Hfe.
      { rewrite first_error_snoc, Hk, Hte. by rewrite decide_True. }
      pose proof (I_errOnce _ _ _ _ HI) as Ho. pose proof (I_err _ _ _ _ HI) as He.
      pose proof (I_ctx_done _ _ _ _ HI) as Hd. fold fs in Ho, He, Hd.
      eexists. split; [done|]. destruct HI. split; simpl; try done.
      * unfold errOnce_Do. by destruct (errOnce (grp st)).
      * unfold errOnce_Do. by destruct (errOnce (grp st)).
      * unfold errOnce_Do. destruct (errOnce (grp st)); simpl; by rewrite length_insert.
      * unfold errOnce_Do. by destruct (errOnce (grp st)).
      * intros i f' Hi. unfold errOnce_Do. destruct (errOnce (grp st)); simpl; by apply Hgos.
      * intros i f' Hi. unfold errOnce_Do.
        assert (values st !! i =
                Some (if decide (3 ≤ turns i (sched ++ [j]))%nat then (f' c).1 else zero)).
        { apply Hvals; [lia|done]. }
        by destruct (errOnce (grp st)).
      * unfold errOnce_Do. destruct (errOnce (grp st)); simpl;
          erewrite part000_live_insert by done; simpl; lia.
      * fold fs. rewrite Hfe. unfold errOnce_Do, err_after in *.
        destruct (errOnce g0), (first_error c fs sched); simpl in *; rewrite Ho; simpl; congruence.
      * fold fs. rewrite Hfe. unfold errOnce_Do, err_after in *.
        destruct (errOnce g0), (first_error c fs sched); simpl in *; rewrite Ho; simpl; congruence.
      * fold fs. rewrite Hfe. unfold errOnce_Do, err_after in *.
        destruct (errOnce g0), (first_error c fs sched), (done_already c);
          simpl in *; rewrite Ho; simpl; congruence.
    + eexists. split; [done|]. destruct HI. split; simpl; try done.
      * by rewrite length_insert.
      * intros i f' Hi. by apply Hgos.
      * apply Hvals. lia.
      * erewrite part000_live_insert by done. simpl. lia.
      * fold fs. rewrite Hsame; [done|by right].
      * fold fs. rewrite Hsame; [done|by right].
      * fold fs. rewrite Hsame; [done|by right].
  - (* values[i] = v *)
    eexists. split; [done|]. destruct HI. split; simpl; try done.
    + by rewrite length_insert.
    + by rewrite length_insert.
    + intros i f' Hi. by apply Hgos.
    + intros i f' Hi. destruct (decide (i = j)) as [->|Hne].
      * unfold fs in Hj. simplify_eq. rewrite turns_snoc_eq, Hk.
        rewrite list_lookup_insert_eq by done. by repeat case_decide; try lia.
      * rewrite list_lookup_insert_ne by done. rewrite turns_snoc_ne by done. auto.
    + erewrite part000_live_insert by done. simpl. lia.
    + fold fs. rewrite Hsame; [done|left; lia].
    + fold fs. rewrite Hsame; [done|left; lia].
    + fold fs. rewrite Hsame; [done|left; lia].
  - (* wg.Done *)
    unfold wg_Done. pose proof (part000_live_pos _ _ _ Hg eq_refl) as Hpos.
    pose proof (I_wg _ _ _ _ HI) as Hwg.
    destruct (decide (wg (grp st) - 1 < 0)) as [|_]; [lia|].
    eexists. split; [done|]. destruct HI. split; simpl; try done.
    + by rewrite length_insert.
    + intros i f' Hi. by apply Hgos.
    + apply Hvals. lia.
    + erewrite part000_live_insert by done. simpl. lia.
    + fold fs. rewrite Hsame; [done|left; lia].
    + fold fs. rewrite Hsame; [done|left; lia].
    + fold fs. rewrite Hsame; [done|left; lia].
  - (* already exited *)
    exists st. split; [done|]. destruct HI. split; try done.
    + intros i f' Hi. rewrite <- (list_insert_id (gos st) j Exited) by done. by apply Hgos.
    + apply Hvals. lia.
    + fold fs. rewrite Hsame; [done|left; lia].
    + fold fs. rewrite Hsame; [done|left; lia].
    + fold fs. rewrite Hsame; [done|left; lia].
Qed.

Lemma part000_run_Inv c (g0 : Group V E) sched :
  0 ≤ wg g0 →
  ∃ st, run sched (init_frame c g0) = Ret st ∧ Inv c g0 sched st.
Proof.
  intros Hwg0. induction sched as [|j sched IH] using rev_ind.
  - exists (init_frame c g0). split; [done|]. apply part000_Inv_init.
  - destruct IH as (st & Hrun & HI). rewrite part000_run_app, Hrun. simpl.
    destruct (part000_step_Inv _ _ _ _ j Hwg0 HI) as (st' & Hstep & HI'). rewrite Hstep. eauto.
Qed.

Lemma part000_New_init fs : fs ≠ [] → New fs = Ret (mkGroup 0 false None fs).
Proof.
  intros Hne. unfold New. case_decide as Hl; [|done].
  by apply nil_length_inv in Hl.
Qed.

(** [Wait] as a function of the schedule, on a group no [Wait] is
    running on. *)
Lemma part000_Wait_exact c (g0 : Group V E) sched :
  wg g0 = 0 →
  Wait c sched g0 =
  if fair 4 (length (funcs g0)) sched then
    let fe := first_error (WithCancel c) (funcs g0) sched in
    Ret (mkWaited ((λ f, (f (WithCancel c)).1) <$> funcs g0) (err_after g0 fe)
                  (mkGroup 0 (errOnce g0 || is_some fe) (err_after g0 fe) (funcs g0))
                  (WithCancel c) true)
  else Blocked.
Proof.
  intros Hwg0.
  destruct (part000_run_Inv (WithCancel c) g0 sched) as (st & Hrun & HI); [lia|].
  unfold Wait. cbn [context_WithCancel].
  change (mkFrame _ _ _ _ _) with (init_frame (WithCancel c) g0). rewrite Hrun.
  destruct (fair 4 (length (funcs g0)) sched) eqn:Hfair.
  - rewrite fair_spec in Hfair.
    assert (∀ i f, funcs g0 !! i = Some f → (4 ≤ turns i sched)%nat) as Ht.
    { intros i f Hi%lookup_lt_Some. auto. }
    assert (wg (grp st) = 0) as Hwg.
    { rewrite (I_wg _ _ _ _ HI), Hwg0. simpl. apply part000_live_zero. intros i y Hy.
      destruct (lookup_lt_is_Some_2 (funcs g0) i) as [f Hf].
      { rewrite <- (I_len_gos _ _ _ _ HI). by eapply lookup_lt_Some. }
      rewrite (I_gos _ _ _ _ HI _ _ Hf) in Hy. specialize (Ht _ _ Hf).
      destruct (turns i sched) as [|[|[|[|k]]]]; simplify_eq/=; try lia. done. }
    case_decide; [|done]. simpl.
    assert (values st = (λ f, (f (WithCancel c)).1) <$> funcs g0) as ->.
    { apply list_eq. intros i. rewrite list_lookup_fmap.
      destruct (funcs g0 !! i) as [f|] eqn:Hf; simpl.
      - rewrite (I_values _ _ _ _ HI _ _ Hf). specialize (Ht _ _ Hf). case_decide; [done|lia].
      - apply lookup_ge_None. rewrite (I_len_values _ _ _ _ HI). by apply lookup_ge_None. }
    rewrite (I_ctx _ _ _ _ HI), (I_err _ _ _ _ HI). do 2 f_equal.
    destruct HI. destruct (grp st); simpl in *. congruence.
  - apply fair_false in Hfair as (i & Hi & Hlt).
    destruct (lookup_lt_is_Some_2 (funcs g0) i Hi) as [f Hf].
    pose proof (I_gos _ _ _ _ HI _ _ Hf) as Hg.
    assert (0 < wg (grp st)).
    { rewrite (I_wg _ _ _ _ HI), Hwg0. simpl. eapply part000_live_pos; [done|].
      destruct (turns i sched) as [|[|[|[|k]]]]; simpl; try done. lia. }
    case_decide; [lia|done].
Qed.

Lemma part000_Wait_quiet c (g : Group V E) sched w :
  quiet g → Wait c sched g = Ret w →
  quiet (w_group w) ∧ err (w_group w) = w_err w ∧
  (∀ e, err g = Some e → w_err w = Some e) ∧
  funcs (w_group w) = funcs g.
Proof.
  intros [Hwg Herr]. rewrite part000_Wait_exact by done.
  destruct (fair _ _ _); [|done]. intros [= <-]. simpl. repeat split.
  - unfold err_after. destruct (errOnce g), (err g), (first_error _ _ _); simplify_eq/=; done.
  - intros e He. unfold err_after. rewrite He in Herr |- *. rewrite <- Herr. done.
Qed.

Lemma part000_Waits_sticky calls (g : Group V E) ws :
  quiet g → Waits calls g = Ret ws →
  (∀ e, err g = Some e → ∀ j w, ws !! j = Some w → w_err w = Some e) ∧
  (∀ i j w w' e, (i ≤ j)%nat → ws !! i = Some w → ws !! j = Some w' →
     w_err w = Some e → w_err w' = Some e).
Proof.
  revert g ws. induction calls as [|[c sched] calls IH]; intros g ws Hq; simpl.
  - intros [= <-]. split; intros; simplify_list_eq.
  - destruct (Wait c sched g) as [w| |] eqn:Hw; try done.
    destruct (Waits calls (w_group w)) as [ws'| |] eqn:Hws; try done.
    intros [= <-]. destruct (part000_Wait_quiet _ _ _ _ Hq Hw) as (Hq' & Hgw & Hkeep & _).
    destruct (IH _ _ Hq' Hws) as [IH1 IH2]. split.
    + intros e He [|j] w0 Hj; simplify_eq/=; [by apply Hkeep|].
      eapply IH1; [|done]. rewrite Hgw. by apply Hkeep.
    + intros [|i] [|j] w0 w' e Hij Hi Hj He; simpl in Hi, Hj.
      * by simplify_eq.
      * simplify_eq. eapply IH1; [|done]. by rewrite Hgw.
      * lia.
      * eapply (IH2 i j); [lia|done..].
Qed.

Lemma part000_Waits_group calls (g : Group V E) ws :
  quiet g → Waits calls g = Ret ws →
  ∀ j w, ws !! j = Some w → err (w_group w) = w_err w.
Proof.
  revert g ws. induction calls as [|[c sched] calls IH]; intros g ws Hq; simpl.
  - intros [= <-]. intros; simplify_list_eq.
  - destruct (Wait c sched g) as [w| |] eqn:Hw; try done.
    destruct (Waits calls (w_group w)) as [ws'| |] eqn:Hws; try done.
    intros [= <-]. destruct (part000_Wait_quiet _ _ _ _ Hq Hw) as (Hq' & Hgw & _).
    intros [|j] w0 Hj; simplify_eq/=; [done|]. by eapply IH.
Qed.

Lemma part000_last_group_cons (g : Group V E) w ws :
  last_group g (w :: ws) = last_group (w_group w) ws.
Proof. unfold last_group. rewrite last_cons. by destruct (last ws). Qed.

Lemma part000_Waits_snoc calls c sched (g : Group V E) ws :
  Waits calls g = Ret ws →
  Waits (calls ++ [(c, sched)]) g =
  match Wait c sched (last_group g ws) with
  | Ret w => Ret (ws ++ [w])
  | Panic m => Panic m
  | Blocked => Blocked
  end.
Proof.
  revert g ws. induction calls as [|[c0 sched0] calls IH]; intros g ws; simpl.
  - intros [= <-]. unfold last_group. simpl. by destruct (Wait c sched g).
  - destruct (Wait c0 sched0 g) as [w| |]; try done.
    destruct (Waits calls (w_group w)) as [ws'| |] eqn:Hws; try done.
    intros [= <-]. rewrite (IH _ _ Hws), part000_last_group_cons.
    by destruct (Wait c sched _).
Qed.

Lemma part000_Waits_last calls (g : Group V E) ws :
  quiet g → Waits calls g = Ret ws →
  quiet (last_group g ws) ∧ funcs (last_group g ws) = funcs g ∧
  (∀ e, err g = Some e → err (last_group g ws) = Some e) ∧
  (∀ i w e, ws !! i = Some w → w_err w = Some e → err (last_group g ws) = Some e).
Proof.
  revert g ws. induction calls as [|[c sched] calls IH]; intros g ws Hq; simpl.
  - intros [= <-]. repeat split; try done; apply Hq.
  - destruct (Wait c sched g) as [w| |] eqn:Hw; try done.
    destruct (Waits calls (w_group w)) as [ws'| |] eqn:Hws; try done.
    intros [= <-]. rewrite part000_last_group_cons.
    destruct (part000_Wait_quiet _ _ _ _ Hq Hw) as (Hq' & Hgw & Hkeep & Hfs).
    destruct (IH _ _ Hq' Hws) as (IH1 & IH2 & IH3 & IH4).
    split; [done|]. split; [congruence|]. split.
    + intros e He. apply IH3. rewrite Hgw. by apply Hkeep.
    + intros [|i] w0 e Hi He; simplify_eq/=; [|by eapply IH4].
      apply IH3. by rewrite Hgw.
Qed.

End Facts.
End Part000Facts.

(** * src/dynamic.go: [Go], then [Wait] *)

Module DynamicFacts.
Import Dynamic DynamicInv.
Section Facts.
Context {V E : Type} `{!Zero V}.
Implicit Types (fs : list (func V E)) (sched : list nat) (m : machine V E) (c : Context).

Lemma dynamic_exec_snoc acts a m : exec (acts ++ [a]) m = act a (exec acts m).
Proof. unfold exec. by rewrite foldl_snoc. Qed.

Lemma dynamic_submitted_snoc (acts : list (action V E)) a :
  submitted (acts ++ [a]) =
  submitted acts ++ match a with DoGo f => [f] | Sched _ => [] end.
Proof. unfold submitted. rewrite omap_app. by destruct a. Qed.

Lemma dynamic_Inv_new c : Inv (WithCancel c) [] (NewDynamic (V:=V) (E:=E) c).1.
Proof.
  split; simpl; try done. left. repeat split; try done.
Qed.

Lemma dynamic_Inv_Go c fs m f : Inv c fs m → Inv c (fs ++ [f]) (Go f m).
Proof.
  intros HI. destruct HI as [H1 H2 Hc H3 H4 H5]. split; simpl; try done.
  - rewrite !length_app. simpl. lia.
  - intros j f' Hj. destruct (decide (j < length fs)%nat) as [Hlt|Hge].
    + rewrite lookup_app_l in Hj by done. rewrite lookup_app_l by lia. auto.
    + rewrite lookup_app_r in Hj by lia. rewrite lookup_app_r by lia. rewrite H3.
      destruct (j - length fs)%nat; simplify_eq/=. eauto.
  - assert (∀ j f' x, (fs ++ [f]) !! j = Some f' → (gos m ++ [Spawned f]) !! j = Some x →
              (fs !! j = Some f' ∧ gos m !! j = Some x) ∨ x = Spawned f) as Hsplit.
    { intros j f' x Hj Hx. destruct (decide (j < length fs)%nat) as [Hlt|Hge].
      - rewrite lookup_app_l in Hj by done. rewrite lookup_app_l in Hx by lia. auto.
      - rewrite lookup_app_r in Hx by lia. rewrite H3 in Hx.
        destruct (j - length fs)%nat; simplify_eq/=. auto. }
    destruct H5 as [(E1 & E2 & E3 & E4)|(E1 & E2 & j & f' & e & Hj & Hf & He)].
    + left. simpl. repeat split; try done. intros j f' e x Hj Hf Hx.
      destruct (Hsplit _ _ _ Hj Hx) as [[Hj' Hx']| ->]; [eauto|simpl; lia].
    + right. simpl. repeat split; try done. exists j, f', e. repeat split; try done.
      apply lookup_app_l_Some. done.
Qed.

Lemma dynamic_step_Inv c fs m j : Inv c fs m → Inv c fs (step j m).
Proof.
  intros HI. unfold step. destruct (gos m !! j) as [x|] eqn:Hx; [|done].
  assert (j < length fs)%nat as Hlt.
  { rewrite <- (D_len _ _ _ HI). by eapply lookup_lt_Some. }
  destruct (lookup_lt_is_Some_2 fs j Hlt) as [f Hf].
  destruct (D_gos _ _ _ HI _ _ Hf) as (x' & Hx' & Hst). simplify_eq.
  assert (∀ y, y = stage c f (rank y) → ∀ i f', fs !! i = Some f' →
            ∃ x, <[j := y]> (gos m) !! i = Some x ∧ x = stage c f' (rank x)) as Hgos.
  { intros y Hy i f' Hi. destruct (decide (i = j)) as [->|Hne].
    - simplify_eq. exists y. split; [|done]. apply list_lookup_insert_eq.
      by eapply lookup_lt_Some.
    - rewrite list_lookup_insert_ne by done. by apply (D_gos _ _ _ HI). }
  assert (∀ g' y, errOnce g' = errOnce (grp m) → err g' = err (grp m) →
            ctx_done g' = ctx_done (grp m) →
            ((∃ e, (f c).2 = Some e) → errOnce (grp m) = false → rank y < 2)%nat →
            err_inv c fs (mkMachine g' (<[j := y]> (gos m)))) as Herr.
  { intros g' y Ho He Hd Hy.
    destruct (D_err _ _ _ HI) as [(E1 & E2 & E3 & E4)|(E1 & E2 & i & f' & e & Hi & Hf' & He')].
    - left. simpl. rewrite Ho, He, Hd. repeat split; try done.
      intros i f' e xi Hi Hf' Hxi. destruct (decide (i = j)) as [->|Hne].
      + rewrite list_lookup_insert_eq in Hxi by (by eapply lookup_lt_Some).
        simplify_eq. eauto.
      + rewrite list_lookup_insert_ne in Hxi by done. eauto.
    - right. simpl. rewrite Ho, He, Hd. repeat split; try done. eauto 10. }
  destruct x as [f0|v e| |]; simpl in Hst; simplify_eq; try done.
  - (* the call of f *)
    rewrite (D_ctx _ _ _ HI). destruct (f c) as [v e] eqn:Hfc.
    destruct HI. split; simpl; try done.
    + by rewrite length_insert.
    + apply Hgos. simpl. by rewrite Hfc.
    + apply Herr; try done. simpl. lia.
  - (* the branch on err *)
    destruct (f c).2 as [e|] eqn:Hfc.
    + (* errOnce.Do *)
      pose proof (D_err _ _ _ HI) as Herr0.
      destruct HI. split; simpl.
      * unfold errOnce_Do. by destruct (errOnce (grp m)).
      * unfold errOnce_Do. by destruct (errOnce (grp m)).
      * unfold errOnce_Do. by destruct (errOnce (grp m)).
      * by rewrite length_insert.
      * by apply Hgos.
      * unfold errOnce_Do. destruct (errOnce (grp m)) eqn:Ho.
        -- destruct Herr0 as [(E1 & _)|(E1 & E2 & i & f' & e' & Hi & Hf' & He')]; [congruence|].
           right. simpl. repeat split; try done. eauto 10.
        -- right. simpl. rewrite D_cancel0. repeat split; try done. eauto 10.
    + destruct HI. split; simpl; try done.
      * by rewrite length_insert.
      * by apply Hgos.
      * apply Herr; try done. intros [e He]. congruence.
Qed.

Lemma dynamic_exec_Inv c (acts : list (action V E)) :
  Inv (WithCancel c) (submitted acts) (exec acts (NewDynamic c).1).
Proof.
  induction acts as [|a acts IH] using rev_ind; [apply dynamic_Inv_new|].
  rewrite dynamic_exec_snoc, dynamic_submitted_snoc. destruct a as [f|j]; simpl.
  - by apply dynamic_Inv_Go.
  - rewrite app_nil_r. by apply dynamic_step_Inv.
Qed.

Lemma dynamic_step_count j m : count (grp (step j m)) = count (grp m).
Proof.
  unfold step. destruct (gos m !! j) as [[f|v [e|]| |]|]; simpl; try done.
  - by destruct (f _).
  - unfold errOnce_Do. by destruct (errOnce _).
Qed.

Lemma dynamic_exec_count c (acts : list (action V E)) :
  count (grp (exec acts (NewDynamic c).1)) =
  Z.of_nat (length (submitted acts)) `mod` uint_modulus.
Proof.
  induction acts as [|a acts IH] using rev_ind; [done|].
  rewrite dynamic_exec_snoc, dynamic_submitted_snoc, length_app.
  set (m := exec acts _) in *. destruct a as [f|j]; simpl.
  - rewrite IH. rewrite Zplus_mod_idemp_l. f_equal. lia.
  - rewrite dynamic_step_count, IH. f_equal. lia.
Qed.

(** Before [Wait] no goroutine gets past its send. *)
Lemma dynamic_step_not_exited j m :
  (∀ i, gos m !! i ≠ Some Exited) → ∀ i, gos (step j m) !! i ≠ Some Exited.
Proof.
  intros H i. unfold step. destruct (gos m !! j) as [[f|v [e|]| |]|] eqn:Hj; simpl; try done;
    try destruct (f _); simpl;
    (destruct (decide (i = j)) as [->|Hne];
     [rewrite list_lookup_insert_eq by (by eapply lookup_lt_Some); done
     |rewrite list_lookup_insert_ne by done; apply H]).
Qed.

Lemma dynamic_exec_not_exited c (acts : list (action V E)) i :
  gos (exec acts (NewDynamic c).1) !! i ≠ Some Exited.
Proof.
  revert i. induction acts as [|a acts IH] using rev_ind; [done|].
  rewrite dynamic_exec_snoc. set (m := exec acts _) in *. destruct a as [f|j]; simpl.
  - intros i Hi. apply lookup_app_Some in Hi as [Hi|[_ Hi]]; [by eapply IH|].
    destruct (i - _)%nat; simplify_eq/=.
  - by apply dynamic_step_not_exited.
Qed.

Lemma dynamic_step_exited j m k :
  gos (step j m) !! k = Some Exited ↔ gos m !! k = Some Exited.
Proof.
  unfold step. destruct (gos m !! j) as [[f|v [e|]| |]|] eqn:Hj; simpl; try done;
    try destruct (f _); simpl;
    (destruct (decide (k = j)) as [->|Hne];
     [rewrite list_lookup_insert_eq by (by eapply lookup_lt_Some); rewrite Hj; naive_solver
     |by rewrite list_lookup_insert_ne by done]).
Qed.

Lemma dynamic_drain_step_inv c fs m i vals order j :
  DrainInv c fs m i vals order → DrainInv c fs (step j m) i vals order.
Proof.
  intros [H1 H2 H3 H4 H5 H6]. split; try done.
  - by apply dynamic_step_Inv.
  - intros k. rewrite dynamic_step_exited. apply H3.
Qed.

Lemma dynamic_drain_recv_inv c fs m i vals order j v :
  DrainInv c fs m i vals order → (i < length vals)%nat →
  gos m !! j = Some (Sending v) →
  DrainInv c fs (mkMachine (grp m) (<[j := Exited]> (gos m)))
           (S i) (<[i := v]> vals) (order ++ [j]).
Proof.
  intros [H1 H2 H3 H4 H5 H6] Hi Hj.
  assert (j < length (gos m))%nat as Hlt by (by eapply lookup_lt_Some).
  assert (j < length fs)%nat as Hltf by (by rewrite <- (D_len _ _ _ H1)).
  destruct (lookup_lt_is_Some_2 fs j Hltf) as [f Hf].
  destruct (D_gos _ _ _ H1 _ _ Hf) as (x & Hx & Hst). simplify_eq. simpl in Hst.
  injection Hst as ->.
  split; simpl.
  - destruct H1 as [D1 D2 Dc D3 D4 D5]. split; simpl; try done.
    + by rewrite length_insert.
    + intros k f' Hk. destruct (decide (k = j)) as [->|Hne].
      * rewrite list_lookup_insert_eq by done. eauto.
      * rewrite list_lookup_insert_ne by done. auto.
    + destruct D5 as [(E1 & E2 & E3 & E4)|(E1 & E2 & E3)].
      * left. simpl. repeat split; try done. intros k f' e x Hk Hf' Hxk.
        destruct (decide (k = j)) as [->|Hne].
        -- simplify_eq. specialize (E4 _ _ _ _ Hf Hf' Hj). simpl in E4. lia.
        -- rewrite list_lookup_insert_ne in Hxk by done. eauto.
      * right. simpl. repeat split; done.
  - apply NoDup_app. repeat split; [done| |apply NoDup_singleton].
    intros k Hk ->%list_elem_of_singleton. apply H3 in Hk. congruence.
  - intros k. rewrite elem_of_app, list_elem_of_singleton, H3.
    destruct (decide (k = j)) as [->|Hne].
    + rewrite list_lookup_insert_eq by done. split; [done|]. intros _. by right.
    + rewrite list_lookup_insert_ne by done. split; [|by left].
      intros [?|?]; [done|congruence].
  - rewrite length_app. simpl. lia.
  - rewrite length_insert. lia.
  - intros p k Hp. apply lookup_app_Some in Hp as [Hp|[Hge Hp]].
    + destruct (H6 _ _ Hp) as (f' & Hf' & Hv). exists f'. split; [done|].
      rewrite list_lookup_insert_ne; [done|]. apply lookup_lt_Some in Hp. lia.
    + destruct (p - length order)%nat eqn:Hd; simplify_eq/=.
      exists f. split; [done|]. assert (p = length order) as -> by lia.
      by apply list_lookup_insert_eq.
Qed.

Lemma dynamic_drain_safe c fs sched : ∀ m i vals order vals' m',
  DrainInv c fs m i vals order →
  drain sched i vals m = Ret (vals', m') →
  ∃ order', DrainInv c fs m' (length vals) vals' order' ∧ length vals' = length vals.
Proof.
  induction sched as [|j sched IH]; intros m i vals order vals' m' HI; simpl.
  - case_decide as Hi; [done|]. intros [= <- <-]. exists order. split; [|done].
    pose proof (R_bound _ _ _ _ _ _ HI). by replace (length vals) with i by lia.
  - case_decide as Hi.
    2:{ intros [= <- <-]. exists order. split; [|done].
        pose proof (R_bound _ _ _ _ _ _ HI). by replace (length vals) with i by lia. }
    destruct (gos m !! j) as [x|] eqn:Hj.
    2:{ intros Hd. eapply IH in Hd; [done|]. by apply dynamic_drain_step_inv. }
    destruct x as [f|v e|v|]; intros Hd.
    1,2,4: (eapply IH in Hd; [done|]; by apply dynamic_drain_step_inv).
    rewrite (D_chan _ _ _ (R_inv _ _ _ _ _ _ HI)) in Hd.
    eapply IH in Hd; [|by eapply dynamic_drain_recv_inv].
    by rewrite length_insert in Hd.
Qed.

Lemma dynamic_drain_live c fs sched : ∀ m i vals order,
  DrainInv c fs m i vals order →
  (length vals ≤ length fs)%nat →
  (∀ j x, gos m !! j = Some x → (3 - rank x ≤ turns j sched)%nat) →
  ∃ r, drain sched i vals m = Ret r.
Proof.
  induction sched as [|j sched IH]; intros m i vals order HI Hlen Hturns; simpl.
  - case_decide as Hi; [|eauto]. exfalso.
    assert (seq 0 (length fs) ⊆+ order) as Hsub.
    { apply NoDup_submseteq; [apply NoDup_seq|]. intros k Hk%elem_of_seq.
      apply (R_exited _ _ _ _ _ _ HI).
      destruct (lookup_lt_is_Some_2 (gos m) k) as [x Hx].
      { rewrite (D_len _ _ _ (R_inv _ _ _ _ _ _ HI)). lia. }
      specialize (Hturns _ _ Hx). simpl in Hturns. destruct x; simpl in *; try lia. done. }
    apply submseteq_length in Hsub. rewrite length_seq in Hsub.
    pose proof (R_index _ _ _ _ _ _ HI). lia.
  - case_decide as Hi; [|eauto].
    destruct (gos m !! j) as [x|] eqn:Hj.
    2:{ apply (IH _ _ _ order); [by apply dynamic_drain_step_inv|done|].
        unfold step. rewrite Hj. intros k x Hk. specialize (Hturns _ _ Hk).
        rewrite turns_cons_ne in Hturns; [done|]. intros ->. congruence. }
    assert (j < length (gos m))%nat as Hlt by (by eapply lookup_lt_Some).
    assert (∀ y, (rank y = S (rank x) ∨ rank y = 3)%nat → ∀ k z,
              <[j := y]> (gos m) !! k = Some z → (3 - rank z ≤ turns k sched)%nat) as Hnext.
    { intros y Hy k z Hk. destruct (decide (k = j)) as [->|Hne].
      - rewrite list_lookup_insert_eq in Hk by done. simplify_eq.
        specialize (Hturns _ _ Hj). rewrite turns_cons_eq in Hturns. lia.
      - rewrite list_lookup_insert_ne in Hk by done. specialize (Hturns _ _ Hk).
        by rewrite turns_cons_ne in Hturns. }
    destruct x as [f|v e|v|].
    + apply (IH _ _ _ order); [by apply dynamic_drain_step_inv|done|].
      unfold step. rewrite Hj. destruct (f _). simpl. apply Hnext. simpl. lia.
    + apply (IH _ _ _ order); [by apply dynamic_drain_step_inv|done|].
      unfold step. rewrite Hj. destruct e; simpl; apply Hnext; simpl; lia.
    + rewrite (D_chan _ _ _ (R_inv _ _ _ _ _ _ HI)).
      apply (IH _ _ _ (order ++ [j])); [by eapply dynamic_drain_recv_inv|by rewrite length_insert|].
      simpl. apply Hnext. simpl. lia.
    + apply (IH _ _ _ order); [by apply dynamic_drain_step_inv|done|].
      unfold step. rewrite Hj. intros k z Hk.
      rewrite <- (list_insert_id (gos m) j Exited) in Hk by done.
      revert k z Hk. apply Hnext. simpl. lia.
Qed.

Lemma dynamic_Wait_start c (acts : list (action V E)) :
  let m := exec acts (NewDynamic c).1 in
  Z.of_nat (length (submitted acts)) < uint_modulus →
  Z.to_nat (count (grp m)) = length (submitted acts) ∧
  DrainInv (WithCancel c) (submitted acts) m 0
           (replicate (length (submitted acts)) zero) [].
Proof.
  intros m Hk. assert (Z.to_nat (count (grp m)) = length (submitted acts)) as Hc.
  { unfold m. rewrite dynamic_exec_count. rewrite Z.mod_small by lia. lia. }
  split; [done|]. split; simpl; try done.
  - apply dynamic_exec_Inv.
  - apply NoDup_nil_2.
  - intros j. split; [by intros ?%elem_of_nil|]. intros Hj. by apply dynamic_exec_not_exited in Hj.
  - lia.
Qed.

Lemma dynamic_Wait_safe c (acts : list (action V E)) sched vals e m' :
  Z.of_nat (length (submitted acts)) < uint_modulus →
  Wait sched (exec acts (NewDynamic c).1) = Ret (vals, e, m') →
  ∃ order, order ≡ₚ seq 0 (length (submitted acts)) ∧
           vals = sent (WithCancel c) (submitted acts) <$> order ∧
           err_result (WithCancel c) (submitted acts) e ∧
           ctx (grp m') = WithCancel c ∧ ctx_done (grp m') = true ∧
           count (grp m') = 0.
Proof.
  intros Hk. destruct (dynamic_Wait_start c acts Hk) as [Hc HI].
  set (m := exec acts _) in *. set (fs := submitted acts) in *.
  unfold Wait. rewrite Hc.
  destruct (drain sched 0 _ m) as [[vals' m1]| |] eqn:Hd; try done.
  destruct (dynamic_drain_safe _ _ _ _ _ _ _ _ _ HI Hd) as (order & HI' & Hlen).
  rewrite length_replicate in HI', Hlen.
  destruct HI' as [H1 H2 H3 H4 H5 H6]. simpl.
  rewrite (D_cancel _ _ _ H1). intros [= <- <- <-]. simpl.
  assert (order ≡ₚ seq 0 (length fs)) as Hperm.
  { apply submseteq_length_Permutation; [|by rewrite length_seq, H4].
    apply NoDup_submseteq; [done|]. intros j Hj%H3. apply elem_of_seq.
    apply lookup_lt_Some in Hj. rewrite (D_len _ _ _ H1) in Hj. lia. }
  exists order. repeat split; try done.
  - apply list_eq. intros p. rewrite list_lookup_fmap.
    destruct (order !! p) as [j|] eqn:Hp; simpl.
    + destruct (H6 _ _ Hp) as (f & Hf & Hv). unfold sent. by rewrite Hf.
    + apply lookup_ge_None. apply lookup_ge_None in Hp. lia.
  - destruct (D_err _ _ _ H1) as [(E1 & E2 & E3 & E4)|(E1 & E2 & j & f & e & Hj & Hf & He)].
    + left. split; [done|]. intros j f Hj. destruct (f _).2 as [e|] eqn:Hf; [|done].
      assert (j ∈ order) as Hin.
      { rewrite Hperm. apply elem_of_seq. apply lookup_lt_Some in Hj. lia. }
      apply H3 in Hin. specialize (E4 _ _ _ _ Hj Hf Hin). simpl in E4. lia.
    + right. exists e. split; [done|]. by exists j, f.
  - apply H1.
Qed.

Lemma dynamic_Wait_live c (acts : list (action V E)) sched :
  Z.of_nat (length (submitted acts)) < uint_modulus →
  fair 3 (length (submitted acts)) sched = true →
  ∃ r, Wait sched (exec acts (NewDynamic c).1) = Ret r.
Proof.
  intros Hk Hfair. destruct (dynamic_Wait_start c acts Hk) as [Hc HI].
  set (m := exec acts _) in *. set (fs := submitted acts) in *.
  rewrite fair_spec in Hfair.
  destruct (dynamic_drain_live _ _ sched _ _ _ _ HI) as [[vals' m1] Hd].
  { by rewrite length_replicate. }
  { intros j x Hj. apply lookup_lt_Some in Hj.
    rewrite (D_len _ _ _ (R_inv _ _ _ _ _ _ HI)) in Hj. specialize (Hfair _ Hj). lia. }
  unfold Wait. rewrite Hc, Hd. simpl.
  destruct (dynamic_drain_safe _ _ _ _ _ _ _ _ _ HI Hd) as (order & HI' & Hlen).
  rewrite (D_cancel _ _ _ (R_inv _ _ _ _ _ _ HI')). eauto.
Qed.

End Facts.
End DynamicFacts.

(** * Facts that hold of any state *)

Section AnyState.
Context {V E : Type} `{!Zero V}.

Lemma grouper_step_ctx j (st st' : Grouper.frame V E) :
  Grouper.step j st = Ret st' →
  Grouper.ctx (Grouper.grp st') = Grouper.ctx (Grouper.grp st).
Proof.
  unfold Grouper.step.
  destruct (Grouper.gos st !! j) as [[f|v [e|]| |]|]; try (by intros [= <-]).
  - destruct (f _). by intros [= <-].
  - intros [= <-]. simpl. unfold Grouper.errOnce_Do. by destruct (Grouper.errOnce _).
  - unfold Grouper.wg_Done. case_decide; [done|]. by intros [= <-].
Qed.

Lemma grouper_run_ctx sched (st st' : Grouper.frame V E) :
  Grouper.run sched st = Ret st' →
  Grouper.ctx (Grouper.grp st') = Grouper.ctx (Grouper.grp st).
Proof.
  revert st. induction sched as [|j sched IH]; intros st; simpl; [by intros [= <-]|].
  destruct (Grouper.step j st) as [st1| |] eqn:Hstep; try done.
  intros Hrun. rewrite (IH _ Hrun). by eapply grouper_step_ctx.
Qed.

Lemma part000_step_ctx j (st st' : Part000.frame V E) :
  Part000.step j st = Ret st' → Part000.ctx st' = Part000.ctx st.
Proof.
  unfold Part000.step.
  destruct (Part000.gos st !! j) as [[f|v [e|]|v| |]|]; try (by intros [= <-]).
  - destruct (f _). by intros [= <-].
  - intros [= <-]. simpl. unfold Part000.errOnce_Do. by destruct (Part000.errOnce _).
  - unfold Part000.wg_Done. case_decide; [done|]. by intros [= <-].
Qed.

Lemma part000_run_ctx sched (st st' : Part000.frame V E) :
  Part000.run sched st = Ret st' → Part000.ctx st' = Part000.ctx st.
Proof.
  revert st. induction sched as [|j sched IH]; intros st; simpl; [by intros [= <-]|].
  destruct (Part000.step j st) as [st1| |] eqn:Hstep; try done.
  intros Hrun. rewrite (IH _ Hrun). by eapply part000_step_ctx.
Qed.

Lemma dynamic_step_ctx j (m : Dynamic.machine V E) :
  Dynamic.ctx (Dynamic.grp (Dynamic.step j m)) = Dynamic.ctx (Dynamic.grp m).
Proof.
  unfold Dynamic.step. destruct (Dynamic.gos m !! j) as [[f|v [e|]|v|]|]; try done.
  - by destruct (f _).
  - simpl. unfold Dynamic.errOnce_Do. by destruct (Dynamic.errOnce _).
Qed.

Lemma dynamic_drain_ctx sched : ∀ i vals (m : Dynamic.machine V E) vals' m',
  Dynamic.drain sched i vals m = Ret (vals', m') →
  Dynamic.ctx (Dynamic.grp m') = Dynamic.ctx (Dynamic.grp m).
Proof.
  induction sched as [|j sched IH]; intros i vals m vals' m'; simpl.
  - case_decide; [done|]. by intros [= _ <-].
  - case_decide; [|by intros [= _ <-]].
    destruct (Dynamic.gos m !! j) as [[f|v e|v|]|] eqn:Hj;
      try destruct (Dynamic.valueChan _); intros Hd;
      apply IH in Hd; rewrite Hd; try apply dynamic_step_ctx; done.
Qed.

(** A scheduler turn before any [Go] finds no goroutine to run. *)
Lemma dynamic_exec_idle c (js : list nat) :
  Dynamic.exec (Dynamic.Sched <$> js) (Dynamic.NewDynamic (V:=V) (E:=E) c).1
  = (Dynamic.NewDynamic c).1.
Proof.
  induction js as [|j js IH] using rev_ind; [done|].
  by rewrite fmap_snoc, DynamicFacts.dynamic_exec_snoc, IH.
Qed.
End AnyState.

(** * Runs on concrete tasks *)

(** Three tasks returning 1, 2 and 3, interleaved. *)
Example fixed_all_succeed :
  Grouper.Wait [0; 1; 2; 2; 1; 0; 1; 0; 2]%nat
    (GrouperInv.init (WithCancel Background) [succeeding 1; succeeding 2; succeeding 3])
  = Ret ([1; 2; 3]%nat, None,
         Grouper.mkGroup (WithCancel Background) true true 0 false None
           [succeeding 1; succeeding 2; succeeding 3]).
Proof. vm_compute. reflexivity. Qed.

(** Two failing tasks: the one whose goroutine reaches [errOnce.Do]
    first decides the error, and [Wait] is blocked until all have
    exited. *)
Example fixed_first_error_wins :
  Grouper.Wait [0; 0; 0; 1; 1; 1; 2; 2; 2]%nat
    (GrouperInv.init (WithCancel Background) [failing 0 7; succeeding 0; failing 0 8])
  = Ret ([0; 0; 0]%nat, Some 7%nat,
         Grouper.mkGroup (WithCancel Background) true true 0 true (Some 7%nat)
           [failing 0 7; succeeding 0; failing 0 8]) ∧
  Grouper.Wait [2; 2; 0; 0; 0; 1; 1; 1; 2]%nat
    (GrouperInv.init (WithCancel Background) [failing 0 7; succeeding 0; failing 0 8])
  = Ret ([0; 0; 0]%nat, Some 8%nat,
         Grouper.mkGroup (WithCancel Background) true true 0 true (Some 8%nat)
           [failing 0 7; succeeding 0; failing 0 8]) ∧
  Grouper.Wait [2; 2; 0; 0; 0; 1; 1; 1]%nat
    (GrouperInv.init (WithCancel Background) [failing 0 7; succeeding 0; failing 0 8])
  = Blocked.
Proof. repeat split; vm_compute; reflexivity. Qed.

(** A second [Wait] on the group of src/grouper.go finds the counter at
    zero: it returns at once, or a goroutine it started panics in
    [g.wg.Done()]. *)
Example fixed_second_Wait :
  Grouper.Wait []
    (Grouper.mkGroup (WithCancel Background) true true 0 false None [succeeding 1])
  = Ret ([0%nat], None,
         Grouper.mkGroup (WithCancel Background) true true 0 false None [succeeding 1]) ∧
  Grouper.Wait [0; 0; 0]%nat
    (Grouper.mkGroup (WithCancel Background) true true 0 false None [succeeding 1])
  = Panic "sync: negative WaitGroup counter".
Proof. split; vm_compute; reflexivity. Qed.

(** Two submissions, the first failing: the slice comes in the order the
    goroutines are received from. *)
Example dynamic_two_tasks :
  (∃ m', Dynamic.Wait [0; 0; 0; 1; 1; 1]%nat
           (Dynamic.Go (succeeding 2) (Dynamic.Go (failing 0 7) (Dynamic.NewDynamic Background).1))
         = Ret ([0; 2]%nat, Some 7%nat, m')) ∧
  (∃ m', Dynamic.Wait [1; 0; 1; 0; 1; 0]%nat
           (Dynamic.Go (succeeding 2) (Dynamic.Go (failing 0 7) (Dynamic.NewDynamic Background).1))
         = Ret ([2; 0]%nat, Some 7%nat, m')) ∧
  Dynamic.Wait [1; 0; 1; 0; 1]%nat
    (Dynamic.Go (succeeding 2) (Dynamic.Go (failing 0 7) (Dynamic.NewDynamic Background).1))
  = Blocked.
Proof. repeat split; try eexists; vm_compute; reflexivity. Qed.

(** * Further facts about the guard *)

Section GuardFacts.
Context {V E : Type}.
Implicit Types (fs : list (func V E)) (sched : list nat) (c : Context).

Lemma first_error_None_intro c fs sched :
  (∀ i f e, fs !! i = Some f → (f c).2 = Some e → (turns i sched < 2)%nat) →
  first_error c fs sched = None.
Proof.
  intros H. destruct (first_error c fs sched) as [e|] eqn:Hfe; [|done].
  apply first_error_Some in Hfe as (i & f & Hi & Hf & Ht).
  specialize (H _ _ _ Hi Hf). lia.
Qed.

Lemma first_error_app_Some c fs sched more e :
  first_error c fs sched = Some e → first_error c fs (sched ++ more) = Some e.
Proof.
  intros Hfe. induction more as [|j more IH] using rev_ind; [by rewrite app_nil_r|].
  by rewrite app_assoc, first_error_snoc, IH.
Qed.

(** The failing goroutine that is first to take its second turn decides
    the error. *)
Lemma first_error_winner c fs pre i post f e :
  fs !! i = Some f → (f c).2 = Some e → turns i pre = 1%nat →
  (∀ j f' e', fs !! j = Some f' → (f' c).2 = Some e' → (turns j pre < 2)%nat) →
  first_error c fs (pre ++ i :: post) = Some e.
Proof.
  intros Hi Hf Ht Hpre. rewrite (cons_middle i pre post), app_assoc.
  apply first_error_app_Some. rewrite first_error_snoc.
  rewrite (first_error_None_intro _ _ _ Hpre). rewrite decide_True by done.
  unfold task_error. by rewrite Hi.
Qed.

Lemma is_some_first_error c fs sched :
  is_some (first_error c fs sched) = true ↔
  ∃ i f e, fs !! i = Some f ∧ (f c).2 = Some e ∧ (2 ≤ turns i sched)%nat.
Proof.
  split.
  - destruct (first_error c fs sched) as [e|] eqn:Hfe; [|done]. intros _.
    apply first_error_Some in Hfe as (i & f & ? & ? & ?). by exists i, f, e.
  - intros (i & f & e & Hi & Hf & Ht).
    destruct (first_error c fs sched) as [e'|] eqn:Hfe; [done|].
    pose proof (first_error_None _ _ _ _ _ _ Hfe Hi Hf). lia.
Qed.
End GuardFacts.

(** * src/unnamed/part_000: successive calls *)

Section Part000Calls.
Context {V E : Type} `{!Zero V}.

Lemma part000_Waits_each calls (g : Part000.Group V E) ws :
  Part000Inv.quiet g → Part000.Waits calls g = Ret ws →
  length ws = length calls ∧
  ∀ k c sched w, calls !! k = Some (c, sched) → ws !! k = Some w →
    Part000.w_values w = (λ f, (f (WithCancel c)).1) <$> Part000.funcs g ∧
    Part000.w_ctx w = WithCancel c ∧ Part000.w_ctx_done w = true ∧
    fair 4 (length (Part000.funcs g)) sched = true.
Proof.
  revert g ws. induction calls as [|[c0 sched0] calls IH]; intros g ws Hq; simpl.
  - intros [= <-]. split; [done|]. intros; simplify_list_eq.
  - destruct (Part000.Wait c0 sched0 g) as [w| |] eqn:Hw; try done.
    destruct (Part000.Waits calls (Part000.w_group w)) as [ws'| |] eqn:Hws; try done.
    intros [= <-].
    destruct (Part000Facts.part000_Wait_quiet _ _ _ _ Hq Hw) as (Hq' & _ & _ & Hfs).
    destruct (IH _ _ Hq' Hws) as [Hlen Heach]. split; [simpl; by rewrite Hlen|].
    intros [|k] c sched w0 Hk Hw0; simplify_eq/=.
    + rewrite Part000Facts.part000_Wait_exact in Hw by apply Hq.
      destruct (fair 4 _ _); [|done]. by injection Hw as <-.
    + rewrite <- Hfs. by eapply Heach.
Qed.


Lemma part000_New_quiet (fs : list (func V E)) g :
  Part000.New fs = Ret g → Part000Inv.quiet g ∧ Part000.funcs g = fs.
Proof. unfold Part000.New. case_decide; [done|]. by intros [= <-]. Qed.
End Part000Calls.

(** * src/grouper.go: a call of [Wait] on a counter at zero *)

Module GrouperAgainFacts.
Import Grouper GrouperAgain.
Section Facts.
Context {V E : Type} `{!Zero V}.
Implicit Types (fs : list (func V E)) (sched : list nat) (st : frame V E) (c : Context).

Lemma again_start (g : Group V E) : wg g = 0 → Rerun g [] (start g).
Proof.
  intros Hwg. split; simpl; try done.
  - by rewrite length_fmap.
  - intros i f Hi. rewrite list_lookup_fmap, Hi. split; [done|]. simpl. lia.
Qed.

(** A turn that does not take its goroutine to [g.wg.Done()]. *)
Lemma again_step (g : Group V E) sched st j :
  Rerun g sched st →
  (∀ f, funcs g !! j = Some f → (turns j sched < 2)%nat) →
  ∃ st', step j st = Ret st' ∧ Rerun g (sched ++ [j]) st'.
Proof.
  intros HR Hj. destruct (funcs g !! j) as [f|] eqn:Hf.
  2:{ assert (gos st !! j = None) as Hg.
      { apply lookup_ge_None. rewrite (A_len _ _ _ HR). by apply lookup_ge_None. }
      exists st. unfold step. rewrite Hg. split; [done|].
      destruct HR. split; try done. intros i f Hi.
      rewrite turns_snoc_ne; [auto|]. intros ->. congruence. }
  specialize (Hj _ eq_refl).
  destruct (A_gos _ _ _ HR _ _ Hf) as [Hg _].
  assert (∀ x, x = GrouperInv.stage (ctx g) f (S (turns j sched)) →
            ∀ i f', funcs g !! i = Some f' →
            <[j := x]> (gos st) !! i
            = Some (GrouperInv.stage (ctx g) f' (turns i (sched ++ [j]))) ∧
            (turns i (sched ++ [j]) < 3)%nat) as Hgos.
  { intros x -> i f' Hi. destruct (decide (i = j)) as [->|Hne].
    - simplify_eq. rewrite turns_snoc_eq. split; [|lia].
      apply list_lookup_insert_eq. by eapply lookup_lt_Some.
    - rewrite list_lookup_insert_ne by done. rewrite turns_snoc_ne by done.
      by apply (A_gos _ _ _ HR). }
  unfold step. rewrite Hg.
  destruct (turns j sched) as [|[|k]] eqn:Hk; simpl; [| |lia].
  - rewrite (A_ctx _ _ _ HR). destruct (f (ctx g)) as [v e] eqn:Hfc.
    eexists. split; [done|]. destruct HR. split; simpl; try done.
    + by rewrite length_insert.
    + apply Hgos. simpl. by rewrite Hfc.
  - destruct (f (ctx g)).2 as [e|] eqn:Hfc.
    + eexists. split; [done|]. destruct HR. split; simpl.
      * unfold errOnce_Do. by destruct (errOnce (grp st)).
      * unfold errOnce_Do. by destruct (errOnce (grp st)).
      * unfold errOnce_Do. by destruct (errOnce (grp st)).
      * by rewrite length_insert.
      * by apply Hgos.
    + eexists. split; [done|]. destruct HR. split; simpl; try done.
      * by rewrite length_insert.
      * by apply Hgos.
Qed.

Lemma again_run_calm (g : Group V E) sched :
  wg g = 0 →
  (∀ i, (i < length (funcs g))%nat → (turns i sched < 3)%nat) →
  ∃ st, run sched (start g) = Ret st ∧ Rerun g sched st.
Proof.
  intros Hwg. induction sched as [|j sched IH] using rev_ind; intros Hcalm.
  - exists (start g). split; [done|]. by apply again_start.
  - destruct IH as (st & Hrun & HR).
    { intros i Hi. specialize (Hcalm i Hi). rewrite turns_app in Hcalm. lia. }
    rewrite GrouperFacts.grouper_run_app, Hrun.
    destruct (again_step _ _ _ j HR) as (st' & Hstep & HR').
    { intros f Hf%lookup_lt_Some. specialize (Hcalm j Hf).
      rewrite turns_snoc_eq in Hcalm. lia. }
    simpl. rewrite Hstep. eauto.
Qed.

Lemma again_run_overrun (g : Group V E) sched :
  wg g = 0 →
  (∃ i, (i < length (funcs g))%nat ∧ (3 ≤ turns i sched)%nat) →
  run sched (start g) = Panic "sync: negative WaitGroup counter".
Proof.
  intros Hwg. induction sched as [|j sched IH] using rev_ind; intros (i & Hi & Hover).
  { simpl in Hover. lia. }
  rewrite GrouperFacts.grouper_run_app.
  destruct (decide (Forall (λ i, turns i sched < 3)%nat (seq 0 (length (funcs g)))))
    as [Hcalm|Hnot].
  - rewrite Forall_forall in Hcalm.
    destruct (again_run_calm g sched Hwg) as (st & -> & HR).
    { intros k Hk. apply Hcalm, elem_of_seq. lia. }
    assert (i = j) as ->.
    { destruct (decide (i = j)); [done|]. rewrite turns_snoc_ne in Hover by done.
      assert (turns i sched < 3)%nat by (apply Hcalm, elem_of_seq; lia). lia. }
    rewrite turns_snoc_eq in Hover.
    assert (turns j sched < 3)%nat by (apply Hcalm, elem_of_seq; lia).
    destruct (lookup_lt_is_Some_2 _ _ Hi) as [f Hf].
    destruct (A_gos _ _ _ HR _ _ Hf) as [Hg _].
    replace (turns j sched) with 2%nat in Hg by lia. simpl in Hg.
    simpl. unfold step. rewrite Hg. unfold wg_Done.
    rewrite (A_wg _ _ _ HR). by rewrite decide_True by lia.
  - apply not_Forall_Exists in Hnot; [|apply _].
    apply Exists_exists in Hnot as (k & Hk%elem_of_seq & Hturns).
    unfold compose in Hturns. rewrite IH; [done|]. exists k. split; lia.
Qed.
End Facts.
End GrouperAgainFacts.

(** * src/dynamic.go: the run of a later round *)

Module DynamicRoundsFacts.
Import Dynamic DynamicInv DynamicRounds.
Section Facts.
Context {V E : Type} `{!Zero V}.
Implicit Types (fs : list (func V E)) (sched : list nat) (m : machine V E) (c : Context).

Lemma rounds_Life_new c : Life (WithCancel c) [] (NewDynamic (V:=V) (E:=E) c).1.
Proof. split; simpl; try done. left. repeat split; done. Qed.

Lemma rounds_Life_Go c fs m f : Life c fs m → Life c (fs ++ [f]) (Go f m).
Proof.
  intros HI. destruct HI as [H1 H2 Hc H3 H4 H5]. split; simpl; try done.
  - rewrite !length_app. simpl. lia.
  - intros j f' Hj. destruct (decide (j < length fs)%nat) as [Hlt|Hge].
    + rewrite lookup_app_l in Hj by done. rewrite lookup_app_l by lia. auto.
    + rewrite lookup_app_r in Hj by lia. rewrite lookup_app_r by lia. rewrite H3.
      destruct (j - length fs)%nat; simplify_eq/=. eauto.
  - assert (∀ j f' x, (fs ++ [f]) !! j = Some f' → (gos m ++ [Spawned f]) !! j = Some x →
              (fs !! j = Some f' ∧ gos m !! j = Some x) ∨ x = Spawned f) as Hsplit.
    { intros j f' x Hj Hx. destruct (decide (j < length fs)%nat) as [Hlt|Hge].
      - rewrite lookup_app_l in Hj by done. rewrite lookup_app_l in Hx by lia. auto.
      - rewrite lookup_app_r in Hx by lia. rewrite H3 in Hx.
        destruct (j - length fs)%nat; simplify_eq/=. auto. }
    destruct H5 as [(E1 & E2 & E4)|(E1 & j & f' & e & Hj & Hf & He)].
    + left. simpl. repeat split; try done. intros j f' e x Hj Hf Hx.
      destruct (Hsplit _ _ _ Hj Hx) as [[Hj' Hx']| ->]; [eauto|simpl; lia].
    + right. simpl. split; [done|]. exists j, f', e. repeat split; try done.
      apply lookup_app_l_Some. done.
Qed.

Lemma rounds_Life_step c fs m j : Life c fs m → Life c fs (step j m).
Proof.
  intros HI. unfold step. destruct (gos m !! j) as [x|] eqn:Hx; [|done].
  assert (j < length fs)%nat as Hlt.
  { rewrite <- (L_len _ _ _ HI). by eapply lookup_lt_Some. }
  destruct (lookup_lt_is_Some_2 fs j Hlt) as [f Hf].
  destruct (L_gos _ _ _ HI _ _ Hf) as (x' & Hx' & Hst). simplify_eq.
  assert (∀ y, y = stage c f (rank y) → ∀ i f', fs !! i = Some f' →
            ∃ x, <[j := y]> (gos m) !! i = Some x ∧ x = stage c f' (rank x)) as Hgos.
  { intros y Hy i f' Hi. destruct (decide (i = j)) as [->|Hne].
    - simplify_eq. exists y. split; [|done]. apply list_lookup_insert_eq.
      by eapply lookup_lt_Some.
    - rewrite list_lookup_insert_ne by done. by apply (L_gos _ _ _ HI). }
  assert (∀ g' y, errOnce g' = errOnce (grp m) → err g' = err (grp m) →
            ((∃ e, (f c).2 = Some e) → errOnce (grp m) = false → rank y < 2)%nat →
            err_life c fs (mkMachine g' (<[j := y]> (gos m)))) as Herr.
  { intros g' y Ho He Hy.
    destruct (L_err _ _ _ HI) as [(E1 & E2 & E4)|(E1 & i & f' & e & Hi & Hf' & He')].
    - left. simpl. rewrite Ho, He. repeat split; try done.
      intros i f' e xi Hi Hf' Hxi. destruct (decide (i = j)) as [->|Hne].
      + rewrite list_lookup_insert_eq in Hxi by (by eapply lookup_lt_Some).
        simplify_eq. eauto.
      + rewrite list_lookup_insert_ne in Hxi by done. eauto.
    - right. simpl. rewrite Ho, He. split; [done|]. eauto 10. }
  destruct x as [f0|v e| |]; simpl in Hst; simplify_eq; try done.
  - rewrite (L_ctx _ _ _ HI). destruct (f c) as [v e] eqn:Hfc.
    destruct HI. split; simpl; try done.
    + by rewrite length_insert.
    + apply Hgos. simpl. by rewrite Hfc.
    + apply Herr; try done. simpl. lia.
  - destruct (f c).2 as [e|] eqn:Hfc.
    + pose proof (L_err _ _ _ HI) as Herr0.
      destruct HI. split; simpl.
      * unfold errOnce_Do. by destruct (errOnce (grp m)).
      * unfold errOnce_Do. by destruct (errOnce (grp m)).
      * unfold errOnce_Do. by destruct (errOnce (grp m)).
      * by rewrite length_insert.
      * by apply Hgos.
      * unfold errOnce_Do. destruct (errOnce (grp m)) eqn:Ho.
        -- destruct Herr0 as [(E1 & _)|(E1 & i & f' & e' & Hi & Hf' & He')]; [congruence|].
           right. simpl. split; [done|]. eauto 10.
        -- right. simpl. split; [done|]. eauto 10.
    + destruct HI. split; simpl; try done.
      * by rewrite length_insert.
      * by apply Hgos.
      * apply Herr; try done. intros [e He]. congruence.
Qed.

Lemma rounds_exec_Inv c fs m (acts : list (action V E)) :
  Life c fs m → Life c (fs ++ submitted acts) (exec acts m).
Proof.
  intros HI. induction acts as [|a acts IH] using rev_ind.
  - unfold submitted. simpl. by rewrite app_nil_r.
  - rewrite DynamicFacts.dynamic_exec_snoc, DynamicFacts.dynamic_submitted_snoc, app_assoc.
    destruct a as [f|j]; simpl.
    + by apply rounds_Life_Go.
    + rewrite app_nil_r. by apply rounds_Life_step.
Qed.

Lemma rounds_exec_count m (acts : list (action V E)) :
  count (grp m) = 0 →
  count (grp (exec acts m)) = Z.of_nat (length (submitted acts)) `mod` uint_modulus.
Proof.
  intros Hc. induction acts as [|a acts IH] using rev_ind; [simpl; by rewrite Hc|].
  rewrite DynamicFacts.dynamic_exec_snoc, DynamicFacts.dynamic_submitted_snoc, length_app.
  set (m1 := exec acts m) in *. destruct a as [f|j]; simpl.
  - rewrite IH. rewrite Zplus_mod_idemp_l. f_equal. lia.
  - rewrite DynamicFacts.dynamic_step_count, IH. f_equal. lia.
Qed.

Lemma rounds_exec_length m (acts : list (action V E)) :
  length (gos (exec acts m)) = (length (gos m) + length (submitted acts))%nat.
Proof.
  induction acts as [|a acts IH] using rev_ind; [simpl; lia|].
  rewrite DynamicFacts.dynamic_exec_snoc, DynamicFacts.dynamic_submitted_snoc, length_app.
  set (m1 := exec acts m) in *. destruct a as [f|j]; simpl.
  - rewrite length_app, IH. simpl. lia.
  - unfold step. destruct (gos m1 !! j) as [[f|v [e|]|v|]|]; simpl;
      try destruct (f _); simpl; rewrite ?length_insert, IH; lia.
Qed.

(** Before [Wait] only the goroutines of earlier rounds have exited. *)
Lemma rounds_exec_exited m (acts : list (action V E)) j :
  (∀ i x, gos m !! i = Some x → x = Exited) →
  gos (exec acts m) !! j = Some Exited ↔ (j < length (gos m))%nat.
Proof.
  intros Hall. revert j. induction acts as [|a acts IH] using rev_ind; intros j.
  - simpl. split; [by intros ?%lookup_lt_Some|].
    intros [x Hx]%lookup_lt_is_Some_2. by rewrite Hx, (Hall _ _ Hx).
  - rewrite DynamicFacts.dynamic_exec_snoc. set (m1 := exec acts m) in *.
    destruct a as [f|i]; simpl.
    + rewrite <- IH. split.
      * intros Hj. apply lookup_app_Some in Hj as [Hj|[_ Hj]]; [done|].
        destruct (j - _)%nat; simplify_eq/=.
      * intros Hj. by apply lookup_app_l_Some.
    + by rewrite DynamicFacts.dynamic_step_exited.
Qed.

Lemma rounds_recorded_step e m j : recorded e m → recorded e (step j m).
Proof.
  intros [Ho He]. unfold step, recorded.
  destruct (gos m !! j) as [[f|v [e'|]|v|]|]; simpl; try done.
  - by destruct (f _).
  - unfold errOnce_Do. by rewrite Ho.
Qed.

Lemma rounds_recorded_exec e m (acts : list (action V E)) :
  recorded e m → recorded e (exec acts m).
Proof.
  intros Hr. induction acts as [|a acts IH] using rev_ind; [done|].
  rewrite DynamicFacts.dynamic_exec_snoc. destruct a as [f|j]; simpl.
  - done.
  - by apply rounds_recorded_step.
Qed.

Lemma rounds_recorded_drain e sched : ∀ i vals m vals' m',
  drain sched i vals m = Ret (vals', m') → recorded e m → recorded e m'.
Proof.
  induction sched as [|j sched IH]; intros i vals m vals' m'; simpl.
  - case_decide; [done|]. by intros [= _ <-].
  - case_decide; [|by intros [= _ <-]].
    destruct (gos m !! j) as [[f|v e'|v|]|] eqn:Hj;
      try destruct (valueChan _); intros Hd Hr; eapply IH in Hd; try done;
      by apply rounds_recorded_step.
Qed.

Lemma rounds_Inv_recorded c fs m e :
  Life c fs m → err (grp m) = Some e → recorded e m.
Proof.
  intros HI He. destruct (L_err _ _ _ HI) as [(_ & Hn & _)|(Ho & _)]; [congruence|done].
Qed.

Lemma rounds_drain_step c fs n0 m i vals order j :
  DrainFrom c fs n0 m i vals order → DrainFrom c fs n0 (step j m) i vals order.
Proof.
  intros [H1 H2 H3 H4 H5 H6 H7]. split; try done.
  - by apply rounds_Life_step.
  - intros k Hk. apply DynamicFacts.dynamic_step_exited. auto.
  - intros k. rewrite DynamicFacts.dynamic_step_exited. apply H4.
Qed.

Lemma rounds_drain_recv c fs n0 m i vals order j v :
  DrainFrom c fs n0 m i vals order → (i < length vals)%nat →
  gos m !! j = Some (Sending v) →
  DrainFrom c fs n0 (mkMachine (grp m) (<[j := Exited]> (gos m)))
            (S i) (<[i := v]> vals) (order ++ [j]).
Proof.
  intros [H1 H2 H3 H4 H5 H6 H7] Hi Hj.
  assert (j < length (gos m))%nat as Hlt by (by eapply lookup_lt_Some).
  assert (j < length fs)%nat as Hltf by (by rewrite <- (L_len _ _ _ H1)).
  assert (n0 ≤ j)%nat as Hn0.
  { destruct (decide (n0 ≤ j)%nat); [done|]. rewrite H3 in Hj by lia. done. }
  destruct (lookup_lt_is_Some_2 fs j Hltf) as [f Hf].
  destruct (L_gos _ _ _ H1 _ _ Hf) as (x & Hx & Hst). simplify_eq. simpl in Hst.
  injection Hst as ->.
  split; simpl.
  - destruct H1 as [D1 D2 Dc D3 D4 D5]. split; simpl; try done.
    + by rewrite length_insert.
    + intros k f' Hk. destruct (decide (k = j)) as [->|Hne].
      * rewrite list_lookup_insert_eq by done. eauto.
      * rewrite list_lookup_insert_ne by done. auto.
    + destruct D5 as [(E1 & E2 & E4)|(E1 & E3)].
      * left. simpl. repeat split; try done. intros k f' e x Hk Hf' Hxk.
        destruct (decide (k = j)) as [->|Hne].
        -- simplify_eq. specialize (E4 _ _ _ _ Hf Hf' Hj). simpl in E4. lia.
        -- rewrite list_lookup_insert_ne in Hxk by done. eauto.
      * right. simpl. split; done.
  - apply NoDup_app. repeat split; [done| |apply NoDup_singleton].
    intros k Hk ->%list_elem_of_singleton. apply H4 in Hk as [_ Hk]. congruence.
  - intros k Hk. rewrite list_lookup_insert_ne by lia. auto.
  - intros k. rewrite elem_of_app, list_elem_of_singleton, H4.
    destruct (decide (k = j)) as [->|Hne].
    + rewrite list_lookup_insert_eq by done. split; [done|]. intros _. by right.
    + rewrite list_lookup_insert_ne by done. split; [|by left].
      intros [?|?]; [done|congruence].
  - rewrite length_app. simpl. lia.
  - rewrite length_insert. lia.
  - intros p k Hp. apply lookup_app_Some in Hp as [Hp|[Hge Hp]].
    + destruct (H7 _ _ Hp) as (f' & Hf' & Hv). exists f'. split; [done|].
      rewrite list_lookup_insert_ne; [done|]. apply lookup_lt_Some in Hp. lia.
    + destruct (p - length order)%nat eqn:Hd; simplify_eq/=.
      exists f. split; [done|]. assert (p = length order) as -> by lia.
      by apply list_lookup_insert_eq.
Qed.

Lemma rounds_drain_safe c fs n0 sched : ∀ m i vals order vals' m',
  DrainFrom c fs n0 m i vals order →
  drain sched i vals m = Ret (vals', m') →
  ∃ order', DrainFrom c fs n0 m' (length vals) vals' order' ∧ length vals' = length vals.
Proof.
  induction sched as [|j sched IH]; intros m i vals order vals' m' HI; simpl.
  - case_decide as Hi; [done|]. intros [= <- <-]. exists order. split; [|done].
    pose proof (F_bound _ _ _ _ _ _ _ HI). by replace (length vals) with i by lia.
  - case_decide as Hi.
    2:{ intros [= <- <-]. exists order. split; [|done].
        pose proof (F_bound _ _ _ _ _ _ _ HI). by replace (length vals) with i by lia. }
    destruct (gos m !! j) as [x|] eqn:Hj.
    2:{ intros Hd. eapply IH in Hd; [done|]. by apply rounds_drain_step. }
    destruct x as [f|v e|v|]; intros Hd.
    1,2,4: (eapply IH in Hd; [done|]; by apply rounds_drain_step).
    rewrite (L_chan _ _ _ (F_inv _ _ _ _ _ _ _ HI)) in Hd.
    eapply IH in Hd; [|by eapply rounds_drain_recv].
    by rewrite length_insert in Hd.
Qed.

Lemma rounds_drain_live c fs n0 sched : ∀ m i vals order,
  DrainFrom c fs n0 m i vals order →
  (n0 + length vals ≤ length fs)%nat →
  (∀ j x, gos m !! j = Some x → (3 - rank x ≤ turns j sched)%nat) →
  ∃ r, drain sched i vals m = Ret r.
Proof.
  induction sched as [|j sched IH]; intros m i vals order HI Hlen Hturns; simpl.
  - case_decide as Hi; [|eauto]. exfalso.
    assert (seq n0 (length fs - n0) ⊆+ order) as Hsub.
    { apply NoDup_submseteq; [apply NoDup_seq|]. intros k Hk%elem_of_seq.
      apply (F_new _ _ _ _ _ _ _ HI). split; [lia|].
      destruct (lookup_lt_is_Some_2 (gos m) k) as [x Hx].
      { rewrite (L_len _ _ _ (F_inv _ _ _ _ _ _ _ HI)). lia. }
      specialize (Hturns _ _ Hx). simpl in Hturns. destruct x; simpl in *; try lia. done. }
    apply submseteq_length in Hsub. rewrite length_seq in Hsub.
    pose proof (F_index _ _ _ _ _ _ _ HI). lia.
  - case_decide as Hi; [|eauto].
    destruct (gos m !! j) as [x|] eqn:Hj.
    2:{ apply (IH _ _ _ order); [by apply rounds_drain_step|done|].
        unfold step. rewrite Hj. intros k x Hk. specialize (Hturns _ _ Hk).
        rewrite turns_cons_ne in Hturns; [done|]. intros ->. congruence. }
    assert (j < length (gos m))%nat as Hlt by (by eapply lookup_lt_Some).
    assert (∀ y, (rank y = S (rank x) ∨ rank y = 3)%nat → ∀ k z,
              <[j := y]> (gos m) !! k = Some z → (3 - rank z ≤ turns k sched)%nat) as Hnext.
    { intros y Hy k z Hk. destruct (decide (k = j)) as [->|Hne].
      - rewrite list_lookup_insert_eq in Hk by done. simplify_eq.
        specialize (Hturns _ _ Hj). rewrite turns_cons_eq in Hturns. lia.
      - rewrite list_lookup_insert_ne in Hk by done. specialize (Hturns _ _ Hk).
        by rewrite turns_cons_ne in Hturns. }
    destruct x as [f|v e|v|].
    + apply (IH _ _ _ order); [by apply rounds_drain_step|done|].
      unfold step. rewrite Hj. destruct (f _). simpl. apply Hnext. simpl. lia.
    + apply (IH _ _ _ order); [by apply rounds_drain_step|done|].
      unfold step. rewrite Hj. destruct e; simpl; apply Hnext; simpl; lia.
    + rewrite (L_chan _ _ _ (F_inv _ _ _ _ _ _ _ HI)).
      apply (IH _ _ _ (order ++ [j])); [by eapply rounds_drain_recv|by rewrite length_insert|].
      simpl. apply Hnext. simpl. lia.
    + apply (IH _ _ _ order); [by apply rounds_drain_step|done|].
      unfold step. rewrite Hj. intros k z Hk.
      rewrite <- (list_insert_id (gos m) j Exited) in Hk by done.
      revert k z Hk. apply Hnext. simpl. lia.
Qed.

Lemma rounds_sent_new c fs0 (sub : list (func V E)) :
  sent c (fs0 ++ sub) <$> seq (length fs0) (length sub) = (λ f, (f c).1) <$> sub.
Proof.
  apply list_eq. intros p. rewrite !list_lookup_fmap.
  destruct (sub !! p) as [f|] eqn:Hp; simpl.
  - rewrite lookup_seq_lt by (by eapply lookup_lt_Some). simpl.
    unfold sent. rewrite lookup_app_r by lia.
    replace (length fs0 + p - length fs0)%nat with p by lia. by rewrite Hp.
  - rewrite lookup_seq_ge; [done|]. by apply lookup_ge_None.
Qed.

Lemma rounds_Wait_start c fs0 m (acts : list (action V E)) :
  Quiet c fs0 m → Z.of_nat (length (submitted acts)) < uint_modulus →
  Z.to_nat (count (grp (exec acts m))) = length (submitted acts) ∧
  DrainFrom c (fs0 ++ submitted acts) (length fs0) (exec acts m) 0
            (replicate (length (submitted acts)) zero) [].
Proof.
  intros [HL Hc Hex] Hk. split.
  { rewrite rounds_exec_count by done. rewrite Z.mod_small by lia. lia. }
  pose proof (rounds_exec_exited m acts) as Hexited.
  rewrite (L_len _ _ _ HL) in Hexited.
  split; simpl; try done.
  - by apply rounds_exec_Inv.
  - apply NoDup_nil_2.
  - intros j Hj. by apply Hexited.
  - intros j. split; [by intros ?%elem_of_nil|]. intros [Hge Hj].
    apply Hexited in Hj; [lia|done].
  - lia.
Qed.

Lemma rounds_Wait_safe c fs0 m (acts : list (action V E)) sched vals e m' :
  Quiet c fs0 m → Z.of_nat (length (submitted acts)) < uint_modulus →
  Wait sched (exec acts m) = Ret (vals, e, m') →
  Quiet c (fs0 ++ submitted acts) m' ∧
  vals ≡ₚ (λ f, (f c).1) <$> submitted acts ∧
  err (grp m') = e ∧ ctx_done (grp m') = true ∧
  DynamicInv.err_result c (fs0 ++ submitted acts) e ∧
  (∀ e0, err (grp m) = Some e0 → e = Some e0).
Proof.
  intros HQ Hk. destruct (rounds_Wait_start _ _ _ acts HQ Hk) as [Hc HI].
  set (m1 := exec acts m) in *. set (fs := fs0 ++ submitted acts) in *.
  unfold Wait. rewrite Hc.
  destruct (drain sched 0 _ m1) as [[vals' m2]| |] eqn:Hd; try done.
  destruct (rounds_drain_safe _ _ _ _ _ _ _ _ _ _ HI Hd) as (order & HI' & Hlen).
  rewrite length_replicate in HI', Hlen.
  destruct HI' as [H1 H2 H3 H4 H5 H6 H7]. simpl.
  rewrite (L_cancel _ _ _ H1). intros [= <- <- <-]. simpl.
  assert (length fs = (length fs0 + length (submitted acts))%nat) as Hfs.
  { unfold fs. by rewrite length_app. }
  assert (order ≡ₚ seq (length fs0) (length (submitted acts))) as Hperm.
  { apply submseteq_length_Permutation; [|by rewrite length_seq, H5].
    apply NoDup_submseteq; [done|]. intros j [Hge Hj]%H4. apply elem_of_seq.
    apply lookup_lt_Some in Hj. rewrite (L_len _ _ _ H1) in Hj. lia. }
  assert (∀ j x, gos m2 !! j = Some x → x = Exited) as Hall.
  { intros j x Hx. destruct (decide (j < length fs0)%nat) as [Hlt|Hge].
    - rewrite H3 in Hx by done. congruence.
    - assert (j ∈ order) as Hin.
      { rewrite Hperm. apply elem_of_seq. apply lookup_lt_Some in Hx.
        rewrite (L_len _ _ _ H1) in Hx. lia. }
      apply H4 in Hin as [_ Hin]. congruence. }
  split; [|split; [|split; [done|split; [done|split]]]].
  - split; simpl; [|done|done]. destruct H1. split; simpl; try done.
    all: destruct L_err0 as [(E1 & E2 & E4)|(E1 & E3)]; [left|right]; simpl; done.
  - assert (vals' = sent c fs <$> order) as ->.
    { apply list_eq. intros p. rewrite list_lookup_fmap.
      destruct (order !! p) as [j|] eqn:Hp; simpl.
      + destruct (H7 _ _ Hp) as (f & Hf & Hv). unfold sent. by rewrite Hf.
      + apply lookup_ge_None. apply lookup_ge_None in Hp. lia. }
    rewrite Hperm. unfold fs. by rewrite rounds_sent_new.
  - destruct (L_err _ _ _ H1) as [(E1 & E2 & E4)|(E1 & j & f & e & Hj & Hf & He)].
    + left. split; [done|]. intros j f Hj. destruct (f _).2 as [e|] eqn:Hf; [|done].
      destruct (lookup_lt_is_Some_2 (gos m2) j) as [x Hx].
      { rewrite (L_len _ _ _ H1). by eapply lookup_lt_Some. }
      specialize (E4 _ _ _ _ Hj Hf Hx). rewrite (Hall _ _ Hx) in E4. simpl in E4. lia.
    + right. exists e. split; [done|]. by exists j, f.
  - intros e0 He0.
    assert (recorded e0 m2) as [_ Hr]; [|done].
    eapply rounds_recorded_drain; [done|]. apply rounds_recorded_exec.
    eapply rounds_Inv_recorded; [apply HQ|done].
Qed.

Lemma rounds_Wait_live c fs0 m (acts : list (action V E)) sched :
  Quiet c fs0 m → Z.of_nat (length (submitted acts)) < uint_modulus →
  (∀ j, (length fs0 ≤ j < length fs0 + length (submitted acts))%nat →
        (3 ≤ turns j sched)%nat) →
  ∃ r, Wait sched (exec acts m) = Ret r.
Proof.
  intros HQ Hk Hfair. destruct (rounds_Wait_start _ _ _ acts HQ Hk) as [Hc HI].
  destruct (rounds_drain_live _ _ _ sched _ _ _ _ HI) as [[vals' m1] Hd].
  { rewrite length_replicate, length_app. lia. }
  { intros j x Hj. destruct (decide (j < length fs0)%nat) as [Hlt|Hge].
    - rewrite (F_old _ _ _ _ _ _ _ HI) in Hj by done. injection Hj as <-. simpl. lia.
    - apply lookup_lt_Some in Hj.
      rewrite (L_len _ _ _ (F_inv _ _ _ _ _ _ _ HI)), length_app in Hj.
      assert (3 ≤ turns j sched)%nat by (apply Hfair; lia). lia. }
  unfold Wait. rewrite Hc, Hd. simpl.
  destruct (rounds_drain_safe _ _ _ _ _ _ _ _ _ _ HI Hd) as (order & HI' & Hlen).
  rewrite (L_cancel _ _ _ (F_inv _ _ _ _ _ _ _ HI')). eauto.
Qed.

Lemma rounds_Quiet_new c : Quiet (WithCancel c) [] (NewDynamic (V:=V) (E:=E) c).1.
Proof. split; [apply rounds_Life_new|done|done]. Qed.

(** Between rounds the error slot is empty exactly when no task so far
    has failed. *)
Lemma rounds_Quiet_None c fs m :
  Quiet c fs m → err (grp m) = None → all_succeed c fs.
Proof.
  intros [HL _ Hex] Hn f [j Hj]%list_elem_of_lookup.
  destruct (L_err _ _ _ HL) as [(E1 & E2 & E4)|(E1 & i & f' & e & _ & _ & He)]; [|congruence].
  destruct (f c).2 as [e|] eqn:Hf; [|done].
  destruct (lookup_lt_is_Some_2 (gos m) j) as [x Hx].
  { rewrite (L_len _ _ _ HL). by eapply lookup_lt_Some. }
  specialize (E4 _ _ _ _ Hj Hf Hx). rewrite (Hex _ _ Hx) in E4. simpl in E4. lia.
Qed.

Lemma rounds_submitted_all_cons (r : list (action V E) * list nat) rs :
  submitted_all (r :: rs) = submitted r.1 ++ submitted_all rs.
Proof. done. Qed.

Lemma rounds_all_succeed_app c fs1 fs2 :
  all_succeed c (fs1 ++ fs2) ↔ all_succeed c fs1 ∧ all_succeed c fs2.
Proof.
  unfold all_succeed. split.
  - intros H. split; intros f Hf; apply H, elem_of_app; auto.
  - intros [H1 H2] f [?|?]%elem_of_app; auto.
Qed.

Lemma rounds_returned_by_new c fs1 fs2 (e : E) :
  all_succeed c fs1 → returned_by c (fs1 ++ fs2) e → returned_by c fs2 e.
Proof.
  intros Hok (i & f & Hi & Hf). apply lookup_app_Some in Hi as [Hi|[_ Hi]].
  - rewrite (Hok f) in Hf; [done|]. by eapply list_elem_of_lookup_2.
  - by exists (i - length fs1)%nat, f.
Qed.

Lemma rounds_spec c : ∀ rs fs0 m res m',
  Quiet c fs0 m → rounds_counted rs → rounds rs m = Ret (res, m') →
  Quiet c (fs0 ++ submitted_all rs) m' ∧
  Forall2 (λ r out, out.1 ≡ₚ (λ f, (f c).1) <$> submitted r.1) rs res ∧
  (∀ e0, err (grp m) = Some e0 → ∀ k out, res !! k = Some out → out.2 = Some e0) ∧
  (∀ k k' out out' e, (k ≤ k')%nat → res !! k = Some out → res !! k' = Some out' →
     out.2 = Some e → out'.2 = Some e) ∧
  (err (grp m) = None → ∀ k out, res !! k = Some out →
     (out.2 = None ∧ all_succeed c (submitted_all (take (S k) rs)))
     ∨ ∃ k0 r0 e, (k0 ≤ k)%nat ∧ rs !! k0 = Some r0 ∧ out.2 = Some e ∧
                  returned_by c (submitted r0.1) e ∧
                  all_succeed c (submitted_all (take k0 rs))).
Proof.
  induction rs as [|[acts sched] rs IH]; intros fs0 m res m' HQ Hcnt; simpl.
  - intros [= <- <-]. unfold submitted_all. simpl. rewrite app_nil_r.
    split; [done|]. split; [constructor|]. repeat split; intros; simplify_list_eq.
  - apply Forall_cons in Hcnt as [Hk Hcnt]. simpl in Hk.
    destruct (Wait sched (exec acts m)) as [[[vals e] m1]| |] eqn:Hw; try done.
    destruct (rounds rs m1) as [[res1 m2]| |] eqn:Hrs; try done.
    intros [= <- <-].
    destruct (rounds_Wait_safe _ _ _ _ _ _ _ _ HQ Hk Hw)
      as (HQ1 & Hperm & He1 & _ & Hres & Hkeep).
    destruct (IH _ _ _ _ HQ1 Hcnt Hrs) as (HQ2 & Hvals & Hold & Hchain & Hfirst).
    rewrite rounds_submitted_all_cons. simpl. rewrite app_assoc.
    split; [done|]. split; [by constructor|]. split; [|split].
    + intros e0 He0 [|k] out Hout; simpl in Hout.
      * injection Hout as <-. by apply Hkeep.
      * eapply Hold; [|done]. rewrite He1. by apply Hkeep.
    + intros [|k] [|k'] out out' e' Hkk Hout Hout' He'; simpl in Hout, Hout'.
      * congruence.
      * injection Hout as <-. simpl in He'. eapply Hold; [|done]. by rewrite He1.
      * lia.
      * eapply (Hchain k k'); [lia|done..].
    + intros Hnone. pose proof (rounds_Quiet_None _ _ _ HQ Hnone) as Hok0.
      destruct e as [e|].
      * (* the first error appears in this round *)
        assert (returned_by c (submitted acts) e) as Hret.
        { destruct Hres as [[? _]|(e' & [= <-] & Hret)]; [done|].
          by eapply rounds_returned_by_new. }
        intros k out Hout. right. exists 0%nat, (acts, sched), e.
        split; [lia|]. split; [done|]. split; [|split; [done|]].
        -- destruct k as [|k]; simpl in Hout; [by injection Hout as <-|].
           eapply Hold; [|done]. by rewrite He1.
        -- intros f Hf. by apply elem_of_nil in Hf.
      * assert (all_succeed c (submitted acts)) as Hok1.
        { pose proof (rounds_Quiet_None _ _ _ HQ1 He1) as Hok.
          by apply rounds_all_succeed_app in Hok as [_ ?]. }
        intros [|k] out Hout; simpl in Hout.
        -- injection Hout as <-. left. split; [done|]. rewrite take_0.
           rewrite rounds_submitted_all_cons. unfold submitted_all. simpl.
           by rewrite app_nil_r.
        -- destruct (Hfirst He1 _ _ Hout) as [[Ho Hok]|(k0 & r0 & e & Hk0 & Hr0 & Ho & Hr & Hok)].
           ++ left. split; [done|]. simpl. rewrite rounds_submitted_all_cons.
              by apply rounds_all_succeed_app.
           ++ right. exists (S k0), r0, e. split; [lia|]. split; [done|].
              split; [done|]. split; [done|]. simpl.
              rewrite rounds_submitted_all_cons. by apply rounds_all_succeed_app.
Qed.

Lemma rounds_live c : ∀ rs fs0 m,
  Quiet c fs0 m → rounds_counted rs → rounds_fair (length fs0) rs = true →
  ∃ res m', rounds rs m = Ret (res, m').
Proof.
  induction rs as [|[acts sched] rs IH]; intros fs0 m HQ Hcnt Hfair; simpl; [eauto|].
  apply Forall_cons in Hcnt as [Hk Hcnt]. simpl in Hk, Hfair.
  apply andb_true_iff in Hfair as [Hf1 Hf2]. rewrite forallb_forall in Hf1.
  destruct (rounds_Wait_live _ _ _ acts sched HQ Hk) as [[[vals e] m1] Hw].
  { intros j Hj. apply Nat.leb_le, Hf1, in_seq. lia. }
  rewrite Hw. destruct (rounds_Wait_safe _ _ _ _ _ _ _ _ HQ Hk Hw) as (HQ1 & _).
  destruct (IH _ _ HQ1 Hcnt) as (res & m' & ->); [by rewrite length_app|]. eauto.
Qed.

(** [Life] alone through a round, whatever [count] has wrapped to. *)
Lemma rounds_Life_recv c fs m j v :
  Life c fs m → gos m !! j = Some (Sending v) →
  Life c fs (mkMachine (grp m) (<[j := Exited]> (gos m))).
Proof.
  intros H1 Hj.
  assert (j < length (gos m))%nat as Hlt by (by eapply lookup_lt_Some).
  destruct H1 as [D1 D2 Dc D3 D4 D5]. split; simpl; try done.
  - by rewrite length_insert.
  - intros k f' Hk. destruct (decide (k = j)) as [->|Hne].
    + rewrite list_lookup_insert_eq by done. eauto.
    + rewrite list_lookup_insert_ne by done. auto.
  - destruct D5 as [(E1 & E2 & E4)|(E1 & E3)].
    + left. simpl. repeat split; try done. intros k f' e x Hk Hf' Hxk.
      destruct (decide (k = j)) as [->|Hne].
      * specialize (E4 _ _ _ _ Hk Hf' Hj). simpl in E4. lia.
      * rewrite list_lookup_insert_ne in Hxk by done. eauto.
    + right. simpl. split; done.
Qed.

Lemma rounds_Life_drain c fs sched : ∀ i vals m,
  Life c fs m →
  drain sched i vals m = Blocked ∨
  ∃ vals' m', drain sched i vals m = Ret (vals', m') ∧ Life c fs m'.
Proof.
  induction sched as [|j sched IH]; intros i vals m HL; simpl.
  - case_decide; eauto.
  - case_decide; [|eauto].
    destruct (gos m !! j) as [[f|v e|v|]|] eqn:Hj;
      try (apply IH; by apply rounds_Life_step).
    rewrite (L_chan _ _ _ HL). apply IH. by eapply rounds_Life_recv.
Qed.

Lemma rounds_Life_Wait c fs sched m :
  Life c fs m →
  Wait sched m = Blocked ∨
  ∃ vals e m', Wait sched m = Ret (vals, e, m') ∧ Life c fs m' ∧
               ctx_done (grp m') = true.
Proof.
  intros HL. unfold Wait.
  destruct (rounds_Life_drain _ _ sched 0
              (replicate (Z.to_nat (count (grp m))) zero) _ HL)
    as [->|(vals' & m1 & -> & HL1)]; [by left|].
  right. simpl. rewrite (L_cancel _ _ _ HL1). eexists _, _, _. split; [done|].
  split; [|done]. destruct HL1. split; simpl; try done.
  all: destruct L_err0 as [(E1 & E2 & E4)|(E1 & E3)]; [left|right]; simpl; done.
Qed.

(** Reuse as such is safe: whatever is submitted and however the
    goroutines are scheduled, the rounds block or return. *)
Lemma rounds_Life_rounds c : ∀ rs fs m,
  Life c fs m →
  rounds rs m = Blocked ∨
  ∃ res m', rounds rs m = Ret (res, m') ∧ Life c (fs ++ submitted_all rs) m' ∧
            (rs ≠ [] → ctx_done (grp m') = true).
Proof.
  induction rs as [|[acts sched] rs IH]; intros fs m HL; simpl.
  - right. eexists _, _. split; [done|]. unfold submitted_all. simpl.
    by rewrite app_nil_r.
  - pose proof (rounds_exec_Inv _ _ _ acts HL) as HL1.
    destruct (rounds_Life_Wait _ _ sched _ HL1) as [->|(vals & e & m1 & -> & HL2 & Hd)];
      [by left|].
    destruct (IH _ _ HL2) as [->|(res & m2 & Hrs & HL3 & Hd2)]; [by left|].
    rewrite Hrs. right. eexists _, _. split; [done|].
    rewrite rounds_submitted_all_cons. simpl. rewrite app_assoc. split; [done|].
    intros _. destruct rs as [|r rs]; [|by apply Hd2].
    simpl in Hrs. by injection Hrs as <- <-.
Qed.


Lemma rounds_done_step j m :
  ctx_done (grp m) = true → ctx_done (grp (step j m)) = true.
Proof.
  intros Hd. unfold step. destruct (gos m !! j) as [[f|v [e|]|v|]|]; try done.
  - by destruct (f _).
  - simpl. unfold errOnce_Do. destruct (errOnce _); [done|]. simpl.
    by destruct (cancel _).
Qed.

Lemma rounds_done_exec (acts : list (action V E)) m :
  ctx_done (grp m) = true → ctx_done (grp (exec acts m)) = true.
Proof.
  induction acts as [|a acts IH] using rev_ind; [done|]. intros Hd.
  rewrite DynamicFacts.dynamic_exec_snoc. destruct a as [f|j]; simpl.
  - by apply IH.
  - by apply rounds_done_step, IH.
Qed.

End Facts.
End DynamicRoundsFacts.

(** * Groups not made by [New] or [NewDynamic] *)

Section Unmade.
Context {V E : Type} `{!Zero V}.

Lemma grouper_step_cancel j (st st' : Grouper.frame V E) :
  Grouper.step j st = Ret st' →
  Grouper.cancel (Grouper.grp st') = Grouper.cancel (Grouper.grp st).
Proof.
  unfold Grouper.step.
  destruct (Grouper.gos st !! j) as [[f|v [e|]| |]|]; try (by intros [= <-]).
  - destruct (f _). by intros [= <-].
  - intros [= <-]. simpl. unfold Grouper.errOnce_Do. by destruct (Grouper.errOnce _).
  - unfold Grouper.wg_Done. case_decide; [done|]. by intros [= <-].
Qed.

Lemma grouper_run_cancel sched (st st' : Grouper.frame V E) :
  Grouper.run sched st = Ret st' →
  Grouper.cancel (Grouper.grp st') = Grouper.cancel (Grouper.grp st).
Proof.
  revert st. induction sched as [|j sched IH]; intros st; simpl; [by intros [= <-]|].
  destruct (Grouper.step j st) as [st1| |] eqn:Hstep; try done.
  intros Hrun. rewrite (IH _ Hrun). by eapply grouper_step_cancel.
Qed.

Lemma grouper_run_no_goroutines sched (st : Grouper.frame V E) :
  Grouper.gos st = [] → Grouper.run sched st = Ret st.
Proof.
  intros Hg. induction sched as [|j sched IH]; [done|]. simpl.
  unfold Grouper.step. by rewrite Hg, lookup_nil.
Qed.

Lemma dynamic_step_chan j (m : Dynamic.machine V E) :
  Dynamic.valueChan (Dynamic.grp (Dynamic.step j m)) = Dynamic.valueChan (Dynamic.grp m) ∧
  Dynamic.cancel (Dynamic.grp (Dynamic.step j m)) = Dynamic.cancel (Dynamic.grp m) ∧
  Dynamic.count (Dynamic.grp (Dynamic.step j m)) = Dynamic.count (Dynamic.grp m).
Proof.
  unfold Dynamic.step. destruct (Dynamic.gos m !! j) as [[f|v [e|]|v|]|]; try done.
  - by destruct (f _).
  - simpl. unfold Dynamic.errOnce_Do. by destruct (Dynamic.errOnce _).
Qed.

(** On a nil channel the receive loop never gets past its first
    receive, and the goroutines run on without a state of the group
    that [Wait] looks at changing. *)
Lemma dynamic_drain_nil_chan sched : ∀ i vals (m : Dynamic.machine V E),
  Dynamic.valueChan (Dynamic.grp m) = false →
  Dynamic.drain sched i vals m
  = if decide (i < length vals)%nat then Blocked else Ret (vals, m).
Proof.
  induction sched as [|j sched IH]; intros i vals m Hc; simpl; [done|].
  case_decide as Hi; [|done].
  destruct (dynamic_step_chan j m) as (Hs & _).
  destruct (Dynamic.gos m !! j) as [[f|v e|v|]|] eqn:Hj; rewrite ?Hc;
    rewrite IH by congruence; by rewrite decide_True.
Qed.
End Unmade.

(** * The specification, statement by statement *)

(** C7, as the code has it.  [New] of either fixed group panics with its
    own message exactly when it is given no function.  That of
    src/unnamed/part_000, which takes no context, panics in no other
    case and returns a group for every non-empty list.  That of
    src/grouper.go derives a context first: given a nil context it
    panics in [context.WithCancel], also on a non-empty list; it returns
    only for a non-empty list and a non-nil context, and then the
    context it returns is the one derived from the caller's; and for a
    list shorter than [WaitGroup_limit] it panics exactly when the list
    is empty or the context nil, and returns otherwise. *)
Theorem New_panics_on_no_funcs_or_nil_context {V E : Type}
    (c : Interface) (fs : list (func V E)) :
  (Grouper.New c fs = Panic "grouper.New cannot be created without funcs to call!"
   ↔ fs = []) ∧
  (fs ≠ [] → c = Nil →
   Grouper.New c fs = Panic "cannot create context from nil parent") ∧
  (∀ g c', Grouper.New c fs = Ret (g, c') →
     fs ≠ [] ∧ ∃ p, c = NonNil p ∧ c' = WithCancel p ∧ Grouper.ctx g = WithCancel p) ∧
  (Z.of_nat (length fs) < WaitGroup_limit →
   ((∃ msg, Grouper.New c fs = Panic msg) ↔ fs = [] ∨ c = Nil) ∧
   (∀ p, fs ≠ [] → c = NonNil p → ∃ g, Grouper.New c fs = Ret (g, WithCancel p))) ∧
  (Part000.New fs = Panic "grouper.New cannot be created without funcs to call!"
   ↔ fs = []) ∧
  ((∃ msg, Part000.New fs = Panic msg) ↔ fs = []) ∧
  ((∃ g, Part000.New fs = Ret g) ↔ fs ≠ []).
Proof.
  unfold Grouper.New, Part000.New. destruct fs as [|f fs]; simpl.
  - (* no function *)
    split; [done|]. split; [done|]. split; [done|].
    split; [intros _; split; [split; eauto|done]|].
    split; [done|]. split; [split; eauto|]. split; [by intros [? ?]|done].
  - assert ((Ret (Part000.mkGroup 0 false None (f :: fs))
             = Panic "grouper.New cannot be created without funcs to call!"
             ↔ f :: fs = []) ∧
            ((∃ msg, Ret (Part000.mkGroup 0 false None (f :: fs)) = Panic msg)
             ↔ f :: fs = []) ∧
            ((∃ g, Ret (Part000.mkGroup 0 false None (f :: fs)) = Ret g)
             ↔ f :: fs ≠ [])) as Hpart.
    { split; [done|]. split; [split; [by intros [? ?]|done]|]. split; [done|eauto]. }
    destruct c as [|p]; simpl.
    + (* a nil context *)
      split; [done|]. split; [done|]. split; [done|]. split; [|done].
      intros _. split; [split; [by right|eauto]|done].
    + split; [done|]. split; [done|]. split.
      { intros g c' [= <- <-]. split; [done|]. by exists p. }
      split; [|done]. intros _. split.
      * split; [by intros [? ?]|by intros [?|?]].
      * intros p' _ [= <-]. eauto.
Qed.

Lemma New_panics_on_no_funcs_or_nil_context_witness :
  (∃ g, Grouper.New Background [succeeding 1; failing 5 7]
        = Ret (g, WithCancel Background)) ∧
  ((∃ msg, Grouper.New Background [succeeding 1; failing 5 7] = Panic msg)
   ↔ [succeeding 1; failing 5 7] = [] ∨ NonNil Background = Nil).
Proof.
  refine ((λ H, conj (proj2 H Background _ _) (proj1 H))
            (proj1 (proj2 (proj2 (proj2
               (New_panics_on_no_funcs_or_nil_context (V:=nat) (E:=nat)
                  Background [succeeding 1; failing 5 7])))) _)).
  - discriminate.
  - reflexivity.
  - vm_compute; reflexivity.
Defined.

(** C7 fails on src/grouper.go: handed a nil context and a list of one
    function, [New] panics all the same, in [context.WithCancel]. *)
Lemma New_panics_on_a_nil_context :
  [succeeding 1] ≠ [] ∧
  Grouper.New Nil [succeeding 1] = Panic "cannot create context from nil parent" ∧
  ∃ msg, Grouper.New Nil [succeeding 1] = Panic msg.
Proof. split; [done|]. split; [reflexivity|]. by eexists. Qed.

(** C8. On a dynamic group for which [Go] was never called, [Wait]
    returns an empty slice and a nil error under every schedule, the
    empty one included: it receives nothing from the channel. *)
Theorem Wait_without_Go {V E : Type} `{!Zero V} (c : Context) (js sched : list nat) :
  ∃ m', Dynamic.Wait sched (Dynamic.exec (Dynamic.Sched <$> js)
                              (Dynamic.NewDynamic (V:=V) (E:=E) c).1)
        = Ret ([], None, m')
        ∧ Dynamic.ctx_done (Dynamic.grp m') = true.
Proof.
  rewrite dynamic_exec_idle. unfold Dynamic.Wait. simpl.
  destruct sched; simpl; eauto.
Qed.

(** C6. Whenever [Wait] returns, the context derived for the tasks is
    done: for the fixed group of src/grouper.go and for the dynamic group
    it is the context of the group, for src/unnamed/part_000 the context
    derived by this call.  Nothing is assumed of the tasks. *)
Theorem context_done_after_Wait {V E : Type} `{!Zero V} :
  (∀ sched (g : Grouper.Group V E) vals e g',
     Grouper.Wait sched g = Ret (vals, e, g') →
     Grouper.ctx g' = Grouper.ctx g ∧ Grouper.ctx_done g' = true) ∧
  (∀ (c : Context) sched (g : Part000.Group V E) w,
     Part000.Wait c sched g = Ret w →
     Part000.w_ctx w = WithCancel c ∧ Part000.w_ctx_done w = true) ∧
  (∀ sched (m : Dynamic.machine V E) vals e m',
     Dynamic.Wait sched m = Ret (vals, e, m') →
     Dynamic.ctx (Dynamic.grp m') = Dynamic.ctx (Dynamic.grp m) ∧
     Dynamic.ctx_done (Dynamic.grp m') = true).
Proof.
  repeat split.
  - revert H. unfold Grouper.Wait.
    destruct (Grouper.run _ _) as [st| |] eqn:Hrun; try done.
    case_decide; [|done]. destruct (Grouper.cancel _); [|done]. intros [= _ _ <-].
    simpl. by rewrite (grouper_run_ctx _ _ _ Hrun).
  - revert H. unfold Grouper.Wait. destruct (Grouper.run _ _) as [st| |]; try done.
    case_decide; [|done]. destruct (Grouper.cancel _); [|done]. by intros [= _ _ <-].
  - revert H. unfold Part000.Wait. cbn [context_WithCancel].
    destruct (Part000.run _ _) as [st| |] eqn:Hrun; try done.
    case_decide; [|done]. intros [= <-]. simpl. by rewrite (part000_run_ctx _ _ _ Hrun).
  - revert H. unfold Part000.Wait. cbn [context_WithCancel].
    destruct (Part000.run _ _) as [st| |]; try done.
    case_decide; [|done]. by intros [= <-].
  - revert H. unfold Dynamic.Wait.
    destruct (Dynamic.drain _ _ _ _) as [[vals' m1]| |] eqn:Hd; try done. simpl.
    destruct (Dynamic.cancel _); [|done]. intros [= _ _ <-]. simpl.
    by rewrite (dynamic_drain_ctx _ _ _ _ _ _ Hd).
  - revert H. unfold Dynamic.Wait.
    destruct (Dynamic.drain _ _ _ _) as [[vals' m1]| |]; try done. simpl.
    destruct (Dynamic.cancel _); [|done]. by intros [= _ _ <-].
Qed.

Lemma context_done_after_Wait_witness :
  (∃ r, Grouper.Wait [0; 1; 0; 1; 1; 0]%nat
          (GrouperInv.init (WithCancel Background) [succeeding 1; failing 5 7])
        = Ret r ∧ Grouper.ctx_done r.2 = true) ∧
  (∃ r, Grouper.Wait [0; 0; 0]%nat
          (GrouperInv.init (WithCancel Background) [succeeding 1])
        = Ret r ∧ Grouper.ctx_done r.2 = true) ∧
  (∃ w, Part000.Wait Background [0; 0; 0; 0]%nat (Part000.mkGroup 0 false None [succeeding 1])
        = Ret w ∧ Part000.w_ctx_done w = true) ∧
  (∃ r, Dynamic.Wait [0; 0; 0]%nat
          (Dynamic.Go (failing 5 7) (Dynamic.NewDynamic Background).1)
        = Ret r ∧ Dynamic.ctx_done (Dynamic.grp r.2) = true).
Proof.
  pose proof (context_done_after_Wait (V:=nat) (E:=nat)) as (HG & HP & HD).
  repeat split.
  - eexists (_, _, _). split; [vm_compute; reflexivity|].
    refine (proj2 (HG [0; 1; 0; 1; 1; 0]%nat
                      (GrouperInv.init (WithCancel Background) [succeeding 1; failing 5 7])
                      _ _ _ _)).
    vm_compute; reflexivity.
  - eexists (_, _, _). split; [vm_compute; reflexivity|].
    refine (proj2 (HG [0; 0; 0]%nat
                      (GrouperInv.init (WithCancel Background) [succeeding 1])
                      _ _ _ _)).
    vm_compute; reflexivity.
  - eexists. split; [vm_compute; reflexivity|].
    refine (proj2 (HP Background [0; 0; 0; 0]%nat
                      (Part000.mkGroup 0 false None [succeeding 1]) _ _)).
    vm_compute; reflexivity.
  - eexists (_, _, _). split; [vm_compute; reflexivity|].
    refine (proj2 (HD [0; 0; 0]%nat
                      (Dynamic.Go (failing 5 7) (Dynamic.NewDynamic Background).1)
                      _ _ _ _)).
    vm_compute; reflexivity.
Defined.

(** C2. When every task of a non-empty list returns a nil error, [Wait]
    of either fixed group returns, under every schedule that lets each
    goroutine finish, a nil error and the slice whose element [i] is the
    value task [i] returned (so of the length of the list); under any
    other schedule it is still blocked. *)
Theorem Wait_all_succeed {V E : Type} `{!Zero V} (c : Context) (fs : list (func V E)) :
  fs ≠ [] →
  (∀ i f, fs !! i = Some f → (f (WithCancel c)).2 = None) →
  (∃ g, Grouper.New c fs = Ret (g, WithCancel c) ∧
     ∀ sched,
       if fair 3 (length fs) sched
       then ∃ g', Grouper.Wait sched g
                  = Ret ((λ f, (f (WithCancel c)).1) <$> fs, None, g')
       else Grouper.Wait sched g = Blocked) ∧
  (∃ g, Part000.New fs = Ret g ∧
     ∀ sched,
       if fair 4 (length fs) sched
       then ∃ w, Part000.Wait c sched g = Ret w ∧
                 Part000.w_values w = (λ f, (f (WithCancel c)).1) <$> fs ∧
                 Part000.w_err w = None
       else Part000.Wait c sched g = Blocked).
Proof.
  intros Hne Hok. split.
  - eexists. split; [by apply GrouperFacts.grouper_New_init|]. intros sched.
    rewrite GrouperFacts.grouper_Wait_exact. destruct (fair _ _ _); [|done].
    simpl. rewrite first_error_no_failure by done. eexists. do 3 f_equal.
    apply list_eq. intros i. rewrite !list_lookup_fmap.
    destruct (fs !! i) as [f|] eqn:Hf; [|done]. simpl. unfold slot.
    by rewrite (Hok _ _ Hf).
  - eexists. split; [by apply Part000Facts.part000_New_init|]. intros sched.
    rewrite Part000Facts.part000_Wait_exact by done. destruct (fair _ _ _); [|done].
    simpl. rewrite first_error_no_failure by done. eexists. split; [done|]. done.
Qed.

Lemma Wait_all_succeed_witness :
  (∃ g, Grouper.New Background [succeeding 1; succeeding 2; succeeding 3]
        = Ret (g, WithCancel Background) ∧
     ∀ sched,
       if fair 3 3 sched
       then ∃ g', Grouper.Wait sched g = Ret ([1; 2; 3]%nat, None, g')
       else Grouper.Wait sched g = Blocked) ∧
  (∃ g, Part000.New [succeeding 1; succeeding 2; succeeding 3] = Ret g ∧
     ∀ sched,
       if fair 4 3 sched
       then ∃ w, Part000.Wait Background sched g = Ret w ∧
                 Part000.w_values w = [1; 2; 3]%nat ∧ Part000.w_err w = None
       else Part000.Wait Background sched g = Blocked).
Proof.
  apply (Wait_all_succeed Background [succeeding 1; succeeding 2; succeeding 3]).
  - discriminate.
  - intros [|[|[|i]]] f Hi; simpl in Hi; [injection Hi as <-; reflexivity ..|discriminate].
Defined.

(** C1. When at least one task returns a non-nil error, [Wait] returns a
    non-nil error, and that error is the one returned by one of the
    failing tasks: for the fixed groups under every schedule that lets
    each goroutine finish (any other leaves [Wait] blocked), for the
    dynamic group whenever [Wait] returns, which it does under every
    schedule that gives each goroutine three turns.  In particular, if
    [e0] is the only error the tasks return, [Wait] returns [e0]. *)
Theorem Wait_reports_one_task_error {V E : Type} `{!Zero V}
    (c : Context) (fs : list (func V E)) (e0 : E) :
  returned_by (WithCancel c) fs e0 →
  (* src/grouper.go *)
  (∃ g, Grouper.New c fs = Ret (g, WithCancel c) ∧
     ∀ sched,
       if fair 3 (length fs) sched
       then ∃ vals e g', Grouper.Wait sched g = Ret (vals, Some e, g') ∧
                         returned_by (WithCancel c) fs e
       else Grouper.Wait sched g = Blocked) ∧
  (* src/unnamed/part_000, first call of Wait *)
  (∃ g, Part000.New fs = Ret g ∧
     ∀ sched,
       if fair 4 (length fs) sched
       then ∃ w e, Part000.Wait c sched g = Ret w ∧ Part000.w_err w = Some e ∧
                   returned_by (WithCancel c) fs e
       else Part000.Wait c sched g = Blocked) ∧
  (* src/dynamic.go *)
  (∀ acts sched,
     Dynamic.submitted acts = fs → Z.of_nat (length fs) < uint_modulus →
     let m := Dynamic.exec acts (Dynamic.NewDynamic c).1 in
     (fair 3 (length fs) sched = true → ∃ r, Dynamic.Wait sched m = Ret r) ∧
     (∀ vals e m', Dynamic.Wait sched m = Ret (vals, e, m') →
        ∃ e', e = Some e' ∧ returned_by (WithCancel c) fs e')) ∧
  (* a single error to choose from *)
  ((∀ e, returned_by (WithCancel c) fs e → e = e0) →
   (∀ g sched vals e g',
      Grouper.New c fs = Ret (g, WithCancel c) →
      Grouper.Wait sched g = Ret (vals, e, g') → e = Some e0) ∧
   (∀ acts sched vals e m',
      Dynamic.submitted acts = fs → Z.of_nat (length fs) < uint_modulus →
      Dynamic.Wait sched (Dynamic.exec acts (Dynamic.NewDynamic c).1) = Ret (vals, e, m') →
      e = Some e0)).
Proof.
  intros Hfail.
  assert (fs ≠ []) as Hne.
  { destruct Hfail as (i & f & Hi & _). by intros ->. }
  assert (∀ k sched, (2 ≤ k)%nat → fair k (length fs) sched = true →
            ∃ e, first_error (WithCancel c) fs sched = Some e ∧
                 returned_by (WithCancel c) fs e) as Hfirst.
  { intros k sched Hk Hfair. eapply first_error_fair; [|done].
    apply fair_spec. intros i Hi. rewrite fair_spec in Hfair. specialize (Hfair _ Hi). lia. }
  assert (∀ acts sched vals e m',
      Dynamic.submitted acts = fs → Z.of_nat (length fs) < uint_modulus →
      Dynamic.Wait sched (Dynamic.exec acts (Dynamic.NewDynamic c).1) = Ret (vals, e, m') →
      ∃ e', e = Some e' ∧ returned_by (WithCancel c) fs e') as Hdyn.
  { intros acts sched vals e m' <- Hk Hw.
    destruct (DynamicFacts.dynamic_Wait_safe _ _ _ _ _ _ Hk Hw)
      as (order & _ & _ & [[_ Hnone]|Hsome] & _); [|done].
    destruct Hfail as (i & f & Hi & Hf). rewrite (Hnone _ _ Hi) in Hf. done. }
  split; [|split; [|split]].
  - eexists. split; [by apply GrouperFacts.grouper_New_init|]. intros sched.
    rewrite GrouperFacts.grouper_Wait_exact.
    destruct (fair _ _ _) eqn:Hfair; [|done]. simpl.
    destruct (Hfirst 3%nat sched) as (e & -> & He); [lia|done|]. eauto.
  - eexists. split; [by apply Part000Facts.part000_New_init|]. intros sched.
    rewrite Part000Facts.part000_Wait_exact by done.
    destruct (fair _ _ _) eqn:Hfair; [|done]. simpl.
    destruct (Hfirst 4%nat sched) as (e & -> & He); [lia|done|]. eauto.
  - intros acts sched Hsub Hk m. split; [|intros vals e m'; by apply Hdyn].
    intros Hfair. subst fs. by apply DynamicFacts.dynamic_Wait_live.
  - intros Honly. split.
    + intros g sched vals e g' Hnew. rewrite GrouperFacts.grouper_New_init in Hnew by done.
      injection Hnew as <-. rewrite GrouperFacts.grouper_Wait_exact.
      destruct (fair _ _ _) eqn:Hfair; [|done]. simpl. intros [= _ <- _].
      destruct (Hfirst 3%nat sched) as (e & -> & He); [lia|done|]. by rewrite (Honly _ He).
    + intros acts sched vals e m' Hsub Hk Hw.
      destruct (Hdyn _ _ _ _ _ Hsub Hk Hw) as (e' & -> & He). by rewrite (Honly _ He).
Qed.

Lemma Wait_reports_one_task_error_witness :
  (∃ vals e g',
     Grouper.Wait [2; 0; 1; 0; 2; 1; 0; 1; 2]%nat
       (GrouperInv.init (WithCancel Background) [succeeding 1; failing 0 7; succeeding 3])
     = Ret (vals, e, g') ∧ e = Some 7%nat) ∧
  (∃ vals e m',
     Dynamic.Wait [1; 1; 0; 1]%nat
       (Dynamic.exec [Dynamic.DoGo (failing 0 7); Dynamic.Sched 0%nat;
                      Dynamic.DoGo (succeeding 2); Dynamic.Sched 0%nat]
                     (Dynamic.NewDynamic Background).1)
     = Ret (vals, e, m') ∧ e = Some 7%nat).
Proof.
  assert (returned_by (WithCancel Background)
            [succeeding 1; failing 0 7; succeeding 3] 7%nat) as H1.
  { exists 1%nat, (failing 0 7). split; reflexivity. }
  assert (returned_by (WithCancel Background) [failing 0 7; succeeding 2] 7%nat) as H2.
  { exists 0%nat, (failing 0 7). split; reflexivity. }
  split.
  - eexists _, _, _. split; [vm_compute; reflexivity|].
    refine (proj1 (proj2 (proj2 (proj2 (Wait_reports_one_task_error Background
              [succeeding 1; failing 0 7; succeeding 3] 7%nat H1))) _)
              _ [2; 0; 1; 0; 2; 1; 0; 1; 2]%nat _ _ _ eq_refl _);
      [|vm_compute; reflexivity].
    intros e ([|[|[|i]]] & f & Hi & Hf); simpl in Hi; try discriminate;
      injection Hi as <-; simpl in Hf; congruence.
  - eexists _, _, _. split; [vm_compute; reflexivity|].
    refine (proj2 (proj2 (proj2 (proj2 (Wait_reports_one_task_error Background
              [failing 0 7; succeeding 2] 7%nat H2))) _)
              [Dynamic.DoGo (failing 0 7); Dynamic.Sched 0%nat;
               Dynamic.DoGo (succeeding 2); Dynamic.Sched 0%nat]
              [1; 1; 0; 1]%nat _ _ _ eq_refl eq_refl _);
      [|vm_compute; reflexivity].
    intros e ([|[|i]] & f & Hi & Hf); simpl in Hi; try discriminate;
      injection Hi as <-; simpl in Hf; congruence.
Defined.

(** C3. After exactly [K] calls of [Go] on a new dynamic group (with the
    scheduler free to run the goroutines in between), [Wait] returns
    under every schedule that gives each goroutine three turns, and
    whenever it returns its slice has [K] elements, one for each
    submitted task, failing or not, in the order the goroutines were
    received from. *)
Theorem Wait_drains_one_value_per_Go {V E : Type} `{!Zero V}
    (c : Context) (acts : list (Dynamic.action V E)) (sched : list nat) :
  let fs := Dynamic.submitted acts in
  let K := length fs in
  let m := Dynamic.exec acts (Dynamic.NewDynamic c).1 in
  Z.of_nat K < uint_modulus →
  (fair 3 K sched = true → ∃ r, Dynamic.Wait sched m = Ret r) ∧
  (∀ vals e m', Dynamic.Wait sched m = Ret (vals, e, m') →
     length vals = K ∧
     ∃ order, order ≡ₚ seq 0 K ∧ vals = sent (WithCancel c) fs <$> order).
Proof.
  intros fs K m Hk. split; [by apply DynamicFacts.dynamic_Wait_live|].
  intros vals e m' Hw.
  destruct (DynamicFacts.dynamic_Wait_safe _ _ _ _ _ _ Hk Hw) as (order & Hperm & -> & _).
  split; [|eauto]. by rewrite length_fmap, Hperm, length_seq.
Qed.

Lemma Wait_drains_one_value_per_Go_witness :
  (fair 3 2 [1; 1; 0; 1]%nat = true →
   ∃ r, Dynamic.Wait [1; 1; 0; 1]%nat
          (Dynamic.exec [Dynamic.DoGo (failing 5 7); Dynamic.Sched 0%nat;
                         Dynamic.DoGo (succeeding 2); Dynamic.Sched 0%nat]
                        (Dynamic.NewDynamic Background).1) = Ret r) ∧
  (∀ vals e m',
     Dynamic.Wait [1; 1; 0; 1]%nat
       (Dynamic.exec [Dynamic.DoGo (failing 5 7); Dynamic.Sched 0%nat;
                      Dynamic.DoGo (succeeding 2); Dynamic.Sched 0%nat]
                     (Dynamic.NewDynamic Background).1) = Ret (vals, e, m') →
     length vals = 2%nat ∧
     ∃ order, order ≡ₚ seq 0 2 ∧
              vals = sent (WithCancel Background) [failing 5 7; succeeding 2] <$> order).
Proof.
  apply (Wait_drains_one_value_per_Go Background
           [Dynamic.DoGo (failing 5 7); Dynamic.Sched 0%nat;
            Dynamic.DoGo (succeeding 2); Dynamic.Sched 0%nat] [1; 1; 0; 1]%nat).
  reflexivity.
Defined.

(** C4, as the code has it.  Under every schedule that lets each
    goroutine finish, the slice [Wait] returns has one slot per task, and
    - in src/grouper.go the slot of a task that returned a non-nil error
      holds the zero value, whatever value came with the error, and the
      slot of any other task holds the value it returned;
    - in src/unnamed/part_000 every slot holds the value its task
      returned, also beside a non-nil error. *)
Theorem Wait_values_by_index {V E : Type} `{!Zero V} (c : Context) (fs : list (func V E)) :
  fs ≠ [] →
  (∃ g, Grouper.New c fs = Ret (g, WithCancel c) ∧
     ∀ sched,
       if fair 3 (length fs) sched
       then ∃ vals e g', Grouper.Wait sched g = Ret (vals, e, g') ∧
              length vals = length fs ∧
              ∀ i f, fs !! i = Some f →
                vals !! i = Some (match (f (WithCancel c)).2 with
                                  | None => (f (WithCancel c)).1
                                  | Some _ => zero
                                  end)
       else Grouper.Wait sched g = Blocked) ∧
  (∃ g, Part000.New fs = Ret g ∧
     ∀ sched,
       if fair 4 (length fs) sched
       then ∃ w, Part000.Wait c sched g = Ret w ∧
              length (Part000.w_values w) = length fs ∧
              ∀ i f, fs !! i = Some f →
                Part000.w_values w !! i = Some (f (WithCancel c)).1
       else Part000.Wait c sched g = Blocked).
Proof.
  intros Hne. split.
  - eexists. split; [by apply GrouperFacts.grouper_New_init|]. intros sched.
    rewrite GrouperFacts.grouper_Wait_exact. destruct (fair _ _ _); [|done].
    simpl. eexists _, _, _. split; [done|]. split; [by rewrite length_fmap|].
    intros i f Hi. by rewrite list_lookup_fmap, Hi.
  - eexists. split; [by apply Part000Facts.part000_New_init|]. intros sched.
    rewrite Part000Facts.part000_Wait_exact by done. destruct (fair _ _ _); [|done].
    simpl. eexists. split; [done|]. simpl. split; [by rewrite length_fmap|].
    intros i f Hi. by rewrite list_lookup_fmap, Hi.
Qed.

Lemma Wait_values_by_index_witness :
  (∃ g, Grouper.New Background [succeeding 1; failing 5 7] = Ret (g, WithCancel Background) ∧
     ∀ sched,
       if fair 3 2 sched
       then ∃ vals e g', Grouper.Wait sched g = Ret (vals, e, g') ∧
              length vals = 2%nat ∧
              ∀ i f, [succeeding 1; failing 5 7] !! i = Some f →
                vals !! i = Some (match (f (WithCancel Background)).2 with
                                  | None => (f (WithCancel Background)).1
                                  | Some _ => zero
                                  end)
       else Grouper.Wait sched g = Blocked) ∧
  (∃ g, Part000.New [succeeding 1; failing 5 7] = Ret g ∧
     ∀ sched,
       if fair 4 2 sched
       then ∃ w, Part000.Wait Background sched g = Ret w ∧
              length (Part000.w_values w) = 2%nat ∧
              ∀ i f, [succeeding 1; failing 5 7] !! i = Some f →
                Part000.w_values w !! i = Some (f (WithCancel Background)).1
       else Part000.Wait Background sched g = Blocked).
Proof.
  apply (Wait_values_by_index Background [succeeding 1; failing 5 7]). discriminate.
Defined.

(** C4 fails on src/unnamed/part_000: the one task returns 5 beside a
    non-nil error, and in every run in which [Wait] returns slot 0 holds
    5, not the zero value. *)
Lemma part000_keeps_value_of_failing_task :
  (failing 5 7 (WithCancel Background)).2 = Some 7%nat ∧
  Part000.Wait Background [0; 0; 0; 0]%nat (Part000.mkGroup 0 false None [failing 5 7])
  = Ret (Part000.mkWaited [5%nat] (Some 7%nat)
           (Part000.mkGroup 0 true (Some 7%nat) [failing 5 7])
           (WithCancel Background) true) ∧
  Part000.New [failing 5 7] = Ret (Part000.mkGroup 0 false None [failing 5 7]) ∧
  (∀ sched w,
     Part000.Wait Background sched (Part000.mkGroup 0 false None [failing 5 7]) = Ret w →
     Part000.w_values w !! 0%nat = Some 5%nat ∧
     Part000.w_values w !! 0%nat ≠ Some (zero : nat)).
Proof.
  split; [reflexivity|]. split; [vm_compute; reflexivity|]. split; [reflexivity|].
  intros sched w. rewrite Part000Facts.part000_Wait_exact by done.
  destruct (fair _ _ _); [|done]. intros [= <-]. simpl. split; [done|]. discriminate.
Qed.

(** C5, as the code has it.  The goroutine of [Go] sends the value its
    task returned, whether or not an error came with it: two turns take
    it from the call of [f] to the send of that value, the receive of
    [Wait] (on the channel [NewDynamic] made) stores it in the slice,
    [Wait] returns under every schedule that gives each goroutine three
    turns, and the slice it returns holds,
    for each submitted task, the value that task returned. *)
Theorem Go_sends_the_returned_value {V E : Type} `{!Zero V}
    (c : Context) (acts : list (Dynamic.action V E)) (sched : list nat) :
  let fs := Dynamic.submitted acts in
  let K := length fs in
  let m := Dynamic.exec acts (Dynamic.NewDynamic c).1 in
  Z.of_nat K < uint_modulus →
  (∀ (m0 : Dynamic.machine V E) j f v e,
     Dynamic.gos m0 !! j = Some (Dynamic.Spawned f) →
     f (Dynamic.ctx (Dynamic.grp m0)) = (v, e) →
     Dynamic.gos (Dynamic.step j (Dynamic.step j m0)) !! j = Some (Dynamic.Sending v)) ∧
  (∀ (m0 : Dynamic.machine V E) j v i vals rest,
     Dynamic.valueChan (Dynamic.grp m0) = true →
     Dynamic.gos m0 !! j = Some (Dynamic.Sending v) → (i < length vals)%nat →
     Dynamic.drain (j :: rest) i vals m0
     = Dynamic.drain rest (S i) (<[i := v]> vals)
         (Dynamic.mkMachine (Dynamic.grp m0) (<[j := Dynamic.Exited]> (Dynamic.gos m0)))) ∧
  (fair 3 K sched = true → ∃ r, Dynamic.Wait sched m = Ret r) ∧
  (∀ vals e m', Dynamic.Wait sched m = Ret (vals, e, m') →
     ∃ order, order ≡ₚ seq 0 K ∧ length vals = K ∧
       ∀ p j f, order !! p = Some j → fs !! j = Some f →
                vals !! p = Some (f (WithCancel c)).1).
Proof.
  intros fs K m Hk. split; [|split; [|split; [by apply DynamicFacts.dynamic_Wait_live|]]].
  - intros m0 j f v e Hj Hf.
    assert (j < length (Dynamic.gos m0))%nat as Hlt by (by eapply lookup_lt_Some).
    unfold Dynamic.step at 2. rewrite Hj, Hf. unfold Dynamic.step. simpl.
    rewrite list_lookup_insert_eq by done.
    destruct e; simpl; rewrite list_insert_insert_eq;
      by rewrite list_lookup_insert_eq.
  - intros m0 j v i vals rest Hc Hj Hi. simpl. rewrite decide_True by done.
    by rewrite Hj, Hc.
  - intros vals e m' Hw.
    destruct (DynamicFacts.dynamic_Wait_safe _ _ _ _ _ _ Hk Hw) as (order & Hperm & -> & _).
    exists order. split; [done|]. split; [by rewrite length_fmap, Hperm, length_seq|].
    intros p j f Hp Hj. rewrite list_lookup_fmap, Hp. simpl. unfold sent. fold fs.
    by rewrite Hj.
Qed.

Lemma Go_sends_the_returned_value_witness :
  ∃ order, order ≡ₚ seq 0 1 ∧ length [5%nat] = 1%nat ∧
    ∀ p j f, order !! p = Some j → [failing 5 7] !! j = Some f →
             [5%nat] !! p = Some (f (WithCancel Background)).1.
Proof.
  refine (proj2 (proj2 (proj2 (Go_sends_the_returned_value Background
            [Dynamic.DoGo (failing 5 7)] [0; 0; 0]%nat _)))
            [5%nat] (Some 7%nat) _ _).
  - reflexivity.
  - vm_compute; reflexivity.
Defined.

(** C5 fails: the one task returns 5 beside a non-nil error, and in
    every run in which [Wait] returns the slice is [5], not the zero
    value. *)
Lemma dynamic_sends_value_of_failing_task :
  (failing 5 7 (WithCancel Background)).2 = Some 7%nat ∧
  (∃ m', Dynamic.Wait [0; 0; 0]%nat
           (Dynamic.Go (failing 5 7) (Dynamic.NewDynamic Background).1)
         = Ret ([5%nat], Some 7%nat, m')) ∧
  (∀ sched vals e m',
     Dynamic.Wait sched (Dynamic.Go (failing 5 7) (Dynamic.NewDynamic Background).1)
     = Ret (vals, e, m') →
     vals = [5%nat] ∧ vals ≠ [zero : nat]).
Proof.
  split; [reflexivity|]. split; [eexists; vm_compute; reflexivity|].
  intros sched vals e m' Hw.
  destruct (DynamicFacts.dynamic_Wait_safe Background [Dynamic.DoGo (failing 5 7)]
              sched vals e m') as (order & Hperm & -> & _); [reflexivity|exact Hw|].
  apply Permutation_singleton_r in Hperm as ->. split; [reflexivity|discriminate].
Qed.

(** C9, as the code has it.  On a non-empty list of tasks, each on a
    new group, the two fixed groups return under the same schedules up
    to the extra turn a goroutine of src/unnamed/part_000 takes, they
    return the same error, and their slices have the same length and
    agree at every index whose task returned a nil error; at the index
    of a task that returned a non-nil error src/grouper.go holds the zero
    value and src/unnamed/part_000 the value the task returned. *)
Theorem fixed_groups_agree_up_to_failed_slots {V E : Type} `{!Zero V}
    (c : Context) (fs : list (func V E)) :
  fs ≠ [] →
  ∃ g p, Grouper.New c fs = Ret (g, WithCancel c) ∧ Part000.New fs = Ret p ∧
    (∀ sched,
       if fair 4 (length fs) sched
       then ∃ w vals g',
              Part000.Wait c sched p = Ret w ∧
              Grouper.Wait sched g = Ret (vals, Part000.w_err w, g') ∧
              values_agree (WithCancel c) fs vals (Part000.w_values w)
       else Part000.Wait c sched p = Blocked) ∧
    (∀ sched,
       if fair 3 (length fs) sched
       then ∃ vals e g' w,
              Grouper.Wait sched g = Ret (vals, e, g') ∧
              Part000.Wait c (sched ++ seq 0 (length fs)) p = Ret w ∧
              Part000.w_err w = e ∧
              values_agree (WithCancel c) fs vals (Part000.w_values w)
       else Grouper.Wait sched g = Blocked).
Proof.
  intros Hne.
  assert (values_agree (WithCancel c) fs (slot (WithCancel c) <$> fs)
            ((λ f, (f (WithCancel c)).1) <$> fs)) as Hagree.
  { split; [by rewrite length_fmap|]. split; [by rewrite length_fmap|].
    intros i f Hi. rewrite !list_lookup_fmap, Hi. simpl. done. }
  assert (∀ fe : option E,
            Part000Inv.err_after (Part000.mkGroup 0 false None fs) fe = fe) as Herr.
  { intros fe. unfold Part000Inv.err_after. simpl. by destruct fe. }
  eexists _, _. split; [by apply GrouperFacts.grouper_New_init|].
  split; [by apply Part000Facts.part000_New_init|]. split.
  - intros sched. rewrite Part000Facts.part000_Wait_exact by done. simpl.
    destruct (fair 4 _ _) eqn:Hfair; [|done].
    rewrite GrouperFacts.grouper_Wait_exact.
    rewrite (fair_mono 3 4) by (done || lia). simpl.
    eexists _, _, _. split; [reflexivity|]. simpl. rewrite Herr.
    split; [reflexivity|]. exact Hagree.
  - intros sched. rewrite GrouperFacts.grouper_Wait_exact.
    destruct (fair 3 _ _) eqn:Hfair; [|done]. simpl.
    rewrite Part000Facts.part000_Wait_exact by done. simpl.
    rewrite fair_one_more by done. eexists _, _, _, _. split; [reflexivity|].
    split; [reflexivity|]. simpl. split; [|exact Hagree].
    rewrite Herr. apply first_error_settled. by apply (fair_mono 2 3); [lia|].
Qed.

Lemma fixed_groups_agree_up_to_failed_slots_witness :
  ∃ g p, Grouper.New Background [succeeding 1; failing 5 7] = Ret (g, WithCancel Background) ∧
    Part000.New [succeeding 1; failing 5 7] = Ret p ∧
    (∀ sched,
       if fair 4 2 sched
       then ∃ w vals g',
              Part000.Wait Background sched p = Ret w ∧
              Grouper.Wait sched g = Ret (vals, Part000.w_err w, g') ∧
              values_agree (WithCancel Background) [succeeding 1; failing 5 7]
                           vals (Part000.w_values w)
       else Part000.Wait Background sched p = Blocked) ∧
    (∀ sched,
       if fair 3 2 sched
       then ∃ vals e g' w,
              Grouper.Wait sched g = Ret (vals, e, g') ∧
              Part000.Wait Background (sched ++ seq 0 2) p = Ret w ∧
              Part000.w_err w = e ∧
              values_agree (WithCancel Background) [succeeding 1; failing 5 7]
                           vals (Part000.w_values w)
       else Grouper.Wait sched g = Blocked).
Proof.
  apply (fixed_groups_agree_up_to_failed_slots Background [succeeding 1; failing 5 7]).
  discriminate.
Defined.

(** C9 fails: on the one task that returns 5 beside a non-nil error,
    src/grouper.go returns the slice [0] and src/unnamed/part_000 the
    slice [5], under every schedule under which they return. *)
Lemma fixed_groups_differ_on_failing_task :
  Grouper.New Background [failing 5 7]
  = Ret (GrouperInv.init (WithCancel Background) [failing 5 7], WithCancel Background) ∧
  Part000.New [failing 5 7] = Ret (Part000.mkGroup 0 false None [failing 5 7]) ∧
  (∃ g', Grouper.Wait [0; 0; 0]%nat (GrouperInv.init (WithCancel Background) [failing 5 7])
         = Ret ([0%nat], Some 7%nat, g')) ∧
  (∃ w, Part000.Wait Background [0; 0; 0; 0]%nat (Part000.mkGroup 0 false None [failing 5 7])
        = Ret w ∧ Part000.w_values w = [5%nat] ∧ Part000.w_err w = Some 7%nat) ∧
  (∀ sched1 sched2 vals e g' w,
     Grouper.Wait sched1 (GrouperInv.init (WithCancel Background) [failing 5 7])
     = Ret (vals, e, g') →
     Part000.Wait Background sched2 (Part000.mkGroup 0 false None [failing 5 7]) = Ret w →
     vals ≠ Part000.w_values w).
Proof.
  split; [reflexivity|]. split; [reflexivity|]. split; [eexists; vm_compute; reflexivity|].
  split; [eexists; split; [vm_compute; reflexivity|split; reflexivity]|].
  intros sched1 sched2 vals e g' w.
  rewrite GrouperFacts.grouper_Wait_exact, Part000Facts.part000_Wait_exact by done.
  destruct (fair 3 _ _); [|done]. destruct (fair 4 _ _); [|done].
  intros [= <- _ _] [= <-]. simpl. discriminate.
Qed.

(** C10. Over successive calls of [Wait] on one group of
    src/unnamed/part_000, each with its own context and schedule, once a
    call has returned a non-nil error every later call returns that same
    error and leaves it in the error slot of the group; and one more
    call, under whatever context, returns it again as soon as its
    schedule lets each goroutine finish. *)
Theorem Wait_keeps_returning_the_error {V E : Type} `{!Zero V}
    (fs : list (func V E)) (calls : list (Context * list nat))
    (g : Part000.Group V E) (ws : list (Part000.waited V E)) :
  Part000.New fs = Ret g →
  Part000.Waits calls g = Ret ws →
  ∀ i w e,
    ws !! i = Some w → Part000.w_err w = Some e →
    (∀ j w', (i ≤ j)%nat → ws !! j = Some w' →
       Part000.w_err w' = Some e ∧ Part000.err (Part000.w_group w') = Some e) ∧
    (∀ c sched,
       if fair 4 (length fs) sched
       then ∃ w', Part000.Waits (calls ++ [(c, sched)]) g = Ret (ws ++ [w']) ∧
                  Part000.w_err w' = Some e
       else Part000.Waits (calls ++ [(c, sched)]) g = Blocked).
Proof.
  intros Hnew Hws i w e Hi He.
  assert (Part000Inv.quiet g ∧ Part000.funcs g = fs) as [Hq Hfs].
  { revert Hnew. unfold Part000.New. case_decide; [done|]. by intros [= <-]. }
  destruct (Part000Facts.part000_Waits_sticky _ _ _ Hq Hws) as [_ Hchain].
  split.
  - intros j w' Hij Hj. split; [by eapply Hchain|].
    rewrite (Part000Facts.part000_Waits_group _ _ _ Hq Hws _ _ Hj).
    by eapply Hchain.
  - intros c sched. rewrite (Part000Facts.part000_Waits_snoc _ _ _ _ _ Hws).
    destruct (Part000Facts.part000_Waits_last _ _ _ Hq Hws) as ([Hwg Hso] & Hfl & _ & Hlast).
    specialize (Hlast _ _ _ Hi He).
    rewrite Part000Facts.part000_Wait_exact by done. rewrite Hfl, Hfs.
    destruct (fair _ _ _); [|done]. simpl. eexists. split; [done|]. simpl.
    unfold Part000Inv.err_after. rewrite Hlast in Hso |- *. by rewrite <- Hso.
Qed.

Lemma Wait_keeps_returning_the_error_witness :
  ∃ ws w w',
    Part000.Waits [(Background, [0; 1; 0; 1; 0; 1; 0; 1]%nat);
                   (WithCancel Background, [1; 1; 1; 1; 0; 0; 0; 0]%nat)]
                  (Part000.mkGroup 0 false None [moody; succeeding 1]) = Ret ws ∧
    ws !! 0%nat = Some w ∧ ws !! 1%nat = Some w' ∧
    Part000.w_err w = Some 7%nat ∧
    Part000.w_values w' = [6%nat; 1%nat] ∧
    Part000.w_err w' = Some 7%nat ∧ Part000.err (Part000.w_group w') = Some 7%nat.
Proof.
  eexists _, _, _. split; [vm_compute; reflexivity|].
  split; [reflexivity|]. split; [reflexivity|]. split; [reflexivity|].
  split; [reflexivity|].
  refine (proj1 (Wait_keeps_returning_the_error [moody; succeeding 1]
            [(Background, [0; 1; 0; 1; 0; 1; 0; 1]%nat);
             (WithCancel Background, [1; 1; 1; 1; 0; 0; 0; 0]%nat)]
            _ _ eq_refl _ 0%nat _ 7%nat _ _) 1%nat _ (Nat.le_0_l 1) _);
    [vm_compute; reflexivity | reflexivity ..].
Defined.

(** * Beyond the specification: the guard, reuse of a group, rounds *)

(** X1. Which error [Wait] of a fixed group returns: that of the failing
    task whose goroutine is the first to reach [errOnce.Do].  If task
    [i] fails with [e] and takes its second turn (the one that runs the
    guard) while no failing task has taken its own yet, then [Wait] of
    src/grouper.go and the first [Wait] of src/unnamed/part_000 return
    [e] as soon as the schedule lets each goroutine finish, whatever the
    errors that come later. *)
Theorem first_to_reach_the_guard_decides {V E : Type} `{!Zero V}
    (c : Context) (fs : list (func V E)) (pre post : list nat)
    (i : nat) (f : func V E) (e : E) :
  fs !! i = Some f → (f (WithCancel c)).2 = Some e →
  turns i pre = 1%nat →
  (∀ j f' e', fs !! j = Some f' → (f' (WithCancel c)).2 = Some e' →
              (turns j pre < 2)%nat) →
  let sched := pre ++ i :: post in
  (∃ g, Grouper.New c fs = Ret (g, WithCancel c) ∧
     if fair 3 (length fs) sched
     then ∃ vals g', Grouper.Wait sched g = Ret (vals, Some e, g')
     else Grouper.Wait sched g = Blocked) ∧
  (∃ g, Part000.New fs = Ret g ∧
     if fair 4 (length fs) sched
     then ∃ w, Part000.Wait c sched g = Ret w ∧ Part000.w_err w = Some e
     else Part000.Wait c sched g = Blocked).
Proof.
  intros Hi Hf Ht Hpre sched.
  pose proof (first_error_winner _ _ _ _ post _ _ Hi Hf Ht Hpre) as Hfe.
  fold sched in Hfe.
  assert (fs ≠ []) as Hne by (by intros ->).
  split.
  - eexists. split; [by apply GrouperFacts.grouper_New_init|].
    rewrite GrouperFacts.grouper_Wait_exact, Hfe.
    destruct (fair 3 _ _); [|done]. simpl. eauto.
  - eexists. split; [by apply Part000Facts.part000_New_init|].
    rewrite Part000Facts.part000_Wait_exact by done. simpl. rewrite Hfe.
    destruct (fair 4 _ _); [|done]. eexists. split; done.
Qed.

Lemma first_to_reach_the_guard_decides_witness :
  (∃ g, Grouper.New Background [failing 0 7; failing 0 8; succeeding 3]
        = Ret (g, WithCancel Background) ∧
     if fair 3 3 ([0; 1] ++ 1 :: [0; 2; 2; 2; 0; 1])%nat
     then ∃ vals g', Grouper.Wait ([0; 1] ++ 1 :: [0; 2; 2; 2; 0; 1])%nat g
                     = Ret (vals, Some 8%nat, g')
     else Grouper.Wait ([0; 1] ++ 1 :: [0; 2; 2; 2; 0; 1])%nat g = Blocked) ∧
  (∃ g, Part000.New [failing 0 7; failing 0 8; succeeding 3] = Ret g ∧
     if fair 4 3 ([0; 1] ++ 1 :: [0; 2; 2; 2; 0; 1])%nat
     then ∃ w, Part000.Wait Background ([0; 1] ++ 1 :: [0; 2; 2; 2; 0; 1])%nat g = Ret w ∧
               Part000.w_err w = Some 8%nat
     else Part000.Wait Background ([0; 1] ++ 1 :: [0; 2; 2; 2; 0; 1])%nat g = Blocked).
Proof.
  refine (first_to_reach_the_guard_decides Background
            [failing 0 7; failing 0 8; succeeding 3] [0; 1]%nat [0; 2; 2; 2; 0; 1]%nat
            1%nat (failing 0 8) 8%nat _ _ _ _).
  - reflexivity.
  - reflexivity.
  - reflexivity.
  - intros [|[|[|j]]] f' e' Hj Hf'; simpl; lia.
Defined.

(** X2. While [Wait] of a fixed group runs on a new group, no step
    panics, and the error slot is non-nil exactly when some failing
    task's goroutine has taken its second turn, that is, has reached
    [errOnce.Do]; the error in it is one a task returned, and from then
    on the context of the tasks is done.  That context is also done from
    the start when the caller's context was done already.  When the
    caller's context is [context.Background()], nothing else ends it:
    the context of the tasks is done only once a failure has been
    recorded. *)
Theorem context_done_from_the_first_failure_on {V E : Type} `{!Zero V}
    (p : Context) (fs : list (func V E)) (sched : list nat) :
  (∃ st, Grouper.run sched (GrouperInv.init_frame (WithCancel p) fs) = Ret st ∧
     ((∃ e, Grouper.err (Grouper.grp st) = Some e) ↔
      ∃ i f e, fs !! i = Some f ∧ (f (WithCancel p)).2 = Some e ∧ (2 ≤ turns i sched)%nat) ∧
     (∀ e, Grouper.err (Grouper.grp st) = Some e →
        returned_by (WithCancel p) fs e ∧ Grouper.ctx_done (Grouper.grp st) = true) ∧
     (done_already p = true → Grouper.ctx_done (Grouper.grp st) = true) ∧
     (p = Background → Grouper.ctx_done (Grouper.grp st) = true →
      ∃ e, Grouper.err (Grouper.grp st) = Some e)) ∧
  (∃ st, Part000.run sched
           (Part000Inv.init_frame (WithCancel p) (Part000.mkGroup 0 false None fs)) = Ret st ∧
     ((∃ e, Part000.err (Part000.grp st) = Some e) ↔
      ∃ i f e, fs !! i = Some f ∧ (f (WithCancel p)).2 = Some e ∧ (2 ≤ turns i sched)%nat) ∧
     (∀ e, Part000.err (Part000.grp st) = Some e →
        returned_by (WithCancel p) fs e ∧ Part000.ctx_done st = true) ∧
     (done_already p = true → Part000.ctx_done st = true) ∧
     (p = Background → Part000.ctx_done st = true →
      ∃ e, Part000.err (Part000.grp st) = Some e)).
Proof.
  set (c := WithCancel p).
  assert (∀ e, first_error c fs sched = Some e → returned_by c fs e) as Hret.
  { intros e (i & f & Hi & Hf & _)%first_error_Some. by exists i, f. }
  pose proof (is_some_first_error c fs sched) as Hsome.
  assert ((∃ e, first_error c fs sched = Some e) ↔
          is_some (first_error c fs sched) = true) as Hex.
  { destruct (first_error c fs sched); simpl; split; try done; eauto; by intros [? ?]. }
  split.
  - destruct (GrouperFacts.grouper_run_Inv c fs sched) as (st & Hrun & HI).
    exists st. split; [done|].
    rewrite (GrouperInv.I_ctx_done _ _ _ _ HI), (GrouperInv.I_err _ _ _ _ HI). simpl.
    split; [by rewrite Hex|]. split; [|split].
    + intros e He. split; [by apply Hret|]. rewrite He. simpl. apply orb_true_r.
    + by intros ->.
    + intros ->. simpl. by rewrite Hex.
  - destruct (Part000Facts.part000_run_Inv c (Part000.mkGroup 0 false None fs) sched)
      as (st & Hrun & HI); [done|].
    exists st. split; [done|].
    rewrite (Part000Inv.I_ctx_done _ _ _ _ HI), (Part000Inv.I_err _ _ _ _ HI).
    unfold Part000Inv.err_after. simpl.
    assert (∀ o : option E, match o with Some e => Some e | None => None end = o) as Hid
      by (by intros []).
    rewrite Hid. split; [by rewrite Hex|]. split; [|split].
    + intros e He. split; [by apply Hret|]. rewrite He. simpl. apply orb_true_r.
    + by intros ->.
    + intros ->. simpl. by rewrite Hex.
Qed.

Lemma context_done_from_the_first_failure_on_witness :
  (∃ st, Grouper.run [1; 0]%nat
           (GrouperInv.init_frame (WithCancel Cancelled) [succeeding 1; succeeding 2]) = Ret st ∧
         Grouper.ctx_done (Grouper.grp st) = true ∧
         Grouper.err (Grouper.grp st) = None) ∧
  (∃ st, Part000.run [1; 0; 1]%nat
           (Part000Inv.init_frame (WithCancel Background)
              (Part000.mkGroup 0 false None [succeeding 1; failing 5 7])) = Ret st ∧
         Part000.err (Part000.grp st) = Some 7%nat ∧
         Part000.ctx_done st = true).
Proof.
  split.
  - destruct (proj1 (context_done_from_the_first_failure_on Cancelled
                       [succeeding 1; succeeding 2] [1; 0]%nat))
      as (st & Hrun & _ & _ & Hdone & _).
    exists st. split; [exact Hrun|]. split; [exact (Hdone eq_refl)|].
    vm_compute in Hrun. injection Hrun as <-. reflexivity.
  - destruct (proj2 (context_done_from_the_first_failure_on Background
                       [succeeding 1; failing 5 7] [1; 0; 1]%nat))
      as (st & Hrun & _ & Herr & _).
    exists st. split; [exact Hrun|].
    assert (Part000.err (Part000.grp st) = Some 7%nat) as He.
    { vm_compute in Hrun. injection Hrun as <-. reflexivity. }
    split; [exact He|]. exact (proj2 (Herr _ He)).
Defined.

(** X3. Once a call of [Wait] of src/unnamed/part_000 has returned a
    non-nil error, the guard is spent: while any later call runs, no
    step panics and the error slot holds the old error throughout, so
    that no failing task cancels the context derived by that call.  If
    the call was made with [context.Background()], that context is not
    done at any point of the run (only the deferred [cancel()] ends it);
    if it was made with a context done already, it is done
    throughout. *)
Theorem spent_guard_cancels_no_later_context {V E : Type} `{!Zero V}
    (fs : list (func V E)) (calls : list (Context * list nat))
    (g : Part000.Group V E) (ws : list (Part000.waited V E))
    (i : nat) (w : Part000.waited V E) (e : E) :
  Part000.New fs = Ret g →
  Part000.Waits calls g = Ret ws →
  ws !! i = Some w → Part000.w_err w = Some e →
  ∀ (c : Context) sched,
    ∃ st, Part000.run sched
            (Part000Inv.init_frame (WithCancel c) (Part000Inv.last_group g ws)) = Ret st ∧
          Part000.err (Part000.grp st) = Some e ∧
          Part000.errOnce (Part000.grp st) = true ∧
          (c = Background → Part000.ctx_done st = false) ∧
          (done_already c = true → Part000.ctx_done st = true).
Proof.
  intros Hnew Hws Hi He c sched.
  destruct (part000_New_quiet _ _ Hnew) as [Hq _].
  destruct (Part000Facts.part000_Waits_last _ _ _ Hq Hws) as ([Hwg Hso] & _ & _ & Hlast).
  specialize (Hlast _ _ _ Hi He). rewrite Hlast in Hso. simpl in Hso.
  destruct (Part000Facts.part000_run_Inv (WithCancel c) (Part000Inv.last_group g ws) sched)
    as (st & Hrun & HI); [lia|].
  exists st. split; [done|].
  rewrite (Part000Inv.I_ctx_done _ _ _ _ HI), (Part000Inv.I_err _ _ _ _ HI),
    (Part000Inv.I_errOnce _ _ _ _ HI).
  unfold Part000Inv.err_after. rewrite <- Hso. simpl. rewrite orb_false_r.
  split; [done|]. split; [done|]. split; [by intros ->|done].
Qed.

Lemma spent_guard_cancels_no_later_context_witness :
  ∃ st, Part000.run [0; 0; 1; 1]%nat
          (Part000Inv.init_frame (WithCancel Background)
             (Part000Inv.last_group (Part000.mkGroup 0 false None [moody; succeeding 1])
                [Part000.mkWaited [5; 1]%nat (Some 7%nat)
                   (Part000.mkGroup 0 true (Some 7%nat) [moody; succeeding 1])
                   (WithCancel Background) true])) = Ret st ∧
        Part000.err (Part000.grp st) = Some 7%nat ∧
        Part000.ctx_done st = false.
Proof.
  assert (Part000.New [moody; succeeding 1]
          = Ret (Part000.mkGroup 0 false None [moody; succeeding 1])) as Hnew
    by reflexivity.
  assert (Part000.Waits [(Background, [0; 1; 0; 1; 0; 1; 0; 1]%nat)]
            (Part000.mkGroup 0 false None [moody; succeeding 1])
          = Ret [Part000.mkWaited [5; 1]%nat (Some 7%nat)
                   (Part000.mkGroup 0 true (Some 7%nat) [moody; succeeding 1])
                   (WithCancel Background) true]) as Hws
    by (vm_compute; reflexivity).
  destruct (spent_guard_cancels_no_later_context _ _ _ _ 0%nat _ 7%nat
              Hnew Hws eq_refl eq_refl Background [0; 0; 1; 1]%nat)
    as (st & Hrun & He & _ & Hb & _).
  exists st. split; [exact Hrun|]. split; [exact He|]. exact (Hb eq_refl).
Defined.

(** X4. Every call in a sequence of calls of [Wait] on one group of
    src/unnamed/part_000 that has returned gave back one result; the
    slice of a call holds at index [j] the value task [j] returned under
    the context this very call derived, which is done on return, and the
    call returned only because its schedule let each goroutine finish. *)
Theorem each_Wait_returns_its_own_values {V E : Type} `{!Zero V}
    (fs : list (func V E)) (calls : list (Context * list nat))
    (g : Part000.Group V E) (ws : list (Part000.waited V E)) :
  Part000.New fs = Ret g →
  Part000.Waits calls g = Ret ws →
  length ws = length calls ∧
  ∀ k c sched w, calls !! k = Some (c, sched) → ws !! k = Some w →
    Part000.w_values w = (λ f, (f (WithCancel c)).1) <$> fs ∧
    Part000.w_ctx w = WithCancel c ∧ Part000.w_ctx_done w = true ∧
    fair 4 (length fs) sched = true.
Proof.
  intros Hnew Hws. destruct (part000_New_quiet _ _ Hnew) as [Hq <-].
  by apply part000_Waits_each.
Qed.

Lemma each_Wait_returns_its_own_values_witness :
  ∃ ws, Part000.Waits [(Background, [0; 1; 0; 1; 0; 1; 0; 1]%nat);
                       (WithCancel Background, [1; 1; 1; 1; 0; 0; 0; 0]%nat)]
                      (Part000.mkGroup 0 false None [moody; succeeding 1]) = Ret ws ∧
    length ws = 2%nat ∧
    ∀ k c sched w,
      [(Background, [0; 1; 0; 1; 0; 1; 0; 1]%nat);
       (WithCancel Background, [1; 1; 1; 1; 0; 0; 0; 0]%nat)] !! k = Some (c, sched) →
      ws !! k = Some w →
      Part000.w_values w = (λ f, (f (WithCancel c)).1) <$> [moody; succeeding 1] ∧
      Part000.w_ctx w = WithCancel c ∧ Part000.w_ctx_done w = true ∧
      fair 4 (length [moody; succeeding 1]) sched = true.
Proof.
  eexists. refine ((λ H, conj H (each_Wait_returns_its_own_values [moody; succeeding 1]
            [(Background, [0; 1; 0; 1; 0; 1; 0; 1]%nat);
             (WithCancel Background, [1; 1; 1; 1; 0; 0; 0; 0]%nat)]
            (Part000.mkGroup 0 false None [moody; succeeding 1]) _ _ H)) _).
  - reflexivity.
  - vm_compute; reflexivity.
Defined.

(** X5. src/grouper.go adds to the counter in [New] only, so a second
    call of [Wait], on the group a first call has returned from, waits
    for nothing: it returns as long as none of its goroutines has reached
    [g.wg.Done()] (at once, under the empty schedule), and the first
    goroutine to get there panics with a negative counter.  It is never
    blocked. *)
Theorem second_Wait_waits_for_nothing {V E : Type} `{!Zero V}
    (c : Context) (fs : list (func V E)) (sched1 : list nat)
    (vals : list V) (e : error E) (g1 : Grouper.Group V E) :
  Grouper.Wait sched1 (GrouperInv.init c fs) = Ret (vals, e, g1) →
  (∀ sched, (∀ i, (i < length fs)%nat → (turns i sched < 3)%nat) →
            ∃ r, Grouper.Wait sched g1 = Ret r) ∧
  (∀ sched i, (i < length fs)%nat → (3 ≤ turns i sched)%nat →
              Grouper.Wait sched g1 = Panic "sync: negative WaitGroup counter").
Proof.
  rewrite GrouperFacts.grouper_Wait_exact. destruct (fair 3 _ _); [|done].
  simpl. intros [= <- <- <-]. split.
  - intros sched Hcalm.
    destruct (GrouperAgainFacts.again_run_calm
                (Grouper.mkGroup c true true 0 (is_some (first_error c fs sched1))
                   (first_error c fs sched1) fs) sched) as (st & Hrun & HR); [done..|].
    unfold Grouper.Wait. fold (GrouperAgain.start
      (Grouper.mkGroup c true true 0 (is_some (first_error c fs sched1))
         (first_error c fs sched1) fs)). rewrite Hrun.
    rewrite (GrouperAgain.A_wg _ _ _ HR), (GrouperAgain.A_cancel _ _ _ HR). simpl. eauto.
  - intros sched i Hi Hover. unfold Grouper.Wait. fold (GrouperAgain.start
      (Grouper.mkGroup c true true 0 (is_some (first_error c fs sched1))
         (first_error c fs sched1) fs)).
    rewrite GrouperAgainFacts.again_run_overrun; [done..|]. by exists i.
Qed.

Lemma second_Wait_waits_for_nothing_witness :
  (∃ r, Grouper.Wait [0; 1; 1; 0]%nat
          (Grouper.mkGroup (WithCancel Background) true true 0 true (Some 7%nat)
                           [succeeding 1; failing 5 7]) = Ret r) ∧
  Grouper.Wait [0; 1; 1; 0; 1]%nat
    (Grouper.mkGroup (WithCancel Background) true true 0 true (Some 7%nat)
                     [succeeding 1; failing 5 7])
  = Panic "sync: negative WaitGroup counter".
Proof.
  refine ((λ H, conj (proj1 H [0; 1; 1; 0]%nat _) (proj2 H [0; 1; 1; 0; 1]%nat 1%nat _ _))
            (second_Wait_waits_for_nothing (WithCancel Background)
               [succeeding 1; failing 5 7] [0; 1; 0; 1; 1; 0]%nat
               [1; 0]%nat (Some 7%nat) _ _)).
  - intros [|[|i]] Hi; simpl in *; lia.
  - simpl; lia.
  - simpl; lia.
  - vm_compute; reflexivity.
Defined.




(** X8. In every round on a dynamic group, [Wait] returns exactly the
    values of the tasks submitted in that round, each once, in some
    order, none of an earlier round; and the rounds all return when in
    each the schedule gives three turns to every goroutine started so
    far. *)
Theorem each_round_returns_its_own_values {V E : Type} `{!Zero V}
    (c : Context) (rs : list (list (Dynamic.action V E) * list nat)) :
  DynamicRounds.rounds_counted rs →
  (DynamicRounds.rounds_fair 0 rs = true →
   ∃ res m', DynamicRounds.rounds rs (Dynamic.NewDynamic c).1 = Ret (res, m')) ∧
  (∀ res m', DynamicRounds.rounds rs (Dynamic.NewDynamic c).1 = Ret (res, m') →
     Forall2 (λ r out, out.1 ≡ₚ (λ f, (f (WithCancel c)).1) <$> Dynamic.submitted r.1)
             rs res).
Proof.
  intros Hcnt. split.
  - intros Hfair.
    by apply (DynamicRoundsFacts.rounds_live (WithCancel c) rs [] _
                (DynamicRoundsFacts.rounds_Quiet_new c)).
  - intros res m' Hr.
    by destruct (DynamicRoundsFacts.rounds_spec (WithCancel c) rs [] _ res m'
                   (DynamicRoundsFacts.rounds_Quiet_new c) Hcnt Hr) as (_ & ? & _).
Qed.

Lemma each_round_returns_its_own_values_witness :
  (∃ res m', DynamicRounds.rounds two_rounds (Dynamic.NewDynamic Background).1
             = Ret (res, m')) ∧
  ∃ m', DynamicRounds.rounds two_rounds (Dynamic.NewDynamic Background).1
        = Ret ([([1; 5]%nat, Some 7%nat); ([2; 4]%nat, Some 7%nat)], m') ∧
    Forall2 (λ r out, out.1 ≡ₚ (λ f, (f (WithCancel Background)).1) <$> Dynamic.submitted r.1)
            two_rounds [([1; 5]%nat, Some 7%nat); ([2; 4]%nat, Some 7%nat)].
Proof.
  refine ((λ H, conj (proj1 H _) (ex_intro _ _ ((λ Hr, conj Hr (proj2 H _ _ Hr)) _)))
            (each_round_returns_its_own_values Background two_rounds _)).
  - reflexivity.
  - vm_compute; reflexivity.
  - repeat (apply Forall_cons; split; [vm_compute; reflexivity|]); apply Forall_nil_2.
Defined.

(** X9. The error of a dynamic group is settled once for its whole life:
    the [Wait] of a round returns nil exactly as long as no task of this
    or an earlier round has failed; otherwise it returns an error of a
    task of the first round in which a task failed, and every later
    [Wait] returns that same error, whatever its own tasks return. *)
Theorem rounds_keep_the_first_error {V E : Type} `{!Zero V}
    (c : Context) (rs : list (list (Dynamic.action V E) * list nat))
    (res : list (list V * error E)) (m' : Dynamic.machine V E) :
  DynamicRounds.rounds_counted rs →
  DynamicRounds.rounds rs (Dynamic.NewDynamic c).1 = Ret (res, m') →
  ∀ k out, res !! k = Some out →
    ((out.2 = None ∧
      DynamicRounds.all_succeed (WithCancel c)
        (DynamicRounds.submitted_all (take (S k) rs)))
     ∨ ∃ k0 r0 e, (k0 ≤ k)%nat ∧ rs !! k0 = Some r0 ∧ out.2 = Some e ∧
                  returned_by (WithCancel c) (Dynamic.submitted r0.1) e ∧
                  DynamicRounds.all_succeed (WithCancel c)
                    (DynamicRounds.submitted_all (take k0 rs))) ∧
    (∀ k' out' e, (k ≤ k')%nat → res !! k' = Some out' → out.2 = Some e →
                  out'.2 = Some e).
Proof.
  intros Hcnt Hr k out Hout.
  destruct (DynamicRoundsFacts.rounds_spec (WithCancel c) rs [] _ res m'
              (DynamicRoundsFacts.rounds_Quiet_new c) Hcnt Hr)
    as (_ & _ & _ & Hchain & Hfirst).
  split; [by apply Hfirst|]. intros k' out' e Hkk Hout' He. by eapply Hchain.
Qed.

Lemma rounds_keep_the_first_error_witness :
  ∃ m', DynamicRounds.rounds two_rounds (Dynamic.NewDynamic Background).1
        = Ret ([([1; 5]%nat, Some 7%nat); ([2; 4]%nat, Some 7%nat)], m') ∧
    ((([2; 4]%nat, Some 7%nat).2 = None ∧
      DynamicRounds.all_succeed (WithCancel Background)
        (DynamicRounds.submitted_all (take 2 two_rounds)))
     ∨ ∃ k0 r0 e, (k0 ≤ 1)%nat ∧ two_rounds !! k0 = Some r0 ∧
                  ([2; 4]%nat, Some 7%nat).2 = Some e ∧
                  returned_by (WithCancel Background) (Dynamic.submitted r0.1) e ∧
                  DynamicRounds.all_succeed (WithCancel Background)
                    (DynamicRounds.submitted_all (take k0 two_rounds))) ∧
    (∀ k' out' e, (1 ≤ k')%nat →
       [([1; 5]%nat, Some 7%nat); ([2; 4]%nat, Some 7%nat)] !! k' = Some out' →
       ([2; 4]%nat, Some 7%nat).2 = Some e → out'.2 = Some e).
Proof.
  eexists.
  refine ((λ Hr, conj Hr (rounds_keep_the_first_error Background two_rounds _ _ _ Hr
                            1%nat ([2; 4]%nat, Some 7%nat) _)) _).
  - repeat (apply Forall_cons; split; [vm_compute; reflexivity|]); apply Forall_nil_2.
  - reflexivity.
  - vm_compute; reflexivity.
Defined.

(** X10. When the [Wait] of a round has returned, nothing of the round
    is left behind: the counter is back at zero and every goroutine [Go]
    has ever started, one per submitted task, has exited, none still
    blocked in its send. *)
Theorem rounds_leave_no_goroutine_behind {V E : Type} `{!Zero V}
    (c : Context) (rs : list (list (Dynamic.action V E) * list nat))
    (res : list (list V * error E)) (m' : Dynamic.machine V E) :
  DynamicRounds.rounds_counted rs →
  DynamicRounds.rounds rs (Dynamic.NewDynamic c).1 = Ret (res, m') →
  Dynamic.count (Dynamic.grp m') = 0 ∧
  Dynamic.gos m'
  = replicate (length (DynamicRounds.submitted_all rs)) Dynamic.Exited.
Proof.
  intros Hcnt Hr.
  destruct (DynamicRoundsFacts.rounds_spec (WithCancel c) rs [] _ res m'
              (DynamicRoundsFacts.rounds_Quiet_new c) Hcnt Hr) as ([HL Hc Hex] & _).
  split; [done|]. simpl in HL. rewrite <- (DynamicRounds.L_len _ _ _ HL).
  apply list_eq. intros j. destruct (Dynamic.gos m' !! j) as [x|] eqn:Hj.
  - rewrite (Hex _ _ Hj). symmetry. apply lookup_replicate_2. by eapply lookup_lt_Some.
  - symmetry. apply lookup_replicate_None. by apply lookup_ge_None.
Qed.

Lemma rounds_leave_no_goroutine_behind_witness :
  ∃ m', DynamicRounds.rounds two_rounds (Dynamic.NewDynamic Background).1
        = Ret ([([1; 5]%nat, Some 7%nat); ([2; 4]%nat, Some 7%nat)], m') ∧
    Dynamic.count (Dynamic.grp m') = 0 ∧
    Dynamic.gos m' = replicate (length (DynamicRounds.submitted_all two_rounds)) Dynamic.Exited.
Proof.
  eexists.
  refine ((λ Hr, conj Hr (rounds_leave_no_goroutine_behind Background two_rounds _ _ _ Hr)) _).
  - repeat (apply Forall_cons; split; [vm_compute; reflexivity|]); apply Forall_nil_2.
  - vm_compute; reflexivity.
Defined.

(** X11. [Wait] of a dynamic group cancels the context of the group, and
    nothing renews it: after a round, whatever [Go] submits next and
    however the goroutines run, the context handed to the tasks is the
    same one and it is already done. *)
Theorem later_tasks_get_a_done_context {V E : Type} `{!Zero V}
    (c : Context) (rs : list (list (Dynamic.action V E) * list nat))
    (res : list (list V * error E)) (m' : Dynamic.machine V E)
    (acts : list (Dynamic.action V E)) :
  rs ≠ [] →
  DynamicRounds.rounds rs (Dynamic.NewDynamic c).1 = Ret (res, m') →
  Dynamic.ctx (Dynamic.grp (Dynamic.exec acts m')) = WithCancel c ∧
  Dynamic.ctx_done (Dynamic.grp (Dynamic.exec acts m')) = true.
Proof.
  intros Hne Hr.
  destruct (DynamicRoundsFacts.rounds_Life_rounds (WithCancel c) rs []
              (Dynamic.NewDynamic c).1 (DynamicRoundsFacts.rounds_Life_new c))
    as [Hb|(res' & m'' & Hr' & HL & Hd)]; [congruence|].
  rewrite Hr in Hr'. injection Hr' as <- <-. split.
  - apply (DynamicRounds.L_ctx _ _ _ (DynamicRoundsFacts.rounds_exec_Inv _ _ _ acts HL)).
  - apply DynamicRoundsFacts.rounds_done_exec. by apply Hd.
Qed.

Lemma later_tasks_get_a_done_context_witness :
  ∃ m', DynamicRounds.rounds two_rounds (Dynamic.NewDynamic Background).1
        = Ret ([([1; 5]%nat, Some 7%nat); ([2; 4]%nat, Some 7%nat)], m') ∧
    Dynamic.ctx (Dynamic.grp (Dynamic.exec [Dynamic.DoGo (succeeding 6); Dynamic.Sched 4%nat] m'))
    = WithCancel Background ∧
    Dynamic.ctx_done
      (Dynamic.grp (Dynamic.exec [Dynamic.DoGo (succeeding 6); Dynamic.Sched 4%nat] m'))
    = true.
Proof.
  eexists.
  refine ((λ Hr, conj Hr (later_tasks_get_a_done_context Background two_rounds _ _
                            [Dynamic.DoGo (succeeding 6); Dynamic.Sched 4%nat] _ Hr)) _).
  - discriminate.
  - vm_compute; reflexivity.
Defined.

(** X12. src/grouper.go guards [g.cancel] in the error path but calls it
    bare at the end of [Wait]: on a group whose cancel function is nil,
    as in any group not made by [New], [Wait] never returns; it stays
    blocked or panics, and on the zero group, which has no function and
    a counter at zero, it panics at once on the nil function. *)
Theorem Wait_needs_the_cancel_of_New {V E : Type} `{!Zero V}
    (g : Grouper.Group V E) (sched : list nat) :
  Grouper.cancel g = false →
  (Grouper.Wait sched g = Blocked ∨ ∃ msg, Grouper.Wait sched g = Panic msg) ∧
  (Grouper.funcs g = [] → Grouper.wg g = 0 →
   Grouper.Wait sched g = Panic "invalid memory address or nil pointer dereference").
Proof.
  intros Hc. split.
  - unfold Grouper.Wait.
    destruct (Grouper.run sched _) as [st| |] eqn:Hrun; [|eauto|eauto].
    apply grouper_run_cancel in Hrun. simpl in Hrun. rewrite Hrun, Hc.
    case_decide; eauto.
  - intros Hfs Hwg. unfold Grouper.Wait. rewrite Hfs. simpl.
    rewrite grouper_run_no_goroutines by done. simpl.
    rewrite Hwg, Hc. by rewrite decide_True.
Qed.

Lemma Wait_needs_the_cancel_of_New_witness :
  (Grouper.Wait [0; 1]%nat (Grouper.mkGroup (V:=nat) (E:=nat) Background false false 0 false None [])
   = Blocked ∨
   ∃ msg, Grouper.Wait [0; 1]%nat
            (Grouper.mkGroup (V:=nat) (E:=nat) Background false false 0 false None [])
          = Panic msg) ∧
  Grouper.Wait [0; 1]%nat (Grouper.mkGroup (V:=nat) (E:=nat) Background false false 0 false None [])
  = Panic "invalid memory address or nil pointer dereference".
Proof.
  refine ((λ H, conj (proj1 H) (proj2 H _ _))
            (Wait_needs_the_cancel_of_New
               (Grouper.mkGroup (V:=nat) (E:=nat) Background false false 0 false None [])
               [0; 1]%nat _)).
  - reflexivity.
  - reflexivity.
  - reflexivity.
Defined.

(** X13. A dynamic group needs the channel and the cancel function
    [NewDynamic] gives it.  On a group in which both are nil, the zero
    value included, [Wait] panics on the nil function when nothing is
    counted, and is blocked for good in its first receive as soon as
    [Go] has been called: under no schedule does it return. *)
Theorem Wait_needs_the_channel_of_NewDynamic {V E : Type} `{!Zero V}
    (m : Dynamic.machine V E) (sched : list nat) :
  Dynamic.cancel (Dynamic.grp m) = false →
  Dynamic.valueChan (Dynamic.grp m) = false →
  Dynamic.Wait sched m
  = if decide (Z.to_nat (Dynamic.count (Dynamic.grp m)) = 0%nat)
    then Panic "invalid memory address or nil pointer dereference"
    else Blocked.
Proof.
  intros Hc Hch. unfold Dynamic.Wait.
  rewrite dynamic_drain_nil_chan by done. rewrite length_replicate.
  destruct (Z.to_nat (Dynamic.count (Dynamic.grp m))) as [|n].
  - rewrite decide_False by lia. simpl. by rewrite Hc.
  - by rewrite decide_True by lia.
Qed.

Lemma Wait_needs_the_channel_of_NewDynamic_witness :
  Dynamic.Wait [0; 0; 0]%nat
    (Dynamic.Go (succeeding 1)
       (Dynamic.mkMachine (Dynamic.mkGroup Background false false false None 0 false) []))
  = Blocked ∧
  Dynamic.Wait [0; 0; 0]%nat
    (Dynamic.mkMachine (V:=nat) (E:=nat)
       (Dynamic.mkGroup Background false false false None 0 false) [])
  = Panic "invalid memory address or nil pointer dereference".
Proof.
  split.
  - refine (Wait_needs_the_channel_of_NewDynamic
              (Dynamic.Go (succeeding 1)
                 (Dynamic.mkMachine (Dynamic.mkGroup Background false false false None 0 false) []))
              [0; 0; 0]%nat _ _); reflexivity.
  - refine (Wait_needs_the_channel_of_NewDynamic
              (Dynamic.mkMachine (V:=nat) (E:=nat)
                 (Dynamic.mkGroup Background false false false None 0 false) [])
              [0; 0; 0]%nat _ _); reflexivity.
Defined.

(** X14. Before [Wait] is called on a new dynamic group, whatever has
    been submitted and however far the goroutines have run: an error in
    the error slot is the non-nil error of one of the submitted tasks,
    and the context of the group is then done; the slot is filled, and
    the context done, as soon as the goroutine of a failing task is past
    its [errOnce.Do] (sending, or gone); the context is also done from
    the start when the caller's context was done already.  When the
    caller's context is [context.Background()], nothing else ends it
    before [Wait]: the context of the group is done only if the slot
    holds an error. *)
Theorem context_done_before_Wait_means_failure {V E : Type} `{!Zero V}
    (c : Context) (acts : list (Dynamic.action V E)) :
  (∀ e, Dynamic.err (Dynamic.grp (Dynamic.exec acts (Dynamic.NewDynamic c).1)) = Some e →
     returned_by (WithCancel c) (Dynamic.submitted acts) e ∧
     Dynamic.ctx_done (Dynamic.grp (Dynamic.exec acts (Dynamic.NewDynamic c).1)) = true) ∧
  (∀ j f e x,
     Dynamic.submitted acts !! j = Some f → (f (WithCancel c)).2 = Some e →
     Dynamic.gos (Dynamic.exec acts (Dynamic.NewDynamic c).1) !! j = Some x →
     (2 ≤ DynamicInv.rank x)%nat →
     Dynamic.ctx_done (Dynamic.grp (Dynamic.exec acts (Dynamic.NewDynamic c).1)) = true ∧
     ∃ e', Dynamic.err (Dynamic.grp (Dynamic.exec acts (Dynamic.NewDynamic c).1)) = Some e') ∧
  (done_already c = true →
   Dynamic.ctx_done (Dynamic.grp (Dynamic.exec acts (Dynamic.NewDynamic c).1)) = true) ∧
  (c = Background →
   Dynamic.ctx_done (Dynamic.grp (Dynamic.exec acts (Dynamic.NewDynamic c).1)) = true →
   ∃ e, Dynamic.err (Dynamic.grp (Dynamic.exec acts (Dynamic.NewDynamic c).1)) = Some e).
Proof.
  destruct (DynamicInv.D_err _ _ _ (DynamicFacts.dynamic_exec_Inv c acts))
    as [(E1 & E2 & E3 & E4)|(E1 & E3 & j & f & e & Hj & Hf & He)].
  - rewrite E2, E3. simpl. split; [done|]. split; [|split].
    + intros j f e x Hj Hf Hx Hr. specialize (E4 _ _ _ _ Hj Hf Hx). lia.
    + done.
    + by intros ->.
  - rewrite He, E3. split; [|split; [|split]]; eauto.
    intros e' [= <-]. split; [|done]. by exists j, f.
Qed.

Lemma context_done_before_Wait_means_failure_witness :
  Dynamic.ctx_done
    (Dynamic.grp (Dynamic.exec [Dynamic.DoGo (succeeding 1); Dynamic.Sched 0%nat]
                               (Dynamic.NewDynamic Cancelled).1)) = true ∧
  Dynamic.err
    (Dynamic.grp (Dynamic.exec [Dynamic.DoGo (succeeding 1); Dynamic.Sched 0%nat]
                               (Dynamic.NewDynamic Cancelled).1)) = None ∧
  Dynamic.ctx_done
    (Dynamic.grp (Dynamic.exec [Dynamic.DoGo (failing 5 7); Dynamic.Sched 0%nat;
                                Dynamic.Sched 0%nat]
                               (Dynamic.NewDynamic Background).1)) = true.
Proof.
  split; [|split].
  - refine (proj1 (proj2 (proj2 (context_done_before_Wait_means_failure Cancelled
              [Dynamic.DoGo (succeeding 1); Dynamic.Sched 0%nat]))) _).
    reflexivity.
  - reflexivity.
  - refine (proj1 (proj1 (proj2 (context_done_before_Wait_means_failure Background
              [Dynamic.DoGo (failing 5 7); Dynamic.Sched 0%nat; Dynamic.Sched 0%nat]))
              0%nat (failing 5 7) 7%nat (Dynamic.Sending 5%nat) _ _ _ _)).
    + reflexivity.
    + reflexivity.
    + reflexivity.
    + simpl; lia.
Defined.
